(** * GrassEngine: chunk streaming and level-of-detail selection

    A shallow embedding of the chunk store of [GrassEngine]
    (LOD table, [getLODLevel], [getBladeDensity], [loadChunk], [unloadChunk],
    [updateChunks], [initResources], [updateConfig]) and of the Perlin noise
    of [utils/math.tsx], followed by the properties of the streaming core.
    The start-up shuffle of the permutation table, [initParticles] and
    [dispose] are embedded as well, for the further properties at the end.

    Conventions of the embedding.
    - A JavaScript number is an exact rational ([Q]); rounding of IEEE
      doubles, NaN and the infinities are outside the model.  The one
      exception is [Doubles], which runs the loop bounds of [updateChunks]
      over binary64, because the keys of the store are the texts of doubles.
    - [Math.sqrt] and [Vector3.distanceTo] return a non-negative square root,
      which is kept symbolically as its radicand ([root]); the only thing the
      engine does with such a value is to compare it with a rational, and
      [RootSemantics.root_lt_sqrt] relates that comparison to the real
      square root.
    - Every geometry, material and mesh the engine keeps gets a fresh object
      identifier when it is constructed; a mesh refers to its geometry and
      material by identifier, so sharing is visible.  [dispose()] calls and
      the calls of [loadChunk] and [unloadChunk] are recorded as events.
    - [Math.sin], [Math.cos], [Math.PI], the stream of [Math.random()] results
      and the shuffled permutation table [PERM] are supplied by a [Host].
    - Vertex data of geometries, shader uniforms, lights and the renderer are
      not represented. *)

From Stdlib Require Import QArith Qround ZArith List Bool String Lia Lqa Permutation.
From Stdlib Require Reals Qreals Lra.
From Stdlib Require PrimFloat.
Import ListNotations.

Open Scope Q_scope.

(** ** Numbers *)

Definition Qlt_bool (x y : Q) : bool := negb (Qle_bool y x).

(** [a || b] on numbers: [0] is falsy. *)
Definition or_default (a b : Q) : Q := if Qeq_bool a 0 then b else a.

Definition Math_floor (x : Q) : Q := inject_Z (Qfloor x).
(** [Math.round] rounds half-way cases towards +infinity. *)
Definition Math_round (x : Q) : Q := inject_Z (Qfloor (x + (1 # 2))).
Definition Math_pow2 (x : Q) : Q := x * x.

(** The value [Math.sqrt(radicand)].  A negative radicand stands for NaN. *)
Record root : Type := Math_sqrt { radicand : Q }.

(** [d < t] for a square root [d] and a rational [t]: a comparison with NaN
    is false, a non-negative value is never below a non-positive bound, and
    otherwise both sides are squared. *)
Definition root_ltb (d : root) (t : Q) : bool :=
  Qle_bool 0 (radicand d) && Qlt_bool 0 t && Qlt_bool (radicand d) (t * t).

(** The same comparison, and its companions, as propositions. *)
Definition root_lt (d : root) (t : Q) : Prop :=
  0 <= radicand d /\ 0 < t /\ radicand d < t * t.
Definition root_eq (d : root) (t : Q) : Prop :=
  0 <= t /\ radicand d == t * t.
Definition root_gt (d : root) (t : Q) : Prop :=
  0 <= radicand d /\ (t < 0 \/ t * t < radicand d).
(** Order between two square roots. *)
Definition root_lt_root (d1 d2 : root) : Prop :=
  0 <= radicand d1 /\ radicand d1 < radicand d2.
(** A non-negative rational seen as a square root. *)
Definition root_of_Q (q : Q) : root := Math_sqrt (q * q).

Record Vector3 : Type := vec3 { vx : Q; vy : Q; vz : Q }.

Definition distanceTo (a b : Vector3) : root :=
  Math_sqrt ((vx a - vx b) * (vx a - vx b)
             + (vy a - vy b) * (vy a - vy b)
             + (vz a - vz b) * (vz a - vz b)).

(** ** Configuration *)

Record GrassConfig : Type := {
  bladeCount : Q;
  bladeWidth : Q;
  bladeHeight : Q;
  windSpeed : Q;
  windStrength : Q;
  baseColor : string;
  tipColor : string;
  sunElevation : Q;
  sunAzimuth : Q;
  sunIntensity : Q;
  sunColor : string;
  ambientIntensity : Q;
  fogDensity : Q;
  fogColor : string;
  groundColor : string;
  lodBias : Q;
  lodDebug : option bool;
  peripheralDensity : option Q;
  treeDensity : option Q;
  treeColor : option string;
  treeScale : option Q
}.

(** [a !== b] on numbers, on optional numbers and on optional booleans. *)
Definition num_neq (a b : Q) : bool := negb (Qeq_bool a b).
Definition opt_num_neq (a b : option Q) : bool :=
  match a, b with
  | Some x, Some y => negb (Qeq_bool x y)
  | None, None => false
  | _, _ => true
  end.
Definition opt_bool_neq (a b : option bool) : bool :=
  match a, b with
  | Some x, Some y => negb (Bool.eqb x y)
  | None, None => false
  | _, _ => true
  end.

(** ** The LOD table *)

Record LODLevel : Type := {
  distance : Q;
  density : Q;
  segments : Z;
  castShadow : bool
}.

Definition LOD_LEVELS : list LODLevel :=
  [ {| distance := 45;  density := 1;      segments := 4; castShadow := true |};
    {| distance := 85;  density := (4 # 10); segments := 2; castShadow := true |};
    {| distance := 150; density := (1 # 10); segments := 1; castShadow := false |} ].

Definition CHUNK_SIZE : Q := 30.
Definition BASE_MAX_DISTANCE : Q := distance (last LOD_LEVELS (Build_LODLevel 0 0 0 false)).
Definition UPDATE_THRESHOLD : Q := 5.
Definition SENTINEL : Vector3 := vec3 99999 99999 99999.

(** The loop of [getLODLevel], started at index [i] on the rest of the table. *)
Fixpoint getLODLevel_from (levels : list LODLevel) (i : Z) (d : root) (bias : Q) : Z :=
  match levels with
  | [] => (-1)%Z
  | level :: rest =>
      if root_ltb d (distance level * bias) then i
      else getLODLevel_from rest (i + 1)%Z d bias
  end.

Definition getLODLevel (currentConfig : GrassConfig) (d : root) : Z :=
  let bias := or_default (lodBias currentConfig) 1 in
  getLODLevel_from LOD_LEVELS 0%Z d bias.

Definition getBladeDensity (currentConfig : GrassConfig) : Q :=
  let referenceArea := 200 * 200 in
  bladeCount currentConfig / referenceArea.

(** ** The host environment and the noise field of [utils/math.tsx] *)

Record Host : Type := {
  Math_sin : Q -> Q;
  Math_cos : Q -> Q;
  Math_PI : Q;
  (** [Math_random n] is the result of the [n]-th call of [Math.random()]. *)
  Math_random : nat -> Q;
  (** [PERM i] is the entry [PERM[i]] of the table shuffled at start-up. *)
  PERM : Z -> Z
}.

Definition fade (t : Q) : Q := t * t * t * (t * (t * 6 - 15) + 10).
Definition lerp (t a b : Q) : Q := a + t * (b - a).

Definition grad (hash : Z) (x y z : Q) : Q :=
  let h := Z.land hash 15 in
  let u := if (h <? 8)%Z then x else y in
  let v := if (h <? 4)%Z then y
           else if (h =? 12)%Z || (h =? 14)%Z then x else z in
  (if (Z.land h 1 =? 0)%Z then u else - u) + (if (Z.land h 2 =? 0)%Z then v else - v).

Definition noise2D (host : Host) (x y : Q) : Q :=
  let X := Z.land (Qfloor x) 255 in
  let Y := Z.land (Qfloor y) 255 in
  let x := x - Math_floor x in
  let y := y - Math_floor y in
  let u := fade x in
  let v := fade y in
  let A := (PERM host X + Y)%Z in
  let B := (PERM host (X + 1) + Y)%Z in
  lerp v
    (lerp u (grad (PERM host A) x y 0) (grad (PERM host B) (x - 1) y 0))
    (lerp u (grad (PERM host (A + 1)) x (y - 1) 0)
            (grad (PERM host (B + 1)) (x - 1) (y - 1) 0)).

Definition getTerrainHeight (host : Host) (x z : Q) : Q :=
  let y := noise2D host (x * (1 # 100)) (z * (1 # 100)) * 12 in
  let y := y + noise2D host (x * (5 # 100)) (z * (5 # 100)) * 3 in
  let y := y + noise2D host (x * (2 # 10)) (z * (2 # 10)) * (5 # 10) in
  y.

(** ** Scene objects *)

Inductive MaterialClass : Type :=
  | MeshBasicMaterial
  | MeshStandardMaterial
  | ShaderMaterial.

Record Material : Type := { material_id : nat; material_class : MaterialClass }.

Record Mesh : Type := {
  mesh_id : nat;
  mesh_geometry : nat;
  mesh_material : Material;
  mesh_position : Vector3
}.

(** One entry of the [aOffset], [aScale] and [aRotation] attributes. *)
Record Blade : Type := { aOffset : Vector3; aScale : Q; aRotation : Q }.

(** What [dummy.updateMatrix()] composes: position, uniform scale, yaw. *)
Record Transform : Type := { t_position : Vector3; t_scale : Q; t_yaw : Q }.

Record InstancedMesh : Type := {
  imesh_id : nat;
  imesh_geometry : nat;
  imesh_material : Material;
  imesh_count : Z;
  (** per-instance attributes held by the mesh's own geometry *)
  imesh_attributes : list Blade;
  (** matrices written with [setMatrixAt] *)
  imesh_matrices : list Transform
}.

Record TreeStore : Type := { trunk : InstancedMesh; foliage : InstancedMesh }.

Record ChunkData : Type := {
  grass : InstancedMesh;
  ground : Mesh;
  trees : option TreeStore;
  lodLevel : Z
}.

(** ** Chunk keys and the insertion-ordered [Map] *)

(** The key string [`${x}:${z}`]; the decimal text of a number is
    represented by its reduced fraction. *)
Definition Key : Type := (Q * Q)%type.
Definition getChunkKey (x z : Q) : Key := (Qred x, Qred z).

Definition Q_eqb (a b : Q) : bool :=
  (Qnum a =? Qnum b)%Z && (Qden a =? Qden b)%positive.
Definition key_eqb (a b : Key) : bool :=
  Q_eqb (fst a) (fst b) && Q_eqb (snd a) (snd b).

Fixpoint map_get {V : Type} (m : list (Key * V)) (k : Key) : option V :=
  match m with
  | [] => None
  | (k', v) :: rest => if key_eqb k k' then Some v else map_get rest k
  end.

Definition map_has {V : Type} (m : list (Key * V)) (k : Key) : bool :=
  match map_get m k with Some _ => true | None => false end.

(** [Map.set] keeps the position of a key already present and appends a new
    key at the end. *)
Fixpoint map_set {V : Type} (m : list (Key * V)) (k : Key) (v : V) : list (Key * V) :=
  match m with
  | [] => [(k, v)]
  | (k', v') :: rest =>
      if key_eqb k k' then (k', v) :: rest else (k', v') :: map_set rest k v
  end.

Fixpoint map_delete {V : Type} (m : list (Key * V)) (k : Key) : list (Key * V) :=
  match m with
  | [] => []
  | (k', v') :: rest =>
      if key_eqb k k' then map_delete rest k else (k', v') :: map_delete rest k
  end.

(** ** Engine state *)

Record Engine : Type := {
  currentConfig : GrassConfig;
  camera_position : Vector3;
  chunkGroup : list nat;
  chunks : list (Key * ChunkData);
  lodGeometries : list nat;
  grassMaterial : option Material;
  groundMaterial : option Material;
  treeTrunkGeo : option nat;
  treeFoliageGeo : option nat;
  treeTrunkMat : option Material;
  treeFoliageMat : option Material;
  lastUpdatePos : Vector3;
  (** identifier of the next object to be constructed *)
  next_object : nat;
  (** number of [Math.random()] calls made so far *)
  random_calls : nat
}.

Inductive Event : Type :=
  | Dispose (object : nat)
  | Call_loadChunk (x z : Q) (lodIndex : Z)
  | Call_unloadChunk (key : Key).

(** A method of the engine: it reads and updates the state and emits
    events. *)
Definition M (A : Type) : Type := Engine -> A * Engine * list Event.

Definition ret {A : Type} (a : A) : M A := fun s => (a, s, []).
Definition bind {A B : Type} (m : M A) (f : A -> M B) : M B :=
  fun s =>
    let '(a, s1, e1) := m s in
    let '(b, s2, e2) := f a s1 in
    (b, s2, e1 ++ e2).

Declare Scope engine_scope.
Delimit Scope engine_scope with engine.
Notation "x <- m ;; k" := (bind m (fun x => k))
  (at level 61, m at next level, right associativity) : engine_scope.
Notation "m ;; k" := (bind m (fun _ => k))
  (at level 61, right associativity) : engine_scope.
Open Scope engine_scope.

Definition get : M Engine := fun s => (s, s, []).
Definition modify (f : Engine -> Engine) : M unit := fun s => (tt, f s, []).
Definition emit (e : Event) : M unit := fun s => (tt, s, [e]).

Fixpoint forEach {A : Type} (l : list A) (f : A -> M unit) : M unit :=
  match l with
  | [] => ret tt
  | a :: rest => f a ;; forEach rest f
  end.

Definition when (b : bool) (m : M unit) : M unit := if b then m else ret tt.

Definition run_state {A : Type} (m : M A) (s : Engine) : Engine := snd (fst (m s)).
Definition run_events {A : Type} (m : M A) (s : Engine) : list Event := snd (m s).
Definition run_value {A : Type} (m : M A) (s : Engine) : A := fst (fst (m s)).

(** Field assignments [this.f = v]. *)
Definition set_currentConfig (v : GrassConfig) (s : Engine) : Engine :=
  {| currentConfig := v;
     camera_position := camera_position s;
     chunkGroup := chunkGroup s;
     chunks := chunks s;
     lodGeometries := lodGeometries s;
     grassMaterial := grassMaterial s;
     groundMaterial := groundMaterial s;
     treeTrunkGeo := treeTrunkGeo s;
     treeFoliageGeo := treeFoliageGeo s;
     treeTrunkMat := treeTrunkMat s;
     treeFoliageMat := treeFoliageMat s;
     lastUpdatePos := lastUpdatePos s;
     next_object := next_object s;
     random_calls := random_calls s |}.
Definition set_camera_position (v : Vector3) (s : Engine) : Engine :=
  {| currentConfig := currentConfig s;
     camera_position := v;
     chunkGroup := chunkGroup s;
     chunks := chunks s;
     lodGeometries := lodGeometries s;
     grassMaterial := grassMaterial s;
     groundMaterial := groundMaterial s;
     treeTrunkGeo := treeTrunkGeo s;
     treeFoliageGeo := treeFoliageGeo s;
     treeTrunkMat := treeTrunkMat s;
     treeFoliageMat := treeFoliageMat s;
     lastUpdatePos := lastUpdatePos s;
     next_object := next_object s;
     random_calls := random_calls s |}.
Definition set_chunkGroup (v : list nat) (s : Engine) : Engine :=
  {| currentConfig := currentConfig s;
     camera_position := camera_position s;
     chunkGroup := v;
     chunks := chunks s;
     lodGeometries := lodGeometries s;
     grassMaterial := grassMaterial s;
     groundMaterial := groundMaterial s;
     treeTrunkGeo := treeTrunkGeo s;
     treeFoliageGeo := treeFoliageGeo s;
     treeTrunkMat := treeTrunkMat s;
     treeFoliageMat := treeFoliageMat s;
     lastUpdatePos := lastUpdatePos s;
     next_object := next_object s;
     random_calls := random_calls s |}.
Definition set_chunks (v : list (Key * ChunkData)) (s : Engine) : Engine :=
  {| currentConfig := currentConfig s;
     camera_position := camera_position s;
     chunkGroup := chunkGroup s;
     chunks := v;
     lodGeometries := lodGeometries s;
     grassMaterial := grassMaterial s;
     groundMaterial := groundMaterial s;
     treeTrunkGeo := treeTrunkGeo s;
     treeFoliageGeo := treeFoliageGeo s;
     treeTrunkMat := treeTrunkMat s;
     treeFoliageMat := treeFoliageMat s;
     lastUpdatePos := lastUpdatePos s;
     next_object := next_object s;
     random_calls := random_calls s |}.
Definition set_lodGeometries (v : list nat) (s : Engine) : Engine :=
  {| currentConfig := currentConfig s;
     camera_position := camera_position s;
     chunkGroup := chunkGroup s;
     chunks := chunks s;
     lodGeometries := v;
     grassMaterial := grassMaterial s;
     groundMaterial := groundMaterial s;
     treeTrunkGeo := treeTrunkGeo s;
     treeFoliageGeo := treeFoliageGeo s;
     treeTrunkMat := treeTrunkMat s;
     treeFoliageMat := treeFoliageMat s;
     lastUpdatePos := lastUpdatePos s;
     next_object := next_object s;
     random_calls := random_calls s |}.
Definition set_grassMaterial (v : option Material) (s : Engine) : Engine :=
  {| currentConfig := currentConfig s;
     camera_position := camera_position s;
     chunkGroup := chunkGroup s;
     chunks := chunks s;
     lodGeometries := lodGeometries s;
     grassMaterial := v;
     groundMaterial := groundMaterial s;
     treeTrunkGeo := treeTrunkGeo s;
     treeFoliageGeo := treeFoliageGeo s;
     treeTrunkMat := treeTrunkMat s;
     treeFoliageMat := treeFoliageMat s;
     lastUpdatePos := lastUpdatePos s;
     next_object := next_object s;
     random_calls := random_calls s |}.
Definition set_groundMaterial (v : option Material) (s : Engine) : Engine :=
  {| currentConfig := currentConfig s;
     camera_position := camera_position s;
     chunkGroup := chunkGroup s;
     chunks := chunks s;
     lodGeometries := lodGeometries s;
     grassMaterial := grassMaterial s;
     groundMaterial := v;
     treeTrunkGeo := treeTrunkGeo s;
     treeFoliageGeo := treeFoliageGeo s;
     treeTrunkMat := treeTrunkMat s;
     treeFoliageMat := treeFoliageMat s;
     lastUpdatePos := lastUpdatePos s;
     next_object := next_object s;
     random_calls := random_calls s |}.
Definition set_treeTrunkGeo (v : option nat) (s : Engine) : Engine :=
  {| currentConfig := currentConfig s;
     camera_position := camera_position s;
     chunkGroup := chunkGroup s;
     chunks := chunks s;
     lodGeometries := lodGeometries s;
     grassMaterial := grassMaterial s;
     groundMaterial := groundMaterial s;
     treeTrunkGeo := v;
     treeFoliageGeo := treeFoliageGeo s;
     treeTrunkMat := treeTrunkMat s;
     treeFoliageMat := treeFoliageMat s;
     lastUpdatePos := lastUpdatePos s;
     next_object := next_object s;
     random_calls := random_calls s |}.
Definition set_treeFoliageGeo (v : option nat) (s : Engine) : Engine :=
  {| currentConfig := currentConfig s;
     camera_position := camera_position s;
     chunkGroup := chunkGroup s;
     chunks := chunks s;
     lodGeometries := lodGeometries s;
     grassMaterial := grassMaterial s;
     groundMaterial := groundMaterial s;
     treeTrunkGeo := treeTrunkGeo s;
     treeFoliageGeo := v;
     treeTrunkMat := treeTrunkMat s;
     treeFoliageMat := treeFoliageMat s;
     lastUpdatePos := lastUpdatePos s;
     next_object := next_object s;
     random_calls := random_calls s |}.
Definition set_treeTrunkMat (v : option Material) (s : Engine) : Engine :=
  {| currentConfig := currentConfig s;
     camera_position := camera_position s;
     chunkGroup := chunkGroup s;
     chunks := chunks s;
     lodGeometries := lodGeometries s;
     grassMaterial := grassMaterial s;
     groundMaterial := groundMaterial s;
     treeTrunkGeo := treeTrunkGeo s;
     treeFoliageGeo := treeFoliageGeo s;
     treeTrunkMat := v;
     treeFoliageMat := treeFoliageMat s;
     lastUpdatePos := lastUpdatePos s;
     next_object := next_object s;
     random_calls := random_calls s |}.
Definition set_treeFoliageMat (v : option Material) (s : Engine) : Engine :=
  {| currentConfig := currentConfig s;
     camera_position := camera_position s;
     chunkGroup := chunkGroup s;
     chunks := chunks s;
     lodGeometries := lodGeometries s;
     grassMaterial := grassMaterial s;
     groundMaterial := groundMaterial s;
     treeTrunkGeo := treeTrunkGeo s;
     treeFoliageGeo := treeFoliageGeo s;
     treeTrunkMat := treeTrunkMat s;
     treeFoliageMat := v;
     lastUpdatePos := lastUpdatePos s;
     next_object := next_object s;
     random_calls := random_calls s |}.
Definition set_lastUpdatePos (v : Vector3) (s : Engine) : Engine :=
  {| currentConfig := currentConfig s;
     camera_position := camera_position s;
     chunkGroup := chunkGroup s;
     chunks := chunks s;
     lodGeometries := lodGeometries s;
     grassMaterial := grassMaterial s;
     groundMaterial := groundMaterial s;
     treeTrunkGeo := treeTrunkGeo s;
     treeFoliageGeo := treeFoliageGeo s;
     treeTrunkMat := treeTrunkMat s;
     treeFoliageMat := treeFoliageMat s;
     lastUpdatePos := v;
     next_object := next_object s;
     random_calls := random_calls s |}.
Definition set_next_object (v : nat) (s : Engine) : Engine :=
  {| currentConfig := currentConfig s;
     camera_position := camera_position s;
     chunkGroup := chunkGroup s;
     chunks := chunks s;
     lodGeometries := lodGeometries s;
     grassMaterial := grassMaterial s;
     groundMaterial := groundMaterial s;
     treeTrunkGeo := treeTrunkGeo s;
     treeFoliageGeo := treeFoliageGeo s;
     treeTrunkMat := treeTrunkMat s;
     treeFoliageMat := treeFoliageMat s;
     lastUpdatePos := lastUpdatePos s;
     next_object := v;
     random_calls := random_calls s |}.
Definition set_random_calls (v : nat) (s : Engine) : Engine :=
  {| currentConfig := currentConfig s;
     camera_position := camera_position s;
     chunkGroup := chunkGroup s;
     chunks := chunks s;
     lodGeometries := lodGeometries s;
     grassMaterial := grassMaterial s;
     groundMaterial := groundMaterial s;
     treeTrunkGeo := treeTrunkGeo s;
     treeFoliageGeo := treeFoliageGeo s;
     treeTrunkMat := treeTrunkMat s;
     treeFoliageMat := treeFoliageMat s;
     lastUpdatePos := lastUpdatePos s;
     next_object := next_object s;
     random_calls := v |}.

(** ** Primitive effects *)

(** [new THREE.X(...)]: a fresh identifier. *)
Definition new_object : M nat :=
  fun s => (next_object s, set_next_object (S (next_object s)) s, []).

Definition random (host : Host) : M Q :=
  fun s => (Math_random host (random_calls s),
            set_random_calls (S (random_calls s)) s, []).

Definition randomRange (host : Host) (min max : Q) : M Q :=
  r <- random host ;; ret (r * (max - min) + min).

Definition dispose (object : nat) : M unit := emit (Dispose object).

Definition chunkGroup_add (object : nat) : M unit :=
  modify (fun s => set_chunkGroup (chunkGroup s ++ [object]) s).
Definition chunkGroup_remove (object : nat) : M unit :=
  modify (fun s =>
    set_chunkGroup (filter (fun o => negb (o =? object)%nat) (chunkGroup s)) s).

Definition is_some {A : Type} (o : option A) : bool :=
  match o with Some _ => true | None => false end.

(** [o || d] and [o ?? d] for an optional number. *)
Definition opt_or_default (o : option Q) (d : Q) : Q :=
  match o with Some q => or_default q d | None => d end.
Definition opt_nullish (o : option Q) (d : Q) : Q :=
  match o with Some q => q | None => d end.
Definition truthy (o : option bool) : bool :=
  match o with Some b => b | None => false end.

(** [for (let i = 0; i < n; i++)], the values of [i]. *)
Definition indices (n : Z) : list Q :=
  map (fun i => inject_Z (Z.of_nat i)) (seq 0 (Z.to_nat n)).

(** [for (let x = lo; x <= hi; x += step)], the values of [x]; [fuel] bounds
    the number of iterations. *)
Fixpoint for_upto (fuel : nat) (x hi step : Q) : list Q :=
  match fuel with
  | O => []
  | S fuel' =>
      if Qle_bool x hi then x :: for_upto fuel' (x + step) hi step else []
  end.

(** The number of iterations the loop makes when [step] is positive. *)
Definition iterations (lo hi step : Q) : nat :=
  Z.to_nat (Qfloor ((hi - lo) / step) + 1).

Definition for_range (lo hi step : Q) : list Q :=
  for_upto (iterations lo hi step) lo hi step.

(** ** Loading a chunk *)

Definition gridCellSize : Q := 6.

(** The body of the two tree loops of [loadChunk] for the cell [(cx, cz)]:
    the transform pushed for the cell, if its placement is accepted. *)
Definition treeCell (host : Host) (densityProb treeScale x z cx cz : Q)
  : option Transform :=
  let startOffset := - CHUNK_SIZE / 2 in
  let cellX := x + startOffset + cx * gridCellSize in
  let cellZ := z + startOffset + cz * gridCellSize in
  let seed := Math_sin host (cellX * (129898 # 10000) + cellZ * (78233 # 1000))
              * (437585453 # 10000) in
  let rand := seed - Math_floor seed in
  let jitterX := (rand * 2 - 1) * (gridCellSize * (4 # 10)) in
  let jitterZ := Math_cos host seed * (gridCellSize * (4 # 10)) in
  let wx := cellX + jitterX in
  let wz := cellZ + jitterZ in
  let forestNoise := noise2D host (wx * (3 # 100)) (wz * (3 # 100)) in
  if Qlt_bool (forestNoise * (5 # 10) + (5 # 10)) (densityProb * (15 # 10))
     && Qlt_bool rand (8 # 10)
  then
    let h := getTerrainHeight host wx wz in
    let s := treeScale * ((8 # 10) + rand * (4 # 10)) in
    Some {| t_position := vec3 wx (h - (5 # 10)) wz;
            t_scale := s;
            t_yaw := rand * Math_PI host * 2 |}
  else None.

(** [treeData.trunks] (and [treeData.foliage], which receives a clone of the
    same matrix) at the end of the TREES block. *)
Definition treeData (host : Host) (this : Engine) (x z : Q) (lodIndex : Z)
  : list Transform :=
  let densityProb := opt_or_default (treeDensity (currentConfig this)) 0 in
  if Qlt_bool (1 # 100) densityProb && (lodIndex <=? 1)%Z
     && is_some (treeTrunkGeo this) && is_some (treeFoliageGeo this)
  then
    let cells := Qceiling (CHUNK_SIZE / gridCellSize) in
    let treeScale := opt_or_default (treeScale (currentConfig this)) 1 in
    flat_map (fun cx =>
      flat_map (fun cz =>
        match treeCell host densityProb treeScale x z cx cz with
        | Some m => [m]
        | None => []
        end) (indices cells)) (indices cells)
  else [].

(** The blade loop: four [Math.random()] calls per blade. *)
Fixpoint genBlades (host : Host) (n : nat) (x z : Q) : M (list Blade) :=
  match n with
  | O => ret []
  | S n' =>
      r1 <- random host ;;
      r2 <- random host ;;
      let lx := (r1 - (5 # 10)) * CHUNK_SIZE in
      let lz := (r2 - (5 # 10)) * CHUNK_SIZE in
      let wx := x + lx in
      let wz := z + lz in
      let h := getTerrainHeight host wx wz in
      sc <- randomRange host (8 # 10) (14 # 10) ;;
      ro <- randomRange host 0 (Math_PI host * 2) ;;
      rest <- genBlades host n' x z ;;
      ret ({| aOffset := vec3 wx h wz; aScale := sc; aRotation := ro |} :: rest)
  end.

(** [bladeCount] of [loadChunk], the result of [Math.floor]. *)
Definition chunkBladeCount (cfg : GrassConfig) (lodIndex : Z) (lodSettings : LODLevel) : Z :=
  let chunkArea := CHUNK_SIZE * CHUNK_SIZE in
  let peripheralMult := opt_nullish (peripheralDensity cfg) 1 in
  let effectiveDensity :=
    if (lodIndex =? 0)%Z then density lodSettings
    else density lodSettings * peripheralMult in
  Qfloor (getBladeDensity cfg * chunkArea * effectiveDensity).

(** The ground block of [loadChunk]: the chunk's own plane geometry, a
    debug material of its own when [lodDebug] is set, and the mesh. *)
Definition buildGround (this : Engine) (x z : Q) (groundMat : Material) : M Mesh :=
  groundGeo <- new_object ;;
  mat <- (if truthy (lodDebug (currentConfig this))
          then (debugMat <- new_object ;;
                ret {| material_id := debugMat;
                       material_class := MeshBasicMaterial |})
          else ret groundMat) ;;
  groundId <- new_object ;;
  chunkGroup_add groundId ;;
  ret {| mesh_id := groundId; mesh_geometry := groundGeo;
         mesh_material := mat; mesh_position := vec3 x 0 z |}.

(** The TREES block: two instanced meshes over the shared trunk and foliage
    geometry when at least one placement was accepted. *)
Definition buildTrees (host : Host) (this : Engine) (x z : Q) (lodIndex : Z)
  : M (option TreeStore) :=
  let matrices := treeData host this x z lodIndex in
  match matrices, treeTrunkGeo this, treeTrunkMat this,
        treeFoliageGeo this, treeFoliageMat this with
  | _ :: _, Some trunkGeo, Some trunkMat, Some foliageGeo, Some foliageMat =>
      trunkId <- new_object ;;
      foliageId <- new_object ;;
      chunkGroup_add trunkId ;;
      chunkGroup_add foliageId ;;
      ret (Some
        {| trunk := {| imesh_id := trunkId; imesh_geometry := trunkGeo;
                       imesh_material := trunkMat;
                       imesh_count := Z.of_nat (List.length matrices);
                       imesh_attributes := [];
                       imesh_matrices := matrices |};
           foliage := {| imesh_id := foliageId; imesh_geometry := foliageGeo;
                         imesh_material := foliageMat;
                         imesh_count := Z.of_nat (List.length matrices);
                         imesh_attributes := [];
                         imesh_matrices := matrices |} |})
  | _, _, _, _, _ => ret None
  end.

(** The GRASS block: a geometry of its own with the instance attributes when
    there are blades; otherwise an instanced mesh of zero instances made
    directly over the LOD template [geometry]. *)
Definition buildGrass (host : Host) (this : Engine) (x z : Q) (lodIndex : Z)
    (lodSettings : LODLevel) (geometry : nat) (grassMat : Material)
  : M InstancedMesh :=
  let bladeCount := chunkBladeCount (currentConfig this) lodIndex lodSettings in
  if (bladeCount >? 0)%Z then
    blades <- genBlades host (Z.to_nat bladeCount) x z ;;
    chunkGeo <- new_object ;;
    grassId <- new_object ;;
    chunkGroup_add grassId ;;
    ret {| imesh_id := grassId; imesh_geometry := chunkGeo;
           imesh_material := grassMat; imesh_count := bladeCount;
           imesh_attributes := blades; imesh_matrices := [] |}
  else
    grassId <- new_object ;;
    ret {| imesh_id := grassId; imesh_geometry := geometry;
           imesh_material := grassMat; imesh_count := 0;
           imesh_attributes := []; imesh_matrices := [] |}.

Definition loadChunk (host : Host) (x z : Q) (lodIndex : Z) : M unit :=
  emit (Call_loadChunk x z lodIndex) ;;
  this <- get ;;
  let key := getChunkKey x z in
  if (lodIndex <? 0)%Z || (lodIndex >=? Z.of_nat (List.length LOD_LEVELS))%Z then ret tt
  else
    match nth_error (lodGeometries this) (Z.to_nat lodIndex),
          nth_error LOD_LEVELS (Z.to_nat lodIndex),
          grassMaterial this, groundMaterial this with
    | Some geometry, Some lodSettings, Some grassMat, Some groundMat =>
        groundMesh <- buildGround this x z groundMat ;;
        treeStore <- buildTrees host this x z lodIndex ;;
        grassMesh <- buildGrass host this x z lodIndex lodSettings geometry grassMat ;;
        modify (fun s =>
          set_chunks (map_set (chunks s) key
            {| grass := grassMesh; ground := groundMesh;
               trees := treeStore; lodLevel := lodIndex |}) s)
    | _, _, _, _ => ret tt
    end.

(** ** Unloading a chunk *)

Definition instanceof_MeshBasicMaterial (m : Material) : bool :=
  match material_class m with MeshBasicMaterial => true | _ => false end.

Definition unloadChunk (key : Key) : M unit :=
  emit (Call_unloadChunk key) ;;
  this <- get ;;
  match map_get (chunks this) key with
  | Some chunk =>
      dispose (imesh_geometry (grass chunk)) ;;
      chunkGroup_remove (imesh_id (grass chunk)) ;;
      dispose (mesh_geometry (ground chunk)) ;;
      when (instanceof_MeshBasicMaterial (mesh_material (ground chunk)))
           (dispose (material_id (mesh_material (ground chunk)))) ;;
      chunkGroup_remove (mesh_id (ground chunk)) ;;
      match trees chunk with
      | Some t =>
          chunkGroup_remove (imesh_id (trunk t)) ;;
          chunkGroup_remove (imesh_id (foliage t))
      | None => ret tt
      end ;;
      modify (fun s => set_chunks (map_delete (chunks s) key) s)
  | None => ret tt
  end.

(** ** Refreshing the chunk set *)

Record Needed : Type := { nx : Q; nz : Q; lod : Z }.

(** The map [neededChunks] built by the two nested loops of
    [updateChunks]. *)
Definition neededChunks (cfg : GrassConfig) (camX camZ : Q) : list (Key * Needed) :=
  let centerChunkX := Math_round (camX / CHUNK_SIZE) * CHUNK_SIZE in
  let centerChunkZ := Math_round (camZ / CHUNK_SIZE) * CHUNK_SIZE in
  let bias := or_default (lodBias cfg) 1 in
  let range := BASE_MAX_DISTANCE * bias in
  fold_left (fun needed x =>
    fold_left (fun needed z =>
      let dist := Math_sqrt (Math_pow2 (x - camX) + Math_pow2 (z - camZ)) in
      let lod := getLODLevel cfg dist in
      if negb (lod =? -1)%Z
      then map_set needed (getChunkKey x z) {| nx := x; nz := z; lod := lod |}
      else needed)
      (for_range (centerChunkZ - range) (centerChunkZ + range) CHUNK_SIZE) needed)
    (for_range (centerChunkX - range) (centerChunkX + range) CHUNK_SIZE) [].

(** The movement throttle at the top of [updateChunks]. *)
Definition throttled (this : Engine) : bool :=
  root_ltb (distanceTo (lastUpdatePos this) (camera_position this)) UPDATE_THRESHOLD.

(** The body of the first loop over [this.chunks]: a chunk that is no longer
    needed, or is needed at another level, is unloaded. *)
Definition unloadStale (needed : list (Key * Needed)) (entry : Key * ChunkData) : M unit :=
  let '(key, currentData) := entry in
  match map_get needed key with
  | None => unloadChunk key
  | Some n =>
      if negb (lod n =? lodLevel currentData)%Z then unloadChunk key
      else ret tt
  end.

(** The body of the second loop over [neededChunks]: a needed chunk that is
    not in the store is loaded. *)
Definition loadMissing (host : Host) (entry : Key * Needed) : M unit :=
  let '(key, data) := entry in
  s <- get ;;
  if negb (map_has (chunks s) key)
  then loadChunk host (nx data) (nz data) (lod data)
  else ret tt.

(** Iterating a [Map] while deleting the entry being visited visits every
    entry, so the first loop runs over the entries present when it starts.
    The update of the shadow target and of the sun at the end writes nothing
    the state represents. *)
Definition updateChunks (host : Host) : M unit :=
  this <- get ;;
  let camX := vx (camera_position this) in
  let camZ := vz (camera_position this) in
  if throttled this then ret tt
  else
    modify (fun s => set_lastUpdatePos (camera_position s) s) ;;
    let needed := neededChunks (currentConfig this) camX camZ in
    forEach (chunks this) (unloadStale needed) ;;
    forEach needed (loadMissing host).

(** One tick of the animation loop as far as the chunk store is concerned:
    the controls have put the camera at [p], then [updateChunks] runs. *)
Definition refresh (host : Host) (p : Vector3) : M unit :=
  modify (set_camera_position p) ;; updateChunks host.

(** ** Shared resources *)

Definition dispose_if (o : option nat) : M unit :=
  match o with Some r => dispose r | None => ret tt end.

Definition new_material (c : MaterialClass) : M Material :=
  id <- new_object ;; ret {| material_id := id; material_class := c |}.

(** [createClump] draws six random numbers for each of its [count] cards. *)
Definition createClump_random_calls (count : nat) : nat := 6 * count.

Definition initResources (host : Host) (config : GrassConfig) : M unit :=
  this <- get ;;
  forEach (lodGeometries this) dispose ;;
  modify (set_lodGeometries []) ;;
  forEach LOD_LEVELS (fun level =>
    geo <- new_object ;;
    modify (fun s => set_lodGeometries (lodGeometries s ++ [geo]) s)) ;;
  dispose_if (option_map material_id (grassMaterial this)) ;;
  grassMat <- new_material ShaderMaterial ;;
  modify (set_grassMaterial (Some grassMat)) ;;
  dispose_if (option_map material_id (groundMaterial this)) ;;
  groundMat <- new_material MeshStandardMaterial ;;
  modify (set_groundMaterial (Some groundMat)) ;;
  dispose_if (treeTrunkGeo this) ;;
  dispose_if (treeFoliageGeo this) ;;
  dispose_if (option_map material_id (treeTrunkMat this)) ;;
  dispose_if (option_map material_id (treeFoliageMat this)) ;;
  trunkGeo <- new_object ;;
  modify (set_treeTrunkGeo (Some trunkGeo)) ;;
  modify (fun s => set_random_calls
    (random_calls s + createClump_random_calls 12 + createClump_random_calls 8
     + createClump_random_calls 9 + createClump_random_calls 7
     + createClump_random_calls 6)%nat s) ;;
  foliageGeo <- new_object ;;
  modify (set_treeFoliageGeo (Some foliageGeo)) ;;
  trunkMat <- new_material MeshStandardMaterial ;;
  modify (set_treeTrunkMat (Some trunkMat)) ;;
  foliageMat <- new_material ShaderMaterial ;;
  modify (set_treeFoliageMat (Some foliageMat)).

(** ** Reconciling a new configuration *)

(** The disjunction tested by [updateConfig]. *)
Definition needsRebuild (prevConfig config : GrassConfig) : bool :=
  let needsGeoRebuild :=
    num_neq (bladeWidth prevConfig) (bladeWidth config)
    || num_neq (bladeHeight prevConfig) (bladeHeight config) in
  let needsDensityRebuild := num_neq (bladeCount prevConfig) (bladeCount config) in
  let needsLodRebuild := num_neq (lodBias prevConfig) (lodBias config) in
  let needsDebugRebuild := opt_bool_neq (lodDebug prevConfig) (lodDebug config) in
  let needsPeripheralRebuild :=
    opt_num_neq (peripheralDensity prevConfig) (peripheralDensity config) in
  let needsTreeRebuild :=
    opt_num_neq (treeDensity prevConfig) (treeDensity config)
    || opt_num_neq (treeScale prevConfig) (treeScale config) in
  needsGeoRebuild || needsDensityRebuild || needsLodRebuild || needsDebugRebuild
  || needsPeripheralRebuild || needsTreeRebuild.

(** The callback [(_, key) => this.unloadChunk(key)] of [chunks.forEach]. *)
Definition unloadEntry (entry : Key * ChunkData) : M unit :=
  unloadChunk (fst entry).

(** The else-branch only writes shader uniforms, fog and light values, which
    the state does not represent. *)
Definition updateConfig (host : Host) (config : GrassConfig) : M unit :=
  this <- get ;;
  let prevConfig := currentConfig this in
  modify (set_currentConfig config) ;;
  if needsRebuild prevConfig config then
    initResources host config ;;
    s <- get ;;
    forEach (chunks s) unloadEntry ;;
    modify (set_chunks []) ;;
    modify (set_lastUpdatePos SENTINEL) ;;
    updateChunks host
  else ret tt.

(** An engine before its first frame: no chunk is loaded, the camera is at
    [(0, 15, 40)] and the last refresh position is the sentinel; [constructed]
    has the shared resources built by [initResources]. *)
Definition emptyEngine (config : GrassConfig) : Engine :=
  {| currentConfig := config;
     camera_position := vec3 0 15 40;
     chunkGroup := [];
     chunks := [];
     lodGeometries := [];
     grassMaterial := None;
     groundMaterial := None;
     treeTrunkGeo := None;
     treeFoliageGeo := None;
     treeTrunkMat := None;
     treeFoliageMat := None;
     lastUpdatePos := SENTINEL;
     next_object := 0;
     random_calls := 0 |}.

Definition constructed (host : Host) (config : GrassConfig) : Engine :=
  run_state (initResources host config) (emptyEngine config).

(** ** Concrete inputs *)

(** The biome the application starts with. *)
Definition goldenFields : GrassConfig :=
  {| bladeCount := 60000; bladeWidth := (35 # 100); bladeHeight := (18 # 10);
     windSpeed := (12 # 10); windStrength := (8 # 10);
     baseColor := "#6A5623"; tipColor := "#E6C25B";
     sunElevation := 12; sunAzimuth := -45; sunIntensity := 6;
     sunColor := "#FFD580"; ambientIntensity := (3 # 10);
     fogDensity := (2 # 100); fogColor := "#FFEFD5"; groundColor := "#3d3215";
     lodBias := 1; lodDebug := Some false; peripheralDensity := Some 1;
     treeDensity := Some (3 # 10); treeColor := Some "#D4A017"%string;
     treeScale := Some (12 # 10) |}.

Definition set_lodBias (v : Q) (c : GrassConfig) : GrassConfig :=
  {| bladeCount := bladeCount c; bladeWidth := bladeWidth c;
     bladeHeight := bladeHeight c; windSpeed := windSpeed c;
     windStrength := windStrength c; baseColor := baseColor c;
     tipColor := tipColor c; sunElevation := sunElevation c;
     sunAzimuth := sunAzimuth c; sunIntensity := sunIntensity c;
     sunColor := sunColor c; ambientIntensity := ambientIntensity c;
     fogDensity := fogDensity c; fogColor := fogColor c;
     groundColor := groundColor c; lodBias := v; lodDebug := lodDebug c;
     peripheralDensity := peripheralDensity c; treeDensity := treeDensity c;
     treeColor := treeColor c; treeScale := treeScale c |}.

Definition set_bladeCount (v : Q) (c : GrassConfig) : GrassConfig :=
  {| bladeCount := v; bladeWidth := bladeWidth c;
     bladeHeight := bladeHeight c; windSpeed := windSpeed c;
     windStrength := windStrength c; baseColor := baseColor c;
     tipColor := tipColor c; sunElevation := sunElevation c;
     sunAzimuth := sunAzimuth c; sunIntensity := sunIntensity c;
     sunColor := sunColor c; ambientIntensity := ambientIntensity c;
     fogDensity := fogDensity c; fogColor := fogColor c;
     groundColor := groundColor c; lodBias := lodBias c; lodDebug := lodDebug c;
     peripheralDensity := peripheralDensity c; treeDensity := treeDensity c;
     treeColor := treeColor c; treeScale := treeScale c |}.

Definition set_treeDensity (v : option Q) (c : GrassConfig) : GrassConfig :=
  {| bladeCount := bladeCount c; bladeWidth := bladeWidth c;
     bladeHeight := bladeHeight c; windSpeed := windSpeed c;
     windStrength := windStrength c; baseColor := baseColor c;
     tipColor := tipColor c; sunElevation := sunElevation c;
     sunAzimuth := sunAzimuth c; sunIntensity := sunIntensity c;
     sunColor := sunColor c; ambientIntensity := ambientIntensity c;
     fogDensity := fogDensity c; fogColor := fogColor c;
     groundColor := groundColor c; lodBias := lodBias c; lodDebug := lodDebug c;
     peripheralDensity := peripheralDensity c; treeDensity := v;
     treeColor := treeColor c; treeScale := treeScale c |}.

Definition set_tipColor (v : string) (c : GrassConfig) : GrassConfig :=
  {| bladeCount := bladeCount c; bladeWidth := bladeWidth c;
     bladeHeight := bladeHeight c; windSpeed := windSpeed c;
     windStrength := windStrength c; baseColor := baseColor c;
     tipColor := v; sunElevation := sunElevation c;
     sunAzimuth := sunAzimuth c; sunIntensity := sunIntensity c;
     sunColor := sunColor c; ambientIntensity := ambientIntensity c;
     fogDensity := fogDensity c; fogColor := fogColor c;
     groundColor := groundColor c; lodBias := lodBias c; lodDebug := lodDebug c;
     peripheralDensity := peripheralDensity c; treeDensity := treeDensity c;
     treeColor := treeColor c; treeScale := treeScale c |}.

Definition set_bladeHeight (v : Q) (c : GrassConfig) : GrassConfig :=
  {| bladeCount := bladeCount c; bladeWidth := bladeWidth c;
     bladeHeight := v; windSpeed := windSpeed c;
     windStrength := windStrength c; baseColor := baseColor c;
     tipColor := tipColor c; sunElevation := sunElevation c;
     sunAzimuth := sunAzimuth c; sunIntensity := sunIntensity c;
     sunColor := sunColor c; ambientIntensity := ambientIntensity c;
     fogDensity := fogDensity c; fogColor := fogColor c;
     groundColor := groundColor c; lodBias := lodBias c; lodDebug := lodDebug c;
     peripheralDensity := peripheralDensity c; treeDensity := treeDensity c;
     treeColor := treeColor c; treeScale := treeScale c |}.

(** A host to run the model on examples: the identity permutation and
    arbitrary but fixed stand-ins for sine, cosine and the random stream. *)
Definition sampleHost : Host :=
  {| Math_sin := fun q => q - Math_floor q;
     Math_cos := fun q => 1 - 2 * (q - Math_floor q);
     Math_PI := (355 # 113);
     Math_random := fun n => inject_Z (Z.of_nat (n mod 10)) / 10;
     PERM := fun i => (i mod 256)%Z |}.

(** A bare field: no blades and no trees. *)
Definition bareFields : GrassConfig :=
  set_treeDensity (Some 0) (set_bladeCount 0 goldenFields).

(** A field without blades where every tree cell below the acceptance bound
    of the hash is planted. *)
Definition forest : GrassConfig :=
  set_treeDensity (Some 1) (set_bladeCount 0 goldenFields).

(** ** Notions used by the properties *)

(** An entry of the needed set is well formed when it is stored under the
    key of its own coordinates. *)
Definition keyed (e : Key * Needed) : Prop :=
  fst e = getChunkKey (nx (snd e)) (nz (snd e)).

(** The shared resources every [loadChunk] needs are in place. *)
Definition resources_ready (s : Engine) : Prop :=
  List.length (lodGeometries s) = List.length LOD_LEVELS /\
  grassMaterial s <> None /\ groundMaterial s <> None /\
  treeTrunkGeo s <> None /\ treeFoliageGeo s <> None /\
  treeTrunkMat s <> None /\ treeFoliageMat s <> None.

(** The chunk stored under the key of [(x, z)] after [loadChunk]. *)
Definition loaded (host : Host) (x z : Q) (lodIndex : Z) (s : Engine) : option ChunkData :=
  map_get (chunks (run_state (loadChunk host x z lodIndex) s)) (getChunkKey x z).

(** The matrices of the tree meshes of a chunk: trunk and foliage. *)
Definition tree_matrices (c : ChunkData) : list Transform * list Transform :=
  match trees c with
  | Some t => (imesh_matrices (trunk t), imesh_matrices (foliage t))
  | None => ([], [])
  end.

(** The objects [unloadChunk key] calls [dispose()] on, in order. *)
Definition unloadChunk_disposals (s : Engine) (key : Key) : list nat :=
  match map_get (chunks s) key with
  | Some chunk =>
      imesh_geometry (grass chunk) :: mesh_geometry (ground chunk) ::
      (if instanceof_MeshBasicMaterial (mesh_material (ground chunk))
       then [material_id (mesh_material (ground chunk))] else [])
  | None => []
  end.

Definition opt_list {A : Type} (o : option A) : list A :=
  match o with Some a => [a] | None => [] end.

(** The objects shared by all chunks: the LOD template geometries, the grass
    and ground materials and the tree geometries and materials. *)
Definition shared_objects (s : Engine) : list nat :=
  lodGeometries s
  ++ map material_id (opt_list (grassMaterial s))
  ++ map material_id (opt_list (groundMaterial s))
  ++ opt_list (treeTrunkGeo s)
  ++ opt_list (treeFoliageGeo s)
  ++ map material_id (opt_list (treeTrunkMat s))
  ++ map material_id (opt_list (treeFoliageMat s)).

(** Identifiers are handed out in increasing order, so every shared object
    is older than the next object. *)
Definition allocated (s : Engine) : Prop :=
  forall o, In o (shared_objects s) -> (o < next_object s)%nat.

(** [initResources] makes the ground material a [MeshStandardMaterial]. *)
Definition ground_is_standard (s : Engine) : Prop :=
  forall m, groundMaterial s = Some m -> material_class m = MeshStandardMaterial.

(** The horizontal distance from the camera to the centre of the chunk
    stored under [k]. *)
Definition chunk_distance (k : Key) (cam : Vector3) : root :=
  Math_sqrt (Math_pow2 (fst k - vx cam) + Math_pow2 (snd k - vz cam)).

(** A sequence of refreshes, one per camera position. *)
Definition refreshes (host : Host) (ps : list Vector3) (s : Engine) : Engine :=
  fold_left (fun s p => run_state (refresh host p) s) ps s.

(** The camera position of the last refresh of the sequence that was applied
    (not throttled); [last] is the one known before the sequence. *)
Fixpoint last_applied (host : Host) (ps : list Vector3) (s : Engine)
    (last : option Vector3) : option Vector3 :=
  match ps with
  | [] => last
  | p :: rest =>
      last_applied host rest (run_state (refresh host p) s)
        (if throttled (set_camera_position p s) then last else Some p)
  end.

(** What every reachable state satisfies. *)
Definition sound (s : Engine) : Prop :=
  resources_ready s /\ allocated s /\ ground_is_standard s.

(** The states an engine can be in: the constructor builds the resources,
    and from then on the animation loop refreshes the store at the camera
    position of each frame while the host page calls [updateConfig] and the
    public methods [loadChunk] and [unloadChunk]. *)
Inductive reachable (host : Host) : Engine -> Prop :=
  | reachable_constructed (config : GrassConfig) :
      reachable host (constructed host config)
  | reachable_refresh (s : Engine) (p : Vector3) :
      reachable host s -> reachable host (run_state (refresh host p) s)
  | reachable_updateConfig (s : Engine) (config : GrassConfig) :
      reachable host s -> reachable host (run_state (updateConfig host config) s)
  | reachable_loadChunk (s : Engine) (x z : Q) (lodIndex : Z) :
      reachable host s -> reachable host (run_state (loadChunk host x z lodIndex) s)
  | reachable_unloadChunk (s : Engine) (key : Key) :
      reachable host s -> reachable host (run_state (unloadChunk key) s).

(** ** Relations between a state and a later one *)

(** The part of the state that loading and unloading chunks never writes. *)
Definition same_fixed (s s' : Engine) : Prop :=
  currentConfig s' = currentConfig s /\
  camera_position s' = camera_position s /\
  lodGeometries s' = lodGeometries s /\
  grassMaterial s' = grassMaterial s /\
  groundMaterial s' = groundMaterial s /\
  treeTrunkGeo s' = treeTrunkGeo s /\
  treeFoliageGeo s' = treeFoliageGeo s /\
  treeTrunkMat s' = treeTrunkMat s /\
  treeFoliageMat s' = treeFoliageMat s /\
  lastUpdatePos s' = lastUpdatePos s.

Definition same_chunks (s s' : Engine) : Prop := chunks s' = chunks s.

Definition fewer_chunks (s s' : Engine) : Prop :=
  forall k c, In (k, c) (chunks s') -> In (k, c) (chunks s).

Definition grows (s s' : Engine) : Prop := (next_object s <= next_object s')%nat.

(** The shared resources are the same objects and no identifier was taken
    back. *)
Definition extends (s s' : Engine) : Prop :=
  lodGeometries s' = lodGeometries s /\
  grassMaterial s' = grassMaterial s /\
  groundMaterial s' = groundMaterial s /\
  treeTrunkGeo s' = treeTrunkGeo s /\
  treeFoliageGeo s' = treeFoliageGeo s /\
  treeTrunkMat s' = treeTrunkMat s /\
  treeFoliageMat s' = treeFoliageMat s /\
  (next_object s <= next_object s')%nat.

(** A method keeps a relation when every run relates the state before to the
    state after; it is quiet when it emits no event. *)
Definition keeps (R : Engine -> Engine -> Prop) {A : Type} (m : M A) : Prop :=
  forall s, R s (run_state m s).
Definition quiet {A : Type} (m : M A) : Prop :=
  forall s, run_events m s = [].

(** The engine [s] with [lodBias] replaced by [b] in its configuration. *)
Definition rebias (b : Q) (s : Engine) : Engine :=
  set_currentConfig (set_lodBias b (currentConfig s)) s.

Definition lift_rebias {A : Type} (b : Q) (r : A * Engine * list Event)
  : A * Engine * list Event :=
  let '(a, s', e) := r in (a, rebias b s', e).

(** A method commutes with the replacement of [lodBias] when it returns the
    same value, emits the same events and makes the same state changes
    whichever bias is configured. *)
Definition commutes {A : Type} (b : Q) (m : M A) : Prop :=
  forall s, m (rebias b s) = lift_rebias b (m s).

(** ** Statements of the specification *)

(** The band rule with the configured [lodBias] itself as the multiplier:
    level [i] is returned only below the [i]-th threshold times [lodBias]. *)
Definition band_rule_with_lodBias (cfg : GrassConfig) (d : root) (i : nat) : Prop :=
  forall level,
    nth_error LOD_LEVELS i = Some level ->
    getLODLevel cfg d = Z.of_nat i ->
    root_lt d (distance level * lodBias cfg).

(** No loaded chunk is farther from the camera than [150 * lodBias], with the
    configured [lodBias] itself as the factor. *)
Definition within_lodBias_range (s : Engine) : Prop :=
  forall k c,
    In (k, c) (chunks s) ->
    ~ root_gt (chunk_distance k (camera_position s))
              (BASE_MAX_DISTANCE * lodBias (currentConfig s)).

Definition multiple_of_CHUNK_SIZE (q : Q) : Prop :=
  exists n : Z, q == inject_Z n * CHUNK_SIZE.

(** Every key that is in the store after [s'] and was not in it before has
    coordinates that are integer multiples of the chunk size. *)
Definition inserted_keys_on_multiples (s s' : Engine) : Prop :=
  forall k,
    map_has (chunks s) k = false ->
    map_has (chunks s') k = true ->
    multiple_of_CHUNK_SIZE (fst k) /\ multiple_of_CHUNK_SIZE (snd k).

(** Equality of optional numbers. *)
Definition opt_Qeq (a b : option Q) : Prop :=
  match a, b with
  | Some x, Some y => x == y
  | None, None => True
  | _, _ => False
  end.

(** A structural change, in the words of the specification: any difference
    in blade width, blade height, blade count, LOD bias, the debug flag, the
    peripheral density, the tree density or the tree scale. *)
Definition structural_change (prev next : GrassConfig) : Prop :=
  ~ bladeWidth prev == bladeWidth next \/
  ~ bladeHeight prev == bladeHeight next \/
  ~ bladeCount prev == bladeCount next \/
  ~ lodBias prev == lodBias next \/
  lodDebug prev <> lodDebug next \/
  ~ opt_Qeq (peripheralDensity prev) (peripheralDensity next) \/
  ~ opt_Qeq (treeDensity prev) (treeDensity next) \/
  ~ opt_Qeq (treeScale prev) (treeScale next).

(** Every key of the store of [s] is unloaded by the events [evs]. *)
Definition all_unloaded (s : Engine) (evs : list Event) : Prop :=
  forall k, map_has (chunks s) k = true -> In (Call_unloadChunk k) evs.

(** The set required at the camera of [s] under [config] is loaded by the
    events [evs] and is in the store of [s'], each chunk at its level. *)
Definition required_reloaded (config : GrassConfig) (s s' : Engine)
    (evs : list Event) : Prop :=
  forall k n,
    In (k, n) (neededChunks config (vx (camera_position s)) (vz (camera_position s))) ->
    In (Call_loadChunk (nx n) (nz n) (lod n)) evs /\
    exists c, map_get (chunks s') k = Some c /\ lodLevel c = lod n.

(** The reconciliation rule without any condition on the camera. *)
Definition reconciles (host : Host) (s : Engine) (config : GrassConfig) : Prop :=
  let s' := run_state (updateConfig host config) s in
  let evs := run_events (updateConfig host config) s in
  (structural_change (currentConfig s) config ->
   all_unloaded s evs /\ required_reloaded config s s' evs) /\
  (~ structural_change (currentConfig s) config ->
   evs = [] /\ chunks s' = chunks s).

(** ** Further parts of the code *)

(** *** The start-up code of [utils/math.tsx]

    [P] is a [Uint8Array(256)]: a read outside it yields [undefined], which
    is stored back as [0]; a write outside it is ignored; a stored value is
    taken modulo 256. *)

Fixpoint set_nth (l : list Z) (i : nat) (v : Z) : list Z :=
  match l, i with
  | [], _ => []
  | _ :: t, O => v :: t
  | h :: t, S i' => h :: set_nth t i' v
  end.

Definition Uint8Array_get (a : list Z) (i : Z) : Z :=
  if (i <? 0)%Z then 0%Z else nth (Z.to_nat i) a 0%Z.

Definition Uint8Array_set (a : list Z) (i : Z) (v : Z) : list Z :=
  if (i <? 0)%Z then a else set_nth a (Z.to_nat i) (v mod 256)%Z.

(** [for (let i = 0; i < 256; i++) P[i] = i]. *)
Definition P_identity : list Z := map Z.of_nat (seq 0 256).

(** One turn of the shuffle loop, for the loop variable [i] and the value
    [rnd] returned by [Math.random()]. *)
Definition shuffle_step (P : list Z) (i : Z) (rnd : Q) : list Z :=
  let r := Qfloor (rnd * inject_Z (i + 1)) in
  let t := Uint8Array_get P i in
  let P := Uint8Array_set P i (Uint8Array_get P r) in
  Uint8Array_set P r t.

(** [for (let i = n; i > 0; i--)], the [k]-th call of [Math.random()] being
    the next one. *)
Fixpoint shuffle_from (rnd : nat -> Q) (n : nat) (k : nat) (P : list Z) : list Z :=
  match n with
  | O => P
  | S n' => shuffle_from rnd n' (S k) (shuffle_step P (Z.of_nat n) (rnd k))
  end.

Definition P_shuffled (rnd : nat -> Q) : list Z := shuffle_from rnd 255 0 P_identity.

(** [for (let i = 0; i < 512; i++) PERM[i] = P[i & 255]]. *)
Definition PERM_table (rnd : nat -> Q) : list Z :=
  map (fun i => Uint8Array_get (P_shuffled rnd) (Z.land (Z.of_nat i) 255)) (seq 0 512).

(** The table as [noise2D] reads it, at an index inside the table. *)
Definition PERM_init (rnd : nat -> Q) (i : Z) : Z := Uint8Array_get (PERM_table rnd) i.

(** The indices at which [noise2D] reads [PERM], in the order of the source. *)
Definition noise2D_reads (host : Host) (x y : Q) : list Z :=
  let X := Z.land (Qfloor x) 255 in
  let Y := Z.land (Qfloor y) 255 in
  let A := (PERM host X + Y)%Z in
  let B := (PERM host (X + 1) + Y)%Z in
  [X; (X + 1)%Z; A; B; (A + 1)%Z; (B + 1)%Z].

(** A table of bytes, as a [Uint8Array(512)] holds them. *)
Definition byte_table (perm : Z -> Z) : Prop :=
  forall i, (0 <= i < 512)%Z -> (0 <= perm i <= 255)%Z.

(** The start-up code run on the stream of [Math.random()]; the engine then
    continues the stream after the 255 calls of the shuffle. *)
Definition started (host : Host) (rnd : nat -> Q) : Host :=
  {| Math_sin := Math_sin host;
     Math_cos := Math_cos host;
     Math_PI := Math_PI host;
     Math_random := fun n => rnd (255 + n)%nat;
     PERM := PERM_init rnd |}.

(** [Math.random()] returns a number in [0, 1). *)
Definition unit_stream (rnd : nat -> Q) : Prop := forall n, 0 <= rnd n /\ rnd n < 1.

(** The index on which one turn of the shuffle reads the old table. *)
Definition swapped (i r j : nat) : nat :=
  if Nat.eqb j r then i else if Nat.eqb j i then r else j.

Definition bytes256 (P : list Z) : Prop :=
  List.length P = 256%nat /\ Forall (fun v => (0 <= v < 256)%Z) P /\ NoDup P.

Definition constant_stream (q : Q) : nat -> Q := fun _ => q.

(** *** The store and the scene graph *)

(** The keys of the store stay pairwise distinct. *)
Definition distinct_keys (s s' : Engine) : Prop :=
  NoDup (map fst (chunks s)) -> NoDup (map fst (chunks s')).

(** The objects [loadChunk] constructs for the meshes of a chunk, in the
    order of their construction. *)
Definition chunk_ids (c : ChunkData) : list nat :=
  mesh_id (ground c) ::
  match trees c with
  | Some t => [imesh_id (trunk t); imesh_id (foliage t)]
  | None => []
  end ++ [imesh_id (grass c)].

(** The meshes [loadChunk] adds to [chunkGroup]: the grass mesh is added only
    when it has blades. *)
Definition chunk_meshes (c : ChunkData) : list nat :=
  mesh_id (ground c) ::
  match trees c with
  | Some t => [imesh_id (trunk t); imesh_id (foliage t)]
  | None => []
  end ++ (if (imesh_count (grass c) >? 0)%Z then [imesh_id (grass c)] else []).

Definition scene_meshes (s : Engine) : list nat :=
  flat_map (fun e => chunk_meshes (snd e)) (chunks s).

Definition store_ids (s : Engine) : list nat :=
  flat_map (fun e => chunk_ids (snd e)) (chunks s).

(** The children of [chunkGroup] are the meshes of the stored chunks, stored
    under distinct keys and made of distinct objects. *)
Definition scene_wf (s : Engine) : Prop :=
  chunkGroup s = scene_meshes s /\
  NoDup (map fst (chunks s)) /\
  NoDup (store_ids s) /\
  forall o, In o (store_ids s) -> (o < next_object s)%nat.

(** [chunkGroup.remove] of each of [ids]. *)
Definition remove_ids (ids : list nat) (l : list nat) : list nat :=
  filter (fun o => negb (existsb (Nat.eqb o) ids)) l.

(** The states the engine reaches by itself: as [reachable], but [loadChunk]
    is called only for a key that is not in the store, as [updateChunks]
    does. *)
Inductive driven (host : Host) : Engine -> Prop :=
  | driven_constructed (config : GrassConfig) :
      driven host (constructed host config)
  | driven_refresh (s : Engine) (p : Vector3) :
      driven host s -> driven host (run_state (refresh host p) s)
  | driven_updateConfig (s : Engine) (config : GrassConfig) :
      driven host s -> driven host (run_state (updateConfig host config) s)
  | driven_loadChunk (s : Engine) (x z : Q) (lodIndex : Z) :
      driven host s ->
      map_has (chunks s) (getChunkKey x z) = false ->
      driven host (run_state (loadChunk host x z lodIndex) s)
  | driven_unloadChunk (s : Engine) (key : Key) :
      driven host s -> driven host (run_state (unloadChunk key) s).

(** Neither the scene graph nor the allocator is touched. *)
Definition same_scene (s s' : Engine) : Prop :=
  chunkGroup s' = chunkGroup s /\ next_object s' = next_object s.

(** A well-formed scene with its resources in place stays so. *)
Definition scene_kept (s s' : Engine) : Prop :=
  scene_wf s /\ resources_ready s -> scene_wf s' /\ resources_ready s'.

(** *** Chunks and the shared resources *)

(** The chunk [c] refers to the shared resources the engine [s] holds now:
    its grass material, its ground material unless it has a debug material of
    its own, and the geometry and material of its trees. *)
Definition uses_current (s : Engine) (c : ChunkData) : Prop :=
  grassMaterial s = Some (imesh_material (grass c)) /\
  (instanceof_MeshBasicMaterial (mesh_material (ground c)) = false ->
   groundMaterial s = Some (mesh_material (ground c))) /\
  (forall t, trees c = Some t ->
     treeTrunkGeo s = Some (imesh_geometry (trunk t)) /\
     treeTrunkMat s = Some (imesh_material (trunk t)) /\
     treeFoliageGeo s = Some (imesh_geometry (foliage t)) /\
     treeFoliageMat s = Some (imesh_material (foliage t))).

Definition store_current (s : Engine) : Prop :=
  forall k c, In (k, c) (chunks s) -> uses_current s c.

(** The shared resources are left alone and every chunk that was not in the
    store before refers to them. *)
Definition current_kept (s s' : Engine) : Prop :=
  same_fixed s s' /\
  forall k c, In (k, c) (chunks s') -> In (k, c) (chunks s) \/ uses_current s c.

(** *** The contents of stored chunks *)

(** Every chunk that was not in the store before satisfies [P]. *)
Definition added_satisfy (P : Key -> ChunkData -> Prop) (s s' : Engine) : Prop :=
  forall k c, In (k, c) (chunks s') -> In (k, c) (chunks s) \/ P k c.

(** The entry [loadChunk] writes when none of its guards returns early. *)
Definition loadChunk_entry (host : Host) (x z : Q) (lodIndex : Z) (s : Engine)
    (c : ChunkData) : Prop :=
  exists geometry lodSettings grassMat groundMat,
    (0 <= lodIndex < 3)%Z /\
    nth_error (lodGeometries s) (Z.to_nat lodIndex) = Some geometry /\
    nth_error LOD_LEVELS (Z.to_nat lodIndex) = Some lodSettings /\
    grassMaterial s = Some grassMat /\
    groundMaterial s = Some groundMat /\
    let s1 := run_state (buildGround s x z groundMat) s in
    let s2 := run_state (buildTrees host s x z lodIndex) s1 in
    c = {| grass := run_value (buildGrass host s x z lodIndex lodSettings geometry grassMat) s2;
           ground := run_value (buildGround s x z groundMat) s;
           trees := run_value (buildTrees host s x z lodIndex) s1;
           lodLevel := lodIndex |}.

(** The ground mesh of a chunk lies at the coordinates its key is made of,
    and its level is one of the LOD table. *)
Definition chunk_placed (k : Key) (c : ChunkData) : Prop :=
  k = getChunkKey (vx (mesh_position (ground c))) (vz (mesh_position (ground c))) /\
  vy (mesh_position (ground c)) = 0 /\
  (0 <= lodLevel c < 3)%Z.

(** A blade of the chunk at [(x, z)]: it stands on the terrain inside the
    footprint of the chunk, scaled and turned within the ranges drawn. *)
Definition blade_in_chunk (host : Host) (x z : Q) (b : Blade) : Prop :=
  x - CHUNK_SIZE / 2 <= vx (aOffset b) /\ vx (aOffset b) <= x + CHUNK_SIZE / 2 /\
  z - CHUNK_SIZE / 2 <= vz (aOffset b) /\ vz (aOffset b) <= z + CHUNK_SIZE / 2 /\
  vy (aOffset b) = getTerrainHeight host (vx (aOffset b)) (vz (aOffset b)) /\
  (8 # 10) <= aScale b /\ aScale b <= (14 # 10) /\
  0 <= aRotation b /\ aRotation b <= Math_PI host * 2.

(** The grass mesh holds one attribute entry per instance, each a blade of
    the chunk stored under [k]. *)
Definition blades_in_chunk (host : Host) (k : Key) (c : ChunkData) : Prop :=
  imesh_count (grass c) = Z.of_nat (List.length (imesh_attributes (grass c))) /\
  Forall (blade_in_chunk host (fst k) (snd k)) (imesh_attributes (grass c)).

(** A tree of the chunk at [(x, z)]: it stands on the terrain, half a unit
    sunk, at most the jitter of a cell outside the footprint of the chunk. *)
Definition tree_in_reach (host : Host) (x z : Q) (m : Transform) : Prop :=
  x - CHUNK_SIZE / 2 - gridCellSize * (4 # 10) <= vx (t_position m) /\
  vx (t_position m) <= x + CHUNK_SIZE / 2 /\
  z - CHUNK_SIZE / 2 - gridCellSize * (4 # 10) <= vz (t_position m) /\
  vz (t_position m) <= z + CHUNK_SIZE / 2 /\
  vy (t_position m)
  = getTerrainHeight host (vx (t_position m)) (vz (t_position m)) - (5 # 10).

(** The tree meshes of the chunk stored under [k], if it has any: trunk and
    foliage carry the same matrices, one per instance and at most one per
    cell of the 5 x 5 grid, and only a chunk of level 0 or 1 has trees. *)
Definition trees_in_chunk (host : Host) (k : Key) (c : ChunkData) : Prop :=
  forall t, trees c = Some t ->
    imesh_matrices (foliage t) = imesh_matrices (trunk t) /\
    imesh_count (trunk t) = Z.of_nat (List.length (imesh_matrices (trunk t))) /\
    imesh_count (foliage t) = Z.of_nat (List.length (imesh_matrices (trunk t))) /\
    (0 < List.length (imesh_matrices (trunk t)) <= 25)%nat /\
    Forall (tree_in_reach host (fst k) (snd k)) (imesh_matrices (trunk t)) /\
    (lodLevel c <= 1)%Z.

(** [Math.cos] stays within [-1, 1]. *)
Definition cos_bounded (host : Host) : Prop :=
  forall q, - (1) <= Math_cos host q /\ Math_cos host q <= 1.

(** *** Tearing the engine down *)

(** The objects the constructor builds besides the shared resources, and the
    identifier of the pending animation frame. *)
Record Fixtures : Type := {
  frameId : option Z;
  renderer : nat;
  controls : nat;
  (** geometry and material of the sun mesh *)
  sunMesh : option (nat * nat);
  (** geometry of the pollen mesh *)
  pollenMesh : option nat;
  pollenMaterial : option nat;
  (** [albedoMap], [alphaMap] and [normalMap] of the leaf generator *)
  leafGenerator : option (nat * nat * nat);
  bladeTexture : option nat
}.

(** What [dispose()] and [initParticles()] do to the page besides what the
    engine records. *)
Inductive PageEvent : Type :=
  | RemoveResizeListener
  | CancelAnimationFrame (id : Z)
  | Scene_remove_chunkGroup
  | Scene_remove_pollenMesh
  | Scene_add_pollenMesh
  | Engine_event (e : Event).

(** [dispose()] up to [this.chunks.clear()]. *)
Definition dispose_chunks (fx : Fixtures) : M unit :=
  dispose (renderer fx) ;;
  dispose (controls fx) ;;
  match sunMesh fx with
  | Some (geometry, material) => dispose geometry ;; dispose material
  | None => ret tt
  end ;;
  this <- get ;;
  forEach (chunks this) unloadEntry ;;
  modify (set_chunks []).

(** [dispose()] from [if (this.grassMaterial)] on. *)
Definition dispose_resources (fx : Fixtures) : M unit :=
  this <- get ;;
  dispose_if (option_map material_id (grassMaterial this)) ;;
  dispose_if (option_map material_id (groundMaterial this)) ;;
  dispose_if (treeTrunkGeo this) ;;
  dispose_if (treeFoliageGeo this) ;;
  dispose_if (option_map material_id (treeTrunkMat this)) ;;
  dispose_if (option_map material_id (treeFoliageMat this)) ;;
  match leafGenerator fx with
  | Some (albedoMap, alphaMap, normalMap) =>
      dispose albedoMap ;; dispose alphaMap ;; dispose normalMap
  | None => ret tt
  end ;;
  forEach (lodGeometries this) dispose ;;
  dispose_if (bladeTexture fx).

(** The public method [dispose()]: a frame identifier of 0 is falsy. *)
Definition GrassEngine_dispose (fx : Fixtures) (s : Engine) : Engine * list PageEvent :=
  let s1 := run_state (dispose_chunks fx) s in
  let s2 := run_state (dispose_resources fx) s1 in
  (s2,
   [RemoveResizeListener]
   ++ match frameId fx with
      | Some id => if (id =? 0)%Z then [] else [CancelAnimationFrame id]
      | None => []
      end
   ++ map Engine_event (run_events (dispose_chunks fx) s)
   ++ [Scene_remove_chunkGroup]
   ++ match pollenMesh fx with
      | Some geometry =>
          Scene_remove_pollenMesh :: Engine_event (Dispose geometry) ::
          match pollenMaterial fx with
          | Some material => [Engine_event (Dispose material)]
          | None => []
          end
      | None => []
      end
   ++ map Engine_event (run_events (dispose_resources fx) s1)).

(** The objects of [fx] that [dispose()] is to release. *)
Definition fixture_objects (fx : Fixtures) : list nat :=
  [renderer fx; controls fx]
  ++ match sunMesh fx with Some (g, m) => [g; m] | None => [] end
  ++ match pollenMesh fx with
     | Some g => g :: opt_list (pollenMaterial fx)
     | None => []
     end
  ++ match leafGenerator fx with Some (a, b, c) => [a; b; c] | None => [] end
  ++ opt_list (bladeTexture fx).

Definition sampleFixtures : Fixtures :=
  {| frameId := Some 7%Z; renderer := 100; controls := 101;
     sunMesh := Some (102, 103)%nat; pollenMesh := Some 104%nat;
     pollenMaterial := Some 105%nat; leafGenerator := Some (106, 107, 108)%nat;
     bladeTexture := Some 109%nat |}.

(** *** The size of the store and what unloading disposes of *)

(** The number of values the loop of [updateChunks] takes on one axis. *)
Definition axis_cells (cfg : GrassConfig) : nat :=
  Z.to_nat (Qfloor (2 * BASE_MAX_DISTANCE * or_default (lodBias cfg) 1 / CHUNK_SIZE) + 1).

(** The objects [unloadChunk] disposes of for [c] are younger than every
    shared object, except the geometry of a grass mesh of no instances. *)
Definition spares_shared (s : Engine) (c : ChunkData) : Prop :=
  (forall sh, In sh (shared_objects s) -> (sh < mesh_geometry (ground c))%nat) /\
  (instanceof_MeshBasicMaterial (mesh_material (ground c)) = true ->
   forall sh, In sh (shared_objects s) ->
              (sh < material_id (mesh_material (ground c)))%nat) /\
  ((0 < imesh_count (grass c))%Z ->
   forall sh, In sh (shared_objects s) -> (sh < imesh_geometry (grass c))%nat) /\
  (imesh_count (grass c) = 0 \/ 0 < imesh_count (grass c))%Z.

(** The shared resources stay and, from a sound state, every chunk that was
    not in the store before spares them. *)
Definition owned_kept (s s' : Engine) : Prop :=
  extends s s' /\
  (sound s -> forall k c, In (k, c) (chunks s') -> In (k, c) (chunks s) \/ spares_shared s c).

(** A store whose chunks all spare the shared resources. *)
Definition store_spares (s : Engine) : Prop :=
  forall k c, In (k, c) (chunks s) -> spares_shared s c.

(** *** Pollen *)

(** One entry of the [aOffset] and [aScale] attributes of the pollen mesh. *)
Record Particle : Type := { pOffset : Vector3; pScale : Q }.

Definition boxSize : Q := 80.
Definition particleCount : nat := 2000.

(** The particle loop of [initParticles]: four [Math.random()] calls per
    particle, in the order of the source. *)
Fixpoint genParticles (host : Host) (n : nat) : M (list Particle) :=
  match n with
  | O => ret []
  | S n' =>
      r1 <- random host ;;
      r2 <- random host ;;
      r3 <- random host ;;
      r4 <- random host ;;
      rest <- genParticles host n' ;;
      ret ({| pOffset := vec3 (r1 * boxSize) (r2 * boxSize * (5 # 10)) (r3 * boxSize);
              pScale := r4 * (5 # 10) + (5 # 10) |} :: rest)
  end.

(** The objects [initParticles] constructs and the attributes it fills: the
    plane geometry, the particles, the instanced geometry, the material and
    the mesh. *)
Definition buildParticles (host : Host) : M (nat * nat * list Particle) :=
  geometry <- new_object ;;
  particles <- genParticles host particleCount ;;
  instancedGeo <- new_object ;;
  material <- new_object ;;
  mesh <- new_object ;;
  ret (instancedGeo, material, particles).

(** [initParticles]: the pollen mesh of [fx], if there is one, is removed and
    disposed of, and a new one is built and added to the scene. *)
Definition initParticles (host : Host) (fx : Fixtures) (s : Engine)
  : Fixtures * list Particle * Engine * list PageEvent :=
  let removed :=
    match pollenMesh fx with
    | Some geometry =>
        Scene_remove_pollenMesh :: Engine_event (Dispose geometry) ::
        match pollenMaterial fx with
        | Some material => [Engine_event (Dispose material)]
        | None => []
        end
    | None => []
    end in
  let '(instancedGeo, material, particles) := run_value (buildParticles host) s in
  ({| frameId := frameId fx; renderer := renderer fx; controls := controls fx;
      sunMesh := sunMesh fx; pollenMesh := Some instancedGeo;
      pollenMaterial := Some material; leafGenerator := leafGenerator fx;
      bladeTexture := bladeTexture fx |},
   particles,
   run_state (buildParticles host) s,
   removed ++ map Engine_event (run_events (buildParticles host) s)
   ++ [Scene_add_pollenMesh]).

(** A particle inside the box the shader wraps it in. *)
Definition particle_in_box (q : Particle) : Prop :=
  0 <= vx (pOffset q) /\ vx (pOffset q) <= boxSize /\
  0 <= vy (pOffset q) /\ vy (pOffset q) <= boxSize * (5 # 10) /\
  0 <= vz (pOffset q) /\ vz (pOffset q) <= boxSize /\
  (5 # 10) <= pScale q /\ pScale q <= 1.

(** *** Chunk coordinates as doubles *)

(** The keys of the store are the decimal texts of the doubles [x] and [z]
    that the loops of [updateChunks] reach by adding the chunk size again and
    again, and two distinct finite doubles never print alike.  Whether two
    refreshes give a cell the same key is therefore a matter of rounding,
    which the rationals above do not show; for it the loop bounds and the
    loop are embedded once more, over binary64. *)
Module Doubles.
Import PrimFloat.
Local Open Scope float_scope.

Definition CHUNK_SIZE : float := 30.
Definition BASE_MAX_DISTANCE : float := 150.

(** [a || b] on numbers: [0] and NaN are falsy. *)
Definition or_default (a b : float) : float :=
  if (a =? 0) || negb (a =? a) then b else a.

(** [for (let x = lo; x <= hi; x += step)], the values of [x]; [None] when
    the loop has not ended after [fuel] iterations. *)
Fixpoint for_upto (fuel : nat) (x hi step : float) : option (list float) :=
  match fuel with
  | O => None
  | S fuel' =>
      if x <=? hi
      then option_map (cons x) (for_upto fuel' (x + step) hi step)
      else Some []
  end.

(** The values of [x] in the outer loop of [updateChunks]; [rounded] is the
    value of [Math.round(camX / CHUNK_SIZE)].  The inner loop computes the
    values of [z] in the same way. *)
Definition loop_values (fuel : nat) (rounded lodBias : float) : option (list float) :=
  let centerChunkX := rounded * CHUNK_SIZE in
  let bias := or_default lodBias 1 in
  let range := BASE_MAX_DISTANCE * bias in
  for_upto fuel (centerChunkX - range) (centerChunkX + range) CHUNK_SIZE.

(** No number of [a] equals one of [b]. *)
Definition disjoint (a b : list float) : bool :=
  forallb (fun x => negb (existsb (eqb x) b)) a.

End Doubles.

(** * Properties *)

(** ** Comparisons *)

Lemma Qlt_bool_iff (x y : Q) : Qlt_bool x y = true <-> x < y.
Proof.
  unfold Qlt_bool. rewrite negb_true_iff. split; intro H.
  - apply Qnot_le_lt. intro L. apply Qle_bool_iff in L. congruence.
  - destruct (Qle_bool y x) eqn:E; auto. apply Qle_bool_iff in E. lra.
Qed.

Lemma root_ltb_iff (d : root) (t : Q) : root_ltb d t = true <-> root_lt d t.
Proof.
  unfold root_ltb, root_lt.
  rewrite !andb_true_iff, Qle_bool_iff, !Qlt_bool_iff. tauto.
Qed.

Lemma root_ltb_false_iff (d : root) (t : Q) : root_ltb d t = false <-> ~ root_lt d t.
Proof. rewrite <- root_ltb_iff. symmetry. apply not_true_iff_false. Qed.

(** On non-negative rationals the comparison is the usual one. *)
Lemma root_lt_of_Q (q t : Q) : 0 <= q -> (root_lt (root_of_Q q) t <-> q < t).
Proof.
  intros Hq. unfold root_lt, root_of_Q; simpl. split.
  - intros (_ & Ht & Hlt). nra.
  - intros Hlt. repeat split; nra.
Qed.

Lemma root_lt_weaken (d : root) (t u : Q) : root_lt d t -> t <= u -> root_lt d u.
Proof. unfold root_lt. intros (H0 & Ht & Hlt) Hle. repeat split; nra. Qed.

Lemma root_lt_not_gt (d : root) (t : Q) : root_lt d t -> ~ root_gt d t.
Proof. unfold root_lt, root_gt. intros (H0 & Ht & Hlt) (_ & [H | H]); nra. Qed.

(** The symbolic comparison is the comparison of the real square root with
    the bound. *)
Module RootSemantics.
Import Reals Qreals Lra.

Lemma Q2R_zero : Q2R 0 = 0%R.
Proof. unfold Q2R; simpl; lra. Qed.

Lemma root_lt_sqrt (d : root) (t : Q) :
  0 <= radicand d ->
  (root_lt d t <-> (sqrt (Q2R (radicand d)) < Q2R t)%R).
Proof.
  intros H0. unfold root_lt.
  assert (R0 : (0 <= Q2R (radicand d))%R).
  { rewrite <- Q2R_zero. apply Qle_Rle, H0. }
  split.
  - intros (_ & Ht & Hr).
    assert (T0 : (0 < Q2R t)%R) by (rewrite <- Q2R_zero; apply Qlt_Rlt, Ht).
    apply Qlt_Rlt in Hr. rewrite Q2R_mult in Hr.
    rewrite <- (sqrt_square (Q2R t)) by lra.
    apply sqrt_lt_1_alt. split; [exact R0 | exact Hr].
  - intros Hs.
    assert (T0 : (0 < Q2R t)%R).
    { pose proof (sqrt_pos (Q2R (radicand d))). lra. }
    split; [exact H0 | split].
    + apply Rlt_Qlt. rewrite Q2R_zero. exact T0.
    + apply Rlt_Qlt. rewrite Q2R_mult.
      rewrite <- (sqrt_sqrt (Q2R (radicand d))) by exact R0.
      apply Rmult_le_0_lt_compat; try apply sqrt_pos; assumption.
Qed.

End RootSemantics.

Lemma or_default_nonzero (a : Q) : ~ or_default a 1 == 0.
Proof.
  unfold or_default. destruct (Qeq_bool a 0) eqn:E.
  - lra.
  - intro H. apply Qeq_bool_iff in H. congruence.
Qed.

(** Case analysis on a threshold test, leaving the facts as propositions. *)
Ltac case_root_ltb d t :=
  let E := fresh "E" in
  destruct (root_ltb d t) eqn:E;
  [ apply root_ltb_iff in E | apply root_ltb_false_iff in E ].

(** ** LOD assignment *)

Lemma getLODLevel_from_range (levels : list LODLevel) (i : Z) (d : root) (bias : Q) :
  getLODLevel_from levels i d bias = (-1)%Z \/
  (i <= getLODLevel_from levels i d bias < i + Z.of_nat (List.length levels))%Z.
Proof.
  revert i. induction levels as [| level rest IH]; intros i; simpl.
  - left; reflexivity.
  - destruct (root_ltb d (distance level * bias)).
    + right; lia.
    + destruct (IH (i + 1)%Z) as [H | H]; [left; exact H | right; lia].
Qed.

(** First match: index [i + n] is returned exactly when entry [n] passes the
    test and no earlier entry does. *)
Lemma getLODLevel_from_spec (levels : list LODLevel) (d : root) (bias : Q) :
  forall (i : Z) (n : nat) (level : LODLevel),
    (0 <= i)%Z ->
    nth_error levels n = Some level ->
    (getLODLevel_from levels i d bias = (i + Z.of_nat n)%Z <->
     root_lt d (distance level * bias) /\
     forall j level', (j < n)%nat -> nth_error levels j = Some level' ->
                      ~ root_lt d (distance level' * bias)).
Proof.
  induction levels as [| hd rest IH]; intros i n level Hi Hn.
  - destruct n; discriminate.
  - simpl. destruct n as [| n]; simpl in Hn.
    + injection Hn as ->.
      case_root_ltb d (distance level * bias).
      * split; [| intros; lia]. intros _. split; [exact E | intros j l' Hj; lia].
      * split.
        -- intros H. destruct (getLODLevel_from_range rest (i + 1) d bias); lia.
        -- intros [H _]. contradiction.
    + case_root_ltb d (distance hd * bias).
      * split; [intros; lia |].
        intros [_ H]. exfalso. apply (H 0%nat hd); [lia | reflexivity | exact E].
      * specialize (IH (i + 1)%Z n level ltac:(lia) Hn).
        replace (i + Z.of_nat (S n))%Z with (i + 1 + Z.of_nat n)%Z by lia.
        rewrite IH. split; intros [H1 H2]; split; auto.
        -- intros [| j] l' Hj Hl'; simpl in Hl'.
           ++ injection Hl' as <-. exact E.
           ++ apply (H2 j l'); [lia | exact Hl'].
        -- intros j l' Hj Hl'. apply (H2 (S j) l'); [lia | exact Hl'].
Qed.

Lemma getLODLevel_from_monotone (levels : list LODLevel) (d1 d2 : root) (bias : Q) :
  root_lt_root d1 d2 ->
  forall i : Z,
    (0 <= i)%Z ->
    (i <= getLODLevel_from levels i d2 bias)%Z ->
    (i <= getLODLevel_from levels i d1 bias <= getLODLevel_from levels i d2 bias)%Z.
Proof.
  intros [H0 Hlt]. induction levels as [| hd rest IH]; intros i Hi; simpl.
  - lia.
  - case_root_ltb d2 (distance hd * bias).
    + assert (H1 : root_ltb d1 (distance hd * bias) = true).
      { apply root_ltb_iff. destruct E as (_ & Ht & Hr).
        split; [exact H0 | split; [exact Ht | eapply Qlt_trans; eassumption]]. }
      rewrite H1. lia.
    + intros Hfound.
      assert (Hn : (i + 1 <= getLODLevel_from rest (i + 1) d2 bias)%Z)
        by (destruct (getLODLevel_from_range rest (i + 1) d2 bias); lia).
      destruct (root_ltb d1 (distance hd * bias)).
      * lia.
      * specialize (IH (i + 1)%Z ltac:(lia) Hn). lia.
Qed.

Lemma getLODLevel_range (cfg : GrassConfig) (d : root) :
  getLODLevel cfg d = (-1)%Z \/ (0 <= getLODLevel cfg d < 3)%Z.
Proof.
  unfold getLODLevel.
  destruct (getLODLevel_from_range LOD_LEVELS 0 d (or_default (lodBias cfg) 1)) as [H | H].
  - left; exact H.
  - right. change (Z.of_nat (List.length LOD_LEVELS)) with 3%Z in H. lia.
Qed.

(** A level is assigned only strictly inside the last threshold. *)
Lemma getLODLevel_within (cfg : GrassConfig) (d : root) :
  getLODLevel cfg d <> (-1)%Z ->
  root_lt d (BASE_MAX_DISTANCE * or_default (lodBias cfg) 1).
Proof.
  unfold getLODLevel, BASE_MAX_DISTANCE. simpl.
  set (bias := or_default (lodBias cfg) 1).
  case_root_ltb d (45 * bias).
  { intros _. destruct E as (H0 & Ht & Hr). repeat split; nra. }
  case_root_ltb d (85 * bias).
  { intros _. destruct E0 as (H0 & Ht & Hr). repeat split; nra. }
  case_root_ltb d (150 * bias).
  { intros _. exact E1. }
  intros H. contradiction.
Qed.

(** C5, as stated, fails for [lodBias = 0]: the multiplier is then [1], so a
    distance of 10 is assigned level 0 although it is not below [45 * 0]. *)
Lemma band_rule_with_lodBias_fails :
  ~ band_rule_with_lodBias (set_lodBias 0 goldenFields) (root_of_Q 10) 0.
Proof.
  intros H.
  specialize (H _ eq_refl eq_refl).
  destruct H as (_ & Ht & _). vm_compute in Ht. discriminate.
Qed.

(** C5 (amended): with [bias] the multiplier the function uses ([lodBias], or
    [1] when [lodBias] is [0]), level [i] is returned exactly when the
    distance is strictly below the [i]-th threshold times [bias] and not
    below any earlier one; a distance equal to a threshold times [bias] falls
    to the next level, or to none (-1) after the last; and a distance not
    strictly below the last threshold times [bias] gets none (-1). *)
Theorem getLODLevel_bands (cfg : GrassConfig) (d : root) :
  let bias := or_default (lodBias cfg) 1 in
  (forall i level,
      nth_error LOD_LEVELS i = Some level ->
      (getLODLevel cfg d = Z.of_nat i <->
       root_lt d (distance level * bias) /\
       forall j level', (j < i)%nat -> nth_error LOD_LEVELS j = Some level' ->
                        ~ root_lt d (distance level' * bias)))
  /\ (forall i level,
      nth_error LOD_LEVELS i = Some level ->
      root_eq d (distance level * bias) ->
      getLODLevel cfg d =
        if (S i <? List.length LOD_LEVELS)%nat then Z.of_nat (S i) else (-1)%Z)
  /\ (~ root_lt d (BASE_MAX_DISTANCE * bias) -> getLODLevel cfg d = (-1)%Z).
Proof.
  intros bias. split; [| split].
  - intros i level Hn. unfold getLODLevel. fold bias.
    apply (getLODLevel_from_spec LOD_LEVELS d bias 0%Z i level); [lia | exact Hn].
  - intros i level Hn [Ht Hr].
    assert (Hb : ~ bias == 0) by apply or_default_nonzero.
    unfold getLODLevel. fold bias.
    destruct i as [| [| [| i]]]; simpl in Hn;
      try (destruct i; discriminate); injection Hn as <-;
      simpl in Ht, Hr; simpl;
      repeat match goal with
      | |- context [root_ltb d ?t] => case_root_ltb d t
      end;
      unfold root_lt in *; try reflexivity; exfalso; nra.
  - intros H. destruct (Z.eq_dec (getLODLevel cfg d) (-1)) as [E | E]; [exact E |].
    exfalso. apply H. apply getLODLevel_within. exact E.
Qed.

(** A distance of exactly 45 under the default bias falls to level 1, and 10
    is in band 0. *)
Lemma getLODLevel_bands_witness :
  getLODLevel goldenFields (root_of_Q 45) = 1%Z /\
  getLODLevel goldenFields (root_of_Q 10) = 0%Z.
Proof.
  destruct (getLODLevel_bands goldenFields (root_of_Q 45)) as (_ & Htie & _).
  destruct (getLODLevel_bands goldenFields (root_of_Q 10)) as (Hband & _ & _).
  split.
  - apply (Htie 0%nat _ eq_refl). split; vm_compute; [discriminate | reflexivity].
  - apply (Hband 0%nat _ eq_refl). split.
    + repeat split; vm_compute; first [reflexivity | discriminate].
    + intros j level' Hj. lia.
Defined.

(** C6: for two distances [d1 < d2] that both get a level under the same
    configuration, the level of [d1] is at most the level of [d2]. *)
Theorem getLODLevel_monotone (cfg : GrassConfig) (d1 d2 : root) :
  root_lt_root d1 d2 ->
  (0 <= getLODLevel cfg d1)%Z ->
  (0 <= getLODLevel cfg d2)%Z ->
  (getLODLevel cfg d1 <= getLODLevel cfg d2)%Z.
Proof.
  intros Hlt _ H2. unfold getLODLevel in *.
  apply (getLODLevel_from_monotone LOD_LEVELS d1 d2 _ Hlt 0%Z); [lia | exact H2].
Qed.

Lemma getLODLevel_monotone_witness :
  (getLODLevel goldenFields (root_of_Q 10) <= getLODLevel goldenFields (root_of_Q 60))%Z.
Proof.
  apply (getLODLevel_monotone goldenFields (root_of_Q 10) (root_of_Q 60)).
  - split; vm_compute; [discriminate | reflexivity].
  - vm_compute; discriminate.
  - vm_compute; discriminate.
Defined.

(** ** Keys and maps *)

Lemma Q_eqb_eq (a b : Q) : Q_eqb a b = true <-> a = b.
Proof.
  destruct a as [n d], b as [n' d']. unfold Q_eqb; simpl.
  rewrite andb_true_iff, Z.eqb_eq, Pos.eqb_eq. split.
  - intros [-> ->]. reflexivity.
  - intros H. injection H. auto.
Qed.

Lemma key_eqb_eq (a b : Key) : key_eqb a b = true <-> a = b.
Proof.
  destruct a as [a1 a2], b as [b1 b2]. unfold key_eqb; simpl.
  rewrite andb_true_iff, !Q_eqb_eq. split.
  - intros [-> ->]. reflexivity.
  - intros H. injection H. auto.
Qed.

Lemma key_eqb_refl (k : Key) : key_eqb k k = true.
Proof. apply key_eqb_eq. reflexivity. Qed.

Lemma key_eqb_neq (a b : Key) : key_eqb a b = false <-> a <> b.
Proof.
  rewrite <- key_eqb_eq. destruct (key_eqb a b); split; congruence.
Qed.

Section MapFacts.
Context {V : Type}.
Implicit Types (m : list (Key * V)) (k : Key) (v : V).

Lemma map_get_In m k v : map_get m k = Some v -> In (k, v) m.
Proof.
  induction m as [| [k' v'] rest IH]; simpl; [discriminate |].
  destruct (key_eqb k k') eqn:E.
  - apply key_eqb_eq in E. subst k'. intros H. injection H as ->. left; reflexivity.
  - intros H. right. apply IH, H.
Qed.

Lemma In_map_has m k v : In (k, v) m -> map_has m k = true.
Proof.
  unfold map_has. induction m as [| [k' v'] rest IH]; simpl; [tauto |].
  intros [H | H].
  - injection H as -> ->. rewrite key_eqb_refl. reflexivity.
  - destruct (key_eqb k k'); [reflexivity | apply IH, H].
Qed.

Lemma map_has_In m k : map_has m k = true -> exists v, In (k, v) m.
Proof.
  unfold map_has. destruct (map_get m k) as [v |] eqn:E; [| discriminate].
  intros _. exists v. apply map_get_In, E.
Qed.

Lemma In_map_delete m k0 k v :
  In (k, v) (map_delete m k0) -> In (k, v) m /\ k <> k0.
Proof.
  induction m as [| [k' v'] rest IH]; simpl; [tauto |].
  destruct (key_eqb k0 k') eqn:E.
  - intros H. destruct (IH H). tauto.
  - intros [H | H].
    + injection H as -> ->. apply key_eqb_neq in E. split; [left; reflexivity | congruence].
    + destruct (IH H). tauto.
Qed.

Lemma In_map_set m k0 v0 k v :
  In (k, v) (map_set m k0 v0) -> (k = k0 /\ v = v0) \/ In (k, v) m.
Proof.
  induction m as [| [k' v'] rest IH]; simpl.
  - intros [H | []]. injection H as -> ->. left; split; reflexivity.
  - destruct (key_eqb k0 k') eqn:E.
    + apply key_eqb_eq in E. subst k'. intros [H | H].
      * injection H as -> ->. left; split; reflexivity.
      * right; right; exact H.
    + intros [H | H].
      * right; left; exact H.
      * destruct (IH H); [left | right; right]; assumption.
Qed.

Lemma map_get_map_set_same m k v : map_get (map_set m k v) k = Some v.
Proof.
  induction m as [| [k' v'] rest IH]; simpl.
  - rewrite key_eqb_refl. reflexivity.
  - destruct (key_eqb k k') eqn:E; simpl; rewrite E; [reflexivity | exact IH].
Qed.

Lemma map_get_map_set_other m k0 v0 k :
  k <> k0 -> map_get (map_set m k0 v0) k = map_get m k.
Proof.
  intros Hne. induction m as [| [k' v'] rest IH]; simpl.
  - apply key_eqb_neq in Hne. rewrite Hne. reflexivity.
  - destruct (key_eqb k0 k') eqn:E; simpl.
    + apply key_eqb_eq in E. subst k'.
      apply key_eqb_neq in Hne. rewrite Hne. reflexivity.
    + destruct (key_eqb k k'); [reflexivity | exact IH].
Qed.

Lemma map_get_map_delete_same m k : map_get (map_delete m k) k = None.
Proof.
  induction m as [| [k' v'] rest IH]; simpl; [reflexivity |].
  destruct (key_eqb k k') eqn:E; simpl; [exact IH | rewrite E; exact IH].
Qed.
End MapFacts.

(** ** Running methods *)

Lemma run_state_bind {A B : Type} (m : M A) (f : A -> M B) (s : Engine) :
  run_state (bind m f) s = run_state (f (run_value m s)) (run_state m s).
Proof.
  unfold run_state, run_value, bind.
  destruct (m s) as [[a s1] e1]; simpl. destruct (f a s1) as [[b s2] e2]. reflexivity.
Qed.

Lemma run_events_bind {A B : Type} (m : M A) (f : A -> M B) (s : Engine) :
  run_events (bind m f) s =
  run_events m s ++ run_events (f (run_value m s)) (run_state m s).
Proof.
  unfold run_events, run_state, run_value, bind.
  destruct (m s) as [[a s1] e1]; simpl. destruct (f a s1) as [[b s2] e2]. reflexivity.
Qed.

Lemma run_value_bind {A B : Type} (m : M A) (f : A -> M B) (s : Engine) :
  run_value (bind m f) s = run_value (f (run_value m s)) (run_state m s).
Proof.
  unfold run_state, run_value, bind.
  destruct (m s) as [[a s1] e1]; simpl. destruct (f a s1) as [[b s2] e2]. reflexivity.
Qed.

Section Keeps.
Variable R : Engine -> Engine -> Prop.
Hypothesis R_refl : forall s, R s s.
Hypothesis R_trans : forall a b c, R a b -> R b c -> R a c.

Lemma keeps_ret {A : Type} (a : A) : keeps R (ret a).
Proof. intros s. apply R_refl. Qed.

Lemma keeps_get : keeps R get.
Proof. intros s. apply R_refl. Qed.

Lemma keeps_emit (e : Event) : keeps R (emit e).
Proof. intros s. apply R_refl. Qed.

Lemma keeps_bind {A B : Type} (m : M A) (f : A -> M B) :
  keeps R m -> (forall a, keeps R (f a)) -> keeps R (bind m f).
Proof.
  intros Hm Hf s. rewrite run_state_bind.
  eapply R_trans; [apply Hm | apply Hf].
Qed.

Lemma keeps_forEach {A : Type} (l : list A) (f : A -> M unit) :
  (forall a, In a l -> keeps R (f a)) -> keeps R (forEach l f).
Proof.
  induction l as [| a rest IH]; intros Hf; simpl.
  - apply keeps_ret.
  - apply keeps_bind.
    + apply Hf. left; reflexivity.
    + intros _. apply IH. intros b Hb. apply Hf. right; exact Hb.
Qed.

Lemma keeps_modify (f : Engine -> Engine) :
  (forall s, R s (f s)) -> keeps R (modify f).
Proof. intros H s. apply H. Qed.
End Keeps.

Lemma quiet_ret {A : Type} (a : A) : quiet (ret a).
Proof. intros s. reflexivity. Qed.

Lemma quiet_bind {A B : Type} (m : M A) (f : A -> M B) :
  quiet m -> (forall a, quiet (f a)) -> quiet (bind m f).
Proof. intros Hm Hf s. rewrite run_events_bind, Hm, Hf. reflexivity. Qed.

Lemma same_fixed_refl (s : Engine) : same_fixed s s.
Proof. unfold same_fixed. tauto. Qed.

Lemma same_fixed_trans (a b c : Engine) :
  same_fixed a b -> same_fixed b c -> same_fixed a c.
Proof.
  unfold same_fixed. intros H1 H2.
  decompose [and] H1. decompose [and] H2. repeat split; congruence.
Qed.

Lemma fewer_chunks_refl (s : Engine) : fewer_chunks s s.
Proof. unfold fewer_chunks. auto. Qed.

Lemma fewer_chunks_trans (a b c : Engine) :
  fewer_chunks a b -> fewer_chunks b c -> fewer_chunks a c.
Proof. unfold fewer_chunks. auto. Qed.

Lemma same_chunks_refl (s : Engine) : same_chunks s s.
Proof. reflexivity. Qed.

Lemma same_chunks_trans (a b c : Engine) :
  same_chunks a b -> same_chunks b c -> same_chunks a c.
Proof. unfold same_chunks. congruence. Qed.

(** Decomposition of a [keeps] goal along the structure of the method. *)
Ltac keeps_steps refl trans :=
  repeat first
    [ apply (keeps_ret _ refl)
    | apply (keeps_get _ refl)
    | apply (keeps_emit _ refl)
    | apply (keeps_bind _ trans); [| intros ?]
    | match goal with
      | |- keeps _ (if ?b then _ else _) => destruct b
      | |- keeps _ (match ?x with _ => _ end) => destruct x
      end ].

Ltac keeps_field :=
  let s := fresh "s" in
  intros s;
  unfold same_fixed, same_chunks, run_state, modify, new_object, random; simpl;
  repeat split; reflexivity.

Ltac quiet_steps :=
  repeat first
    [ apply quiet_ret
    | apply quiet_bind; [| intros ?]
    | match goal with
      | |- quiet (if ?b then _ else _) => destruct b
      | |- quiet (match ?x with _ => _ end) => destruct x
      end
    | (intros ?; reflexivity) ].

(** ** The blocks of [loadChunk] *)

Lemma genBlades_fixed (host : Host) (n : nat) (x z : Q) :
  keeps same_fixed (genBlades host n x z).
Proof.
  induction n as [| n IH]; simpl; unfold randomRange;
    keeps_steps same_fixed_refl same_fixed_trans; try exact IH; keeps_field.
Qed.

Lemma genBlades_chunks (host : Host) (n : nat) (x z : Q) :
  keeps same_chunks (genBlades host n x z).
Proof.
  induction n as [| n IH]; simpl; unfold randomRange;
    keeps_steps same_chunks_refl same_chunks_trans; try exact IH; keeps_field.
Qed.

Lemma genBlades_quiet (host : Host) (n : nat) (x z : Q) :
  quiet (genBlades host n x z).
Proof.
  induction n as [| n IH]; simpl; unfold randomRange; quiet_steps; exact IH.
Qed.

Lemma buildGround_fixed (this : Engine) (x z : Q) (groundMat : Material) :
  keeps same_fixed (buildGround this x z groundMat).
Proof.
  unfold buildGround, chunkGroup_add.
  keeps_steps same_fixed_refl same_fixed_trans; keeps_field.
Qed.

Lemma buildGround_chunks (this : Engine) (x z : Q) (groundMat : Material) :
  keeps same_chunks (buildGround this x z groundMat).
Proof.
  unfold buildGround, chunkGroup_add.
  keeps_steps same_chunks_refl same_chunks_trans; keeps_field.
Qed.

Lemma buildGround_quiet (this : Engine) (x z : Q) (groundMat : Material) :
  quiet (buildGround this x z groundMat).
Proof. unfold buildGround, chunkGroup_add. quiet_steps. Qed.

Lemma buildTrees_fixed (host : Host) (this : Engine) (x z : Q) (lodIndex : Z) :
  keeps same_fixed (buildTrees host this x z lodIndex).
Proof.
  unfold buildTrees, chunkGroup_add.
  keeps_steps same_fixed_refl same_fixed_trans; keeps_field.
Qed.

Lemma buildTrees_chunks (host : Host) (this : Engine) (x z : Q) (lodIndex : Z) :
  keeps same_chunks (buildTrees host this x z lodIndex).
Proof.
  unfold buildTrees, chunkGroup_add.
  keeps_steps same_chunks_refl same_chunks_trans; keeps_field.
Qed.

Lemma buildTrees_quiet (host : Host) (this : Engine) (x z : Q) (lodIndex : Z) :
  quiet (buildTrees host this x z lodIndex).
Proof. unfold buildTrees, chunkGroup_add. quiet_steps. Qed.

Lemma buildGrass_fixed (host : Host) (this : Engine) (x z : Q) (lodIndex : Z)
    (lodSettings : LODLevel) (geometry : nat) (grassMat : Material) :
  keeps same_fixed (buildGrass host this x z lodIndex lodSettings geometry grassMat).
Proof.
  unfold buildGrass, chunkGroup_add.
  keeps_steps same_fixed_refl same_fixed_trans;
    try apply genBlades_fixed; keeps_field.
Qed.

Lemma buildGrass_chunks (host : Host) (this : Engine) (x z : Q) (lodIndex : Z)
    (lodSettings : LODLevel) (geometry : nat) (grassMat : Material) :
  keeps same_chunks (buildGrass host this x z lodIndex lodSettings geometry grassMat).
Proof.
  unfold buildGrass, chunkGroup_add.
  keeps_steps same_chunks_refl same_chunks_trans;
    try apply genBlades_chunks; keeps_field.
Qed.

Lemma buildGrass_quiet (host : Host) (this : Engine) (x z : Q) (lodIndex : Z)
    (lodSettings : LODLevel) (geometry : nat) (grassMat : Material) :
  quiet (buildGrass host this x z lodIndex lodSettings geometry grassMat).
Proof.
  unfold buildGrass, chunkGroup_add. quiet_steps. apply genBlades_quiet.
Qed.

(** ** [unloadChunk] *)

Ltac run_unloadChunk :=
  unfold unloadChunk, bind, emit, get, dispose, chunkGroup_remove, when, modify, ret,
    run_state, run_events; simpl.

Lemma unloadChunk_chunks (key : Key) (s : Engine) :
  chunks (run_state (unloadChunk key) s) =
  if map_has (chunks s) key then map_delete (chunks s) key else chunks s.
Proof.
  unfold map_has. run_unloadChunk.
  destruct (map_get (chunks s) key) as [chunk |]; simpl; [| reflexivity].
  destruct (instanceof_MeshBasicMaterial (mesh_material (ground chunk)));
    destruct (trees chunk); reflexivity.
Qed.

Lemma unloadChunk_fixed (key : Key) : keeps same_fixed (unloadChunk key).
Proof.
  intros s. unfold same_fixed. run_unloadChunk.
  destruct (map_get (chunks s) key) as [chunk |]; simpl; [| tauto].
  destruct (instanceof_MeshBasicMaterial (mesh_material (ground chunk)));
    destruct (trees chunk); simpl; tauto.
Qed.

Lemma unloadChunk_fewer (key : Key) : keeps fewer_chunks (unloadChunk key).
Proof.
  intros s k c. rewrite unloadChunk_chunks.
  destruct (map_has (chunks s) key); [| auto].
  intros H. apply In_map_delete in H. tauto.
Qed.

Lemma unloadChunk_removes (key : Key) (s : Engine) (c : ChunkData) :
  ~ In (key, c) (chunks (run_state (unloadChunk key) s)).
Proof.
  rewrite unloadChunk_chunks. destruct (map_has (chunks s) key) eqn:E.
  - intros H. apply In_map_delete in H. tauto.
  - intros H. apply In_map_has in H. congruence.
Qed.

Lemma unloadChunk_events (key : Key) (s : Engine) :
  run_events (unloadChunk key) s =
  Call_unloadChunk key :: map Dispose (unloadChunk_disposals s key).
Proof.
  unfold unloadChunk_disposals. run_unloadChunk.
  destruct (map_get (chunks s) key) as [chunk |]; simpl; [| reflexivity].
  destruct (instanceof_MeshBasicMaterial (mesh_material (ground chunk)));
    destruct (trees chunk); reflexivity.
Qed.

(** ** [loadChunk] *)

Lemma loadChunk_fixed (host : Host) (x z : Q) (lodIndex : Z) :
  keeps same_fixed (loadChunk host x z lodIndex).
Proof.
  unfold loadChunk.
  keeps_steps same_fixed_refl same_fixed_trans;
    first [ apply buildGround_fixed | apply buildTrees_fixed
          | apply buildGrass_fixed | keeps_field ].
Qed.

Lemma loadChunk_events (host : Host) (x z : Q) (lodIndex : Z) (s : Engine) :
  run_events (loadChunk host x z lodIndex) s = [Call_loadChunk x z lodIndex].
Proof.
  unfold loadChunk. rewrite run_events_bind.
  assert (Q0 : forall this, quiet (
    if (lodIndex <? 0)%Z || (lodIndex >=? Z.of_nat (List.length LOD_LEVELS))%Z then ret tt
    else
      match nth_error (lodGeometries this) (Z.to_nat lodIndex),
            nth_error LOD_LEVELS (Z.to_nat lodIndex),
            grassMaterial this, groundMaterial this with
      | Some geometry, Some lodSettings, Some grassMat, Some groundMat =>
          groundMesh <- buildGround this x z groundMat ;;
          treeStore <- buildTrees host this x z lodIndex ;;
          grassMesh <- buildGrass host this x z lodIndex lodSettings geometry grassMat ;;
          modify (fun s =>
            set_chunks (map_set (chunks s) (getChunkKey x z)
              {| grass := grassMesh; ground := groundMesh;
                 trees := treeStore; lodLevel := lodIndex |}) s)
      | _, _, _, _ => ret tt
      end)).
  { intros this. quiet_steps;
      first [ apply buildGround_quiet | apply buildTrees_quiet | apply buildGrass_quiet ]. }
  rewrite run_events_bind. rewrite (Q0 _). reflexivity.
Qed.

(** What [loadChunk] stores: nothing when a guard returns early, otherwise
    one entry under the key of the cell, carrying the requested level. *)
Lemma loadChunk_chunks (host : Host) (x z : Q) (lodIndex : Z) (s : Engine) :
  chunks (run_state (loadChunk host x z lodIndex) s) = chunks s \/
  exists c,
    chunks (run_state (loadChunk host x z lodIndex) s)
      = map_set (chunks s) (getChunkKey x z) c /\
    lodLevel c = lodIndex.
Proof.
  unfold loadChunk. rewrite run_state_bind.
  change (run_state (emit (Call_loadChunk x z lodIndex)) s) with s.
  rewrite run_state_bind.
  change (run_value get s) with s. change (run_state get s) with s.
  destruct ((lodIndex <? 0)%Z || (lodIndex >=? Z.of_nat (List.length LOD_LEVELS))%Z);
    [left; reflexivity |].
  destruct (nth_error (lodGeometries s) (Z.to_nat lodIndex)) as [geometry |];
    [| left; reflexivity].
  destruct (nth_error LOD_LEVELS (Z.to_nat lodIndex)) as [lodSettings |];
    [| left; reflexivity].
  destruct (grassMaterial s) as [grassMat |]; [| left; reflexivity].
  destruct (groundMaterial s) as [groundMat |]; [| left; reflexivity].
  right. rewrite !run_state_bind.
  eexists. split.
  - unfold modify at 1. unfold run_state at 1. simpl.
    rewrite (buildGrass_chunks _ _ _ _ _ _ _ _ _).
    rewrite (buildTrees_chunks _ _ _ _ _ _).
    rewrite (buildGround_chunks _ _ _ _ _).
    reflexivity.
  - reflexivity.
Qed.

(** ** The counting loop *)

Lemma for_upto_In (fuel : nat) (hi step : Q) :
  forall (x v : Q),
    In v (for_upto fuel x hi step) ->
    exists n : nat, v == x + inject_Z (Z.of_nat n) * step.
Proof.
  induction fuel as [| fuel IH]; intros x v; simpl; [tauto |].
  destruct (Qle_bool x hi); [| intros []].
  intros [<- | H].
  - exists 0%nat. change (inject_Z (Z.of_nat 0)) with 0. lra.
  - destruct (IH _ _ H) as [n Hn]. exists (S n).
    rewrite Hn, Nat2Z.inj_succ. unfold Z.succ. rewrite inject_Z_plus.
    change (inject_Z 1) with 1. lra.
Qed.

Lemma Qfloor_pred_lt (q : Q) : (Qfloor (q - 1) < Qfloor q)%Z.
Proof.
  rewrite Zlt_Qlt.
  pose proof (Qfloor_le (q - 1)) as H. pose proof (Qlt_floor q) as H0.
  rewrite inject_Z_plus in H0. change (inject_Z 1) with 1 in H0. lra.
Qed.

Lemma for_upto_fuel_enough (hi step : Q) :
  0 < step ->
  forall (fuel : nat) (x : Q) (extra : nat),
    (Qfloor ((hi - x) / step) + 1 <= Z.of_nat fuel)%Z ->
    for_upto (fuel + extra) x hi step = for_upto fuel x hi step.
Proof.
  intros Hstep. induction fuel as [| fuel IH]; intros x extra Hb.
  - simpl. destruct extra; [reflexivity |]. simpl.
    destruct (Qle_bool x hi) eqn:E; [| reflexivity].
    exfalso. apply Qle_bool_iff in E.
    pose proof (Qlt_floor ((hi - x) / step)) as Hf.
    assert (Hz : inject_Z (Qfloor ((hi - x) / step) + 1) <= 0).
    { rewrite <- (Zle_Qle _ 0). exact Hb. }
    assert (Hq : (hi - x) / step < 0) by lra.
    assert (Hm : (hi - x) / step * step == hi - x) by (field; lra).
    nra.
  - simpl. destruct (Qle_bool x hi) eqn:E; [| reflexivity].
    f_equal. apply IH.
    assert (Hq : (hi - (x + step)) / step == (hi - x) / step - 1) by (field; lra).
    rewrite Hq. pose proof (Qfloor_pred_lt ((hi - x) / step)). lia.
Qed.

(** The loop stops by its own test: iterating longer than [iterations]
    visits nothing more. *)
Lemma for_range_total (lo hi step : Q) (extra : nat) :
  0 < step ->
  for_upto (iterations lo hi step + extra) lo hi step = for_range lo hi step.
Proof.
  intros Hstep. unfold for_range. apply for_upto_fuel_enough; [exact Hstep |].
  unfold iterations. lia.
Qed.

Lemma for_range_In (lo hi step v : Q) :
  In v (for_range lo hi step) ->
  exists n : nat, v == lo + inject_Z (Z.of_nat n) * step.
Proof. apply for_upto_In. Qed.

(** ** The needed set *)

Section FoldSet.
Context {A B V : Type}.
Variables (cond : A -> B -> bool) (key : A -> B -> Key) (val : A -> B -> V).

Lemma fold_inner_In (a : A) (bs : list B) :
  forall (acc : list (Key * V)) k v,
    In (k, v) (fold_left (fun acc b =>
                 if cond a b then map_set acc (key a b) (val a b) else acc) bs acc) ->
    In (k, v) acc \/
    exists b, In b bs /\ cond a b = true /\ k = key a b /\ v = val a b.
Proof.
  induction bs as [| b rest IH]; intros acc k v; simpl; [tauto |].
  intros H. apply IH in H. destruct H as [H | (b' & Hb' & H)].
  - destruct (cond a b) eqn:E; [| left; exact H].
    apply In_map_set in H. destruct H as [[-> ->] | H]; [| left; exact H].
    right. exists b. tauto.
  - right. exists b'. tauto.
Qed.

Lemma fold_outer_In (als : list A) (bs : list B) :
  forall (acc : list (Key * V)) k v,
    In (k, v) (fold_left (fun acc a =>
                 fold_left (fun acc b =>
                   if cond a b then map_set acc (key a b) (val a b) else acc) bs acc)
                 als acc) ->
    In (k, v) acc \/
    exists a b, In a als /\ In b bs /\ cond a b = true /\ k = key a b /\ v = val a b.
Proof.
  induction als as [| a rest IH]; intros acc k v; simpl; [tauto |].
  intros H. apply IH in H. destruct H as [H | (a' & b' & Ha' & H)].
  - apply fold_inner_In in H. destruct H as [H | (b & H)]; [left; exact H |].
    right. exists a, b. tauto.
  - right. exists a', b'. tauto.
Qed.
End FoldSet.

(** Every entry of the needed set is a cell of the two loops, stored under
    the key of its coordinates with the level of its distance. *)
Lemma neededChunks_entry (cfg : GrassConfig) (camX camZ : Q) (k : Key) (n : Needed) :
  In (k, n) (neededChunks cfg camX camZ) ->
  let bias := or_default (lodBias cfg) 1 in
  let range := BASE_MAX_DISTANCE * bias in
  let centerChunkX := Math_round (camX / CHUNK_SIZE) * CHUNK_SIZE in
  let centerChunkZ := Math_round (camZ / CHUNK_SIZE) * CHUNK_SIZE in
  k = getChunkKey (nx n) (nz n) /\
  lod n = getLODLevel cfg (Math_sqrt (Math_pow2 (nx n - camX) + Math_pow2 (nz n - camZ))) /\
  lod n <> (-1)%Z /\
  In (nx n) (for_range (centerChunkX - range) (centerChunkX + range) CHUNK_SIZE) /\
  In (nz n) (for_range (centerChunkZ - range) (centerChunkZ + range) CHUNK_SIZE).
Proof.
  intros H bias range centerChunkX centerChunkZ. unfold neededChunks in H.
  apply (fold_outer_In
           (fun x z => negb (getLODLevel cfg
              (Math_sqrt (Math_pow2 (x - camX) + Math_pow2 (z - camZ))) =? -1)%Z)
           (fun x z => getChunkKey x z)
           (fun x z => {| nx := x; nz := z;
                          lod := getLODLevel cfg
                            (Math_sqrt (Math_pow2 (x - camX) + Math_pow2 (z - camZ))) |}))
    in H.
  destruct H as [[] | (x & z & Hx & Hz & Hc & -> & ->)]. simpl.
  apply negb_true_iff, Z.eqb_neq in Hc. tauto.
Qed.

(** ** The two loops of [updateChunks] *)

Lemma unloadStale_fixed (needed : list (Key * Needed)) (e : Key * ChunkData) :
  keeps same_fixed (unloadStale needed e).
Proof.
  destruct e as [key currentData]. unfold unloadStale.
  destruct (map_get needed key) as [n |]; [| apply unloadChunk_fixed].
  destruct (negb (lod n =? lodLevel currentData)%Z);
    [apply unloadChunk_fixed | apply keeps_ret, same_fixed_refl].
Qed.

Lemma unloadStale_fewer (needed : list (Key * Needed)) (e : Key * ChunkData) :
  keeps fewer_chunks (unloadStale needed e).
Proof.
  destruct e as [key currentData]. unfold unloadStale.
  destruct (map_get needed key) as [n |]; [| apply unloadChunk_fewer].
  destruct (negb (lod n =? lodLevel currentData)%Z);
    [apply unloadChunk_fewer | apply keeps_ret, fewer_chunks_refl].
Qed.

(** After the first loop every chunk left in the store was there before, and
    each visited entry under its key is needed at the level it has. *)
Lemma unload_loop (needed : list (Key * Needed)) (entries : list (Key * ChunkData)) :
  forall (s : Engine) k c,
    In (k, c) (chunks (run_state (forEach entries (unloadStale needed)) s)) ->
    In (k, c) (chunks s) /\
    forall c0, In (k, c0) entries ->
               exists n, map_get needed k = Some n /\ lod n = lodLevel c0.
Proof.
  induction entries as [| [k0 c0] rest IH]; intros s k c; cbn [forEach].
  - intros H. split; [exact H | intros c0 []].
  - rewrite run_state_bind. intros H.
    apply IH in H. destruct H as [Hin Hrest].
    split; [apply (unloadStale_fewer needed (k0, c0) s), Hin |].
    intros c1 [E | Hc1]; [| apply Hrest, Hc1].
    injection E as -> ->.
    unfold unloadStale in Hin.
    destruct (map_get needed k) as [n |].
    + destruct (lod n =? lodLevel c1)%Z eqn:El; cbn [negb] in Hin.
      * exists n. split; [reflexivity | apply Z.eqb_eq, El].
      * exfalso. eapply unloadChunk_removes, Hin.
    + exfalso. eapply unloadChunk_removes, Hin.
Qed.

Lemma unload_loop_fixed (needed : list (Key * Needed)) (entries : list (Key * ChunkData)) :
  keeps same_fixed (forEach entries (unloadStale needed)).
Proof.
  apply (keeps_forEach _ same_fixed_refl same_fixed_trans).
  intros e _. apply unloadStale_fixed.
Qed.

Lemma loadMissing_fixed (host : Host) (e : Key * Needed) :
  keeps same_fixed (loadMissing host e).
Proof.
  destruct e as [key data]. unfold loadMissing.
  apply (keeps_bind _ same_fixed_trans); [apply keeps_get, same_fixed_refl |].
  intros s. destruct (negb (map_has (chunks s) key));
    [apply loadChunk_fixed | apply keeps_ret, same_fixed_refl].
Qed.

Lemma load_loop_fixed (host : Host) (needed : list (Key * Needed)) :
  keeps same_fixed (forEach needed (loadMissing host)).
Proof.
  apply (keeps_forEach _ same_fixed_refl same_fixed_trans).
  intros e _. apply loadMissing_fixed.
Qed.

Lemma loadMissing_chunks (host : Host) (k : Key) (d : Needed) (s : Engine) :
  keyed (k, d) ->
  chunks (run_state (loadMissing host (k, d)) s) = chunks s \/
  (map_has (chunks s) k = false /\
   exists c, chunks (run_state (loadMissing host (k, d)) s) = map_set (chunks s) k c /\
             lodLevel c = lod d).
Proof.
  unfold keyed; simpl. intros Hk. unfold loadMissing. rewrite run_state_bind.
  change (run_value get s) with s. change (run_state get s) with s.
  destruct (map_has (chunks s) k) eqn:E; simpl; [left; reflexivity |].
  destruct (loadChunk_chunks host (nx d) (nz d) (lod d) s) as [H | (c & H & Hl)].
  - left; exact H.
  - right. split; [reflexivity |]. exists c. rewrite Hk. split; assumption.
Qed.

(** After the second loop every chunk in the store was there before or was
    loaded for an entry of the needed set, at the level of that entry. *)
Lemma load_loop_In (host : Host) (needed : list (Key * Needed)) :
  (forall e, In e needed -> keyed e) ->
  forall (s : Engine) k c,
    In (k, c) (chunks (run_state (forEach needed (loadMissing host)) s)) ->
    In (k, c) (chunks s) \/ exists d, In (k, d) needed /\ lodLevel c = lod d.
Proof.
  induction needed as [| [k0 d0] rest IH]; intros Hwf s k c; cbn [forEach].
  - intros H. left; exact H.
  - rewrite run_state_bind. intros H.
    apply IH in H; [| intros e He; apply Hwf; right; exact He].
    destruct H as [H | (d & Hd & Hl)]; [| right; exists d; split; [right |]; assumption].
    destruct (loadMissing_chunks host k0 d0 s (Hwf _ (or_introl eq_refl)))
      as [E | (_ & c' & E & Hl)]; rewrite E in H.
    + left; exact H.
    + apply In_map_set in H. destruct H as [[-> ->] | H]; [| left; exact H].
      right. exists d0. split; [left; reflexivity | exact Hl].
Qed.

(** A chunk already in the store is never overwritten by the second loop. *)
Lemma load_loop_present (host : Host) (needed : list (Key * Needed)) :
  (forall e, In e needed -> keyed e) ->
  forall (s : Engine) k c,
    map_get (chunks s) k = Some c ->
    map_get (chunks (run_state (forEach needed (loadMissing host)) s)) k = Some c.
Proof.
  induction needed as [| [k0 d0] rest IH]; intros Hwf s k c Hget; cbn [forEach].
  - exact Hget.
  - rewrite run_state_bind. apply IH; [intros e He; apply Hwf; right; exact He |].
    destruct (loadMissing_chunks host k0 d0 s (Hwf _ (or_introl eq_refl)))
      as [E | (Habs & c' & E & _)]; rewrite E; [exact Hget |].
    rewrite map_get_map_set_other; [exact Hget |].
    intros ->. unfold map_has in Habs. rewrite Hget in Habs. discriminate.
Qed.

(** ** [updateChunks] *)

Lemma updateChunks_throttled (host : Host) (s : Engine) :
  throttled s = true -> updateChunks host s = (tt, s, []).
Proof.
  intros H. unfold updateChunks, bind, get. rewrite H. reflexivity.
Qed.

Lemma updateChunks_applied (host : Host) (s : Engine) :
  throttled s = false ->
  let s0 := set_lastUpdatePos (camera_position s) s in
  let needed := neededChunks (currentConfig s)
                  (vx (camera_position s)) (vz (camera_position s)) in
  let s1 := run_state (forEach (chunks s) (unloadStale needed)) s0 in
  run_state (updateChunks host) s = run_state (forEach needed (loadMissing host)) s1 /\
  run_events (updateChunks host) s =
    run_events (forEach (chunks s) (unloadStale needed)) s0
    ++ run_events (forEach needed (loadMissing host)) s1.
Proof.
  intros H s0 needed s1. unfold updateChunks.
  rewrite run_state_bind, run_events_bind.
  change (run_value get s) with s. change (run_state get s) with s.
  change (run_events get s) with (@nil Event).
  rewrite H.
  rewrite !run_state_bind, !run_events_bind. split; reflexivity.
Qed.

Lemma refresh_run (host : Host) (p : Vector3) (s : Engine) :
  refresh host p s = updateChunks host (set_camera_position p s).
Proof.
  unfold refresh, bind, modify.
  destruct (updateChunks host (set_camera_position p s)) as [[u s'] e]. reflexivity.
Qed.

Lemma neededChunks_keyed (cfg : GrassConfig) (camX camZ : Q) :
  forall e, In e (neededChunks cfg camX camZ) -> keyed e.
Proof.
  intros [k n] H. apply neededChunks_entry in H. unfold keyed; simpl. tauto.
Qed.

(** After an applied refresh the store holds only needed chunks, each at the
    level the needed set gives it. *)
Lemma updateChunks_store (host : Host) (s : Engine) :
  throttled s = false ->
  forall k c,
    In (k, c) (chunks (run_state (updateChunks host) s)) ->
    exists n,
      In (k, n) (neededChunks (currentConfig s)
                   (vx (camera_position s)) (vz (camera_position s))) /\
      lodLevel c = lod n.
Proof.
  intros Ht k c H.
  destruct (updateChunks_applied host s Ht) as [E _]. rewrite E in H. clear E.
  apply load_loop_In in H; [| apply neededChunks_keyed].
  destruct H as [H | (d & Hd & Hl)]; [| exists d; split; assumption].
  apply unload_loop in H. destruct H as [Hin Hall].
  destruct (Hall c Hin) as (n & Hn & Hl).
  exists n. split; [apply map_get_In, Hn | symmetry; exact Hl].
Qed.

Lemma updateChunks_fixed (host : Host) (s : Engine) :
  throttled s = false ->
  same_fixed (set_lastUpdatePos (camera_position s) s) (run_state (updateChunks host) s).
Proof.
  intros Ht. destruct (updateChunks_applied host s Ht) as [E _]. rewrite E.
  eapply same_fixed_trans; [apply unload_loop_fixed | apply load_loop_fixed].
Qed.

Lemma root_lt_compat (r r' t : Q) :
  r == r' -> root_lt (Math_sqrt r) t -> root_lt (Math_sqrt r') t.
Proof. unfold root_lt; simpl. intros E (H0 & Ht & Hr). repeat split; lra. Qed.

Lemma getChunkKey_fst (x z : Q) : fst (getChunkKey x z) == x.
Proof. apply Qred_correct. Qed.

Lemma getChunkKey_snd (x z : Q) : snd (getChunkKey x z) == z.
Proof. apply Qred_correct. Qed.

(** Every needed chunk lies strictly inside the last threshold times the
    bias in use. *)
Lemma neededChunks_within (cfg : GrassConfig) (cam : Vector3) (k : Key) (n : Needed) :
  In (k, n) (neededChunks cfg (vx cam) (vz cam)) ->
  root_lt (chunk_distance k cam) (BASE_MAX_DISTANCE * or_default (lodBias cfg) 1).
Proof.
  intros H. apply neededChunks_entry in H. destruct H as (-> & Hl & Hne & _).
  rewrite Hl in Hne. apply getLODLevel_within in Hne.
  unfold chunk_distance. eapply root_lt_compat; [| exact Hne].
  unfold Math_pow2. rewrite getChunkKey_fst, getChunkKey_snd. reflexivity.
Qed.

(** C3, as stated, fails for [lodBias = 0]: the refresh at the origin loads
    the chunk at (30, 0), whose distance 30 exceeds [150 * 0]. *)
Lemma within_lodBias_range_fails :
  ~ within_lodBias_range
      (run_state (refresh sampleHost (vec3 0 15 0))
         (constructed sampleHost (set_lodBias 0 bareFields))).
Proof.
  intros H.
  assert (E : exists c,
    map_get (chunks (run_state (refresh sampleHost (vec3 0 15 0))
                       (constructed sampleHost (set_lodBias 0 bareFields))))
            (getChunkKey 30 0) = Some c)
    by (vm_compute; eexists; reflexivity).
  destruct E as [c E]. apply map_get_In in E.
  apply (H _ _ E). split.
  - vm_compute. discriminate.
  - right. vm_compute. reflexivity.
Qed.

(** A throttled refresh leaves the store as it was, so after it a chunk can
    be beyond the last threshold even under the default bias: the chunk at
    (-120, -60), loaded with the camera at x = 14, is farther than 150 from
    the camera at x = 18.9. *)
Lemma throttled_refresh_leaves_far_chunk :
  let s1 := run_state (refresh sampleHost (vec3 14 15 0))
              (constructed sampleHost bareFields) in
  let s2 := run_state (refresh sampleHost (vec3 (189 # 10) 15 0)) s1 in
  map_has (chunks s2) (getChunkKey (-120) (-60)) = true /\
  root_gt (chunk_distance (getChunkKey (-120) (-60)) (camera_position s2))
          (BASE_MAX_DISTANCE * lodBias (currentConfig s2)).
Proof.
  split; [vm_compute; reflexivity |].
  split; [vm_compute; discriminate | right; vm_compute; reflexivity].
Qed.

(** C3 (amended): after a refresh that is applied, i.e. not suppressed by the
    movement throttle, no loaded chunk is farther from the camera than 150
    times the bias in use, which is [lodBias], or [1] when [lodBias] is 0. *)
Theorem refresh_within_range (host : Host) (s : Engine) (p : Vector3) :
  throttled (set_camera_position p s) = false ->
  forall k c,
    In (k, c) (chunks (run_state (refresh host p) s)) ->
    ~ root_gt (chunk_distance k p)
              (BASE_MAX_DISTANCE * or_default (lodBias (currentConfig s)) 1).
Proof.
  intros Ht k c H. unfold run_state in H. rewrite refresh_run in H.
  apply (updateChunks_store host _ Ht) in H. destruct H as (n & Hn & _).
  apply root_lt_not_gt.
  apply (neededChunks_within (currentConfig s) p k n). exact Hn.
Qed.

Lemma refresh_within_range_witness :
  ~ root_gt (chunk_distance (getChunkKey 30 0) (vec3 0 15 0)) (BASE_MAX_DISTANCE * 1).
Proof.
  assert (E : exists c,
    map_get (chunks (run_state (refresh sampleHost (vec3 0 15 0))
                       (constructed sampleHost bareFields)))
            (getChunkKey 30 0) = Some c)
    by (vm_compute; eexists; reflexivity).
  destruct E as [c E]. apply map_get_In in E.
  exact (refresh_within_range sampleHost (constructed sampleHost bareFields)
           (vec3 0 15 0) eq_refl _ _ E).
Defined.

(** The position remembered by a refresh: the camera position when the
    refresh is applied, the previous one when it is throttled. *)
Lemma refresh_lastUpdatePos (host : Host) (s : Engine) (p : Vector3) :
  lastUpdatePos (run_state (refresh host p) s) =
  if throttled (set_camera_position p s) then lastUpdatePos s else p.
Proof.
  unfold run_state. rewrite refresh_run.
  destruct (throttled (set_camera_position p s)) eqn:Ht.
  - rewrite updateChunks_throttled by exact Ht. reflexivity.
  - pose proof (updateChunks_fixed host _ Ht) as F. unfold same_fixed in F.
    decompose [and] F. unfold run_state in *.
    match goal with H : lastUpdatePos _ = lastUpdatePos _ |- _ => rewrite H end.
    reflexivity.
Qed.

Lemma last_applied_lastUpdatePos (host : Host) (ps : list Vector3) :
  forall (s : Engine) (last : option Vector3) (q : Vector3),
    (forall q0, last = Some q0 -> lastUpdatePos s = q0) ->
    last_applied host ps s last = Some q ->
    lastUpdatePos (refreshes host ps s) = q.
Proof.
  induction ps as [| p rest IH]; intros s last q Hinv H; simpl in *.
  - apply Hinv, H.
  - refine (IH _ _ _ _ H).
    intros q0 Hq0. rewrite refresh_lastUpdatePos.
    destruct (throttled (set_camera_position p s)).
    + apply Hinv, Hq0.
    + congruence.
Qed.

(** C4: in any run of refreshes, when the camera is strictly less than 5
    units away from the position of the last applied refresh, the next
    refresh loads nothing, unloads nothing and leaves the store as it is. *)
Theorem refresh_below_threshold_noop (host : Host) (s : Engine)
    (ps : list Vector3) (q p : Vector3) :
  last_applied host ps s None = Some q ->
  root_lt (distanceTo q p) UPDATE_THRESHOLD ->
  run_events (refresh host p) (refreshes host ps s) = [] /\
  chunks (run_state (refresh host p) (refreshes host ps s))
    = chunks (refreshes host ps s).
Proof.
  intros Hq H. set (s1 := refreshes host ps s).
  assert (Hl : lastUpdatePos s1 = q).
  { apply (last_applied_lastUpdatePos host ps s None q); [discriminate | exact Hq]. }
  apply root_ltb_iff in H.
  unfold run_events, run_state. rewrite (refresh_run host p s1).
  rewrite updateChunks_throttled; [split; reflexivity |].
  unfold throttled. simpl. rewrite Hl. exact H.
Qed.

(** Three refreshes at x = 0, 3 and 4: the first is applied, the second is
    throttled, and the third, 4 units from the first, is a no-op. *)
Lemma refresh_below_threshold_noop_witness :
  let s1 := refreshes sampleHost [vec3 0 15 0; vec3 3 15 0]
              (constructed sampleHost bareFields) in
  run_events (refresh sampleHost (vec3 4 15 0)) s1 = [] /\
  chunks (run_state (refresh sampleHost (vec3 4 15 0)) s1) = chunks s1.
Proof.
  apply (refresh_below_threshold_noop sampleHost
           (constructed sampleHost bareFields)
           [vec3 0 15 0; vec3 3 15 0] (vec3 0 15 0) (vec3 4 15 0)).
  - vm_compute. reflexivity.
  - repeat split; vm_compute; first [reflexivity | discriminate].
Defined.

(** ** The chunk grid *)

Lemma multiple_of_CHUNK_SIZE_compat (a b : Q) :
  a == b -> multiple_of_CHUNK_SIZE a -> multiple_of_CHUNK_SIZE b.
Proof. intros E [n Hn]. exists n. rewrite <- E. exact Hn. Qed.

Lemma multiple_of_CHUNK_SIZE_minus (a b : Q) :
  multiple_of_CHUNK_SIZE a -> multiple_of_CHUNK_SIZE b ->
  multiple_of_CHUNK_SIZE (a - b).
Proof.
  intros [n Hn] [m Hm]. exists (n - m)%Z.
  rewrite Hn, Hm. unfold Zminus. rewrite inject_Z_plus, inject_Z_opp. lra.
Qed.

(** A value visited by one of the loops of [updateChunks], shifted by the
    range, is a multiple of the chunk size. *)
Lemma for_range_on_grid (cam range v : Q) :
  let center := Math_round (cam / CHUNK_SIZE) * CHUNK_SIZE in
  In v (for_range (center - range) (center + range) CHUNK_SIZE) ->
  multiple_of_CHUNK_SIZE (v + range).
Proof.
  intros center H. apply for_range_In in H. destruct H as [j Hj].
  exists (Qfloor (cam / CHUNK_SIZE + (1 # 2)) + Z.of_nat j)%Z.
  rewrite Hj. unfold center, Math_round. rewrite inject_Z_plus. lra.
Qed.

(** C7: the keys are not always integer multiples of the chunk size.  With
    [lodBias = 1/2] the range is 75; the loops start at the rounded centre
    minus the range, which is not rounded, and the refresh of a fresh engine
    with the camera at the origin inserts the key (15, 15). *)
Lemma inserted_keys_on_multiples_fails :
  ~ inserted_keys_on_multiples
      (constructed sampleHost (set_lodBias (1 # 2) bareFields))
      (run_state (refresh sampleHost (vec3 0 15 0))
         (constructed sampleHost (set_lodBias (1 # 2) bareFields))).
Proof.
  intros H.
  destruct (H (getChunkKey 15 15)) as [[n Hn] _].
  - vm_compute. reflexivity.
  - vm_compute. reflexivity.
  - unfold Qeq in Hn. simpl in Hn. lia.
Qed.

(** Where the keys are instead, in exact arithmetic: on one grid of pitch 30
    anchored at minus the range [150 * bias] ([bias] is [lodBias], or [1]
    when [lodBias] is 0), so that both coordinates plus the range are integer
    multiples of 30, and the coordinates themselves are whenever the range is
    one, as it is for the default bias.  The doubles of the engine need not
    even stay on that shifted grid, see [DoubleKeys.loop_values_drift]. *)
Theorem inserted_keys_on_grid (host : Host) (s : Engine) (p : Vector3) (k : Key) :
  map_has (chunks s) k = false ->
  map_has (chunks (run_state (refresh host p) s)) k = true ->
  let range := BASE_MAX_DISTANCE * or_default (lodBias (currentConfig s)) 1 in
  multiple_of_CHUNK_SIZE (fst k + range) /\
  multiple_of_CHUNK_SIZE (snd k + range) /\
  (multiple_of_CHUNK_SIZE range ->
   multiple_of_CHUNK_SIZE (fst k) /\ multiple_of_CHUNK_SIZE (snd k)).
Proof.
  intros Hold Hnew range.
  assert (G : multiple_of_CHUNK_SIZE (fst k + range) /\
              multiple_of_CHUNK_SIZE (snd k + range)).
  { unfold run_state in Hnew. rewrite refresh_run in Hnew.
    destruct (throttled (set_camera_position p s)) eqn:Ht.
    - rewrite updateChunks_throttled in Hnew by exact Ht. simpl in Hnew. congruence.
    - apply map_has_In in Hnew. destruct Hnew as [c Hc].
      apply (updateChunks_store host _ Ht) in Hc. destruct Hc as (n & Hn & _).
      apply neededChunks_entry in Hn. destruct Hn as (-> & _ & _ & Hx & Hz).
      apply for_range_on_grid in Hx. apply for_range_on_grid in Hz.
      split.
      + eapply multiple_of_CHUNK_SIZE_compat; [| exact Hx].
        rewrite getChunkKey_fst. reflexivity.
      + eapply multiple_of_CHUNK_SIZE_compat; [| exact Hz].
        rewrite getChunkKey_snd. reflexivity. }
  destruct G as [Gx Gz]. split; [exact Gx | split; [exact Gz |]].
  intros Hr. split.
  - eapply multiple_of_CHUNK_SIZE_compat;
      [| exact (multiple_of_CHUNK_SIZE_minus _ _ Gx Hr)]. lra.
  - eapply multiple_of_CHUNK_SIZE_compat;
      [| exact (multiple_of_CHUNK_SIZE_minus _ _ Gz Hr)]. lra.
Qed.

(** Under the default bias the key (30, 0) is inserted and is on the grid of
    multiples of 30. *)
Lemma inserted_keys_on_grid_witness :
  multiple_of_CHUNK_SIZE (fst (getChunkKey 30 0)) /\
  multiple_of_CHUNK_SIZE (snd (getChunkKey 30 0)).
Proof.
  apply (inserted_keys_on_grid sampleHost (constructed sampleHost bareFields)
           (vec3 0 15 0) (getChunkKey 30 0)).
  - vm_compute. reflexivity.
  - vm_compute. reflexivity.
  - exists 5%Z. vm_compute. reflexivity.
Defined.

(** The same loops over doubles. *)
Module DoubleKeys.
Import PrimFloat.
Local Open Scope float_scope.
Local Set Warnings "-inexact-float".

(** The failing input of C7 is exact in doubles as well: with [lodBias] 0.5
    and with the 1.5 of the preset Bamboo Grove no value of the loop is a
    multiple of 30. *)
Lemma loop_values_off_multiples :
  Doubles.loop_values 32 0 0.5 = Some [-75; -45; -15; 15; 45; 75] /\
  Doubles.loop_values 32 0 1.5
    = Some [-225; -195; -165; -135; -105; -75; -45; -15;
            15; 45; 75; 105; 135; 165; 195; 225].
Proof. vm_compute. split; reflexivity. Qed.

(** With [lodBias] 0.471 the range is the double 70.64999999999999.  A
    refresh with the camera at [x = -60] and one with the camera at [x = 0]
    both visit the cells at -70.65, -40.65 and -10.65, but reach them as
    different doubles: no coordinate of one refresh is a coordinate of the
    other, so every key of the first is missing from [neededChunks] of the
    second and the whole store is unloaded and loaded again. *)
Lemma loop_values_drift :
  let at_minus_60 :=
    [-130.64999999999998; -100.64999999999998; -70.64999999999998;
     -40.64999999999998; -10.649999999999977] in
  let at_0 :=
    [-70.64999999999999; -40.64999999999999; -10.649999999999991;
     19.35000000000001; 49.35000000000001] in
  Doubles.loop_values 32 (-2) 0.471 = Some at_minus_60 /\
  Doubles.loop_values 32 0 0.471 = Some at_0 /\
  Doubles.disjoint at_minus_60 at_0 = true.
Proof. vm_compute. repeat split. Qed.

End DoubleKeys.

(** The rationals of the embedding give three of those cells the same
    coordinate in both refreshes. *)
Lemma for_range_exact_overlap :
  let range := BASE_MAX_DISTANCE * (471 # 1000) in
  map Qred (for_range (-60 - range) (-60 + range) CHUNK_SIZE)
    = [-2613 # 20; -2013 # 20; -1413 # 20; -813 # 20; -213 # 20] /\
  map Qred (for_range (0 - range) (0 + range) CHUNK_SIZE)
    = [-1413 # 20; -813 # 20; -213 # 20; 387 # 20; 987 # 20].
Proof. vm_compute. split; reflexivity. Qed.

(** ** What [loadChunk] builds *)

Lemma resources_ready_nth (s : Engine) (lodIndex : Z) :
  resources_ready s -> (0 <= lodIndex < 3)%Z ->
  exists geometry lodSettings grassMat groundMat,
    nth_error (lodGeometries s) (Z.to_nat lodIndex) = Some geometry /\
    nth_error LOD_LEVELS (Z.to_nat lodIndex) = Some lodSettings /\
    grassMaterial s = Some grassMat /\ groundMaterial s = Some groundMat.
Proof.
  intros (Hlen & Hg & Hgr & _) Hl.
  destruct (nth_error (lodGeometries s) (Z.to_nat lodIndex)) as [geometry |] eqn:E1.
  2:{ apply nth_error_None in E1. rewrite Hlen in E1. simpl in E1. lia. }
  destruct (nth_error LOD_LEVELS (Z.to_nat lodIndex)) as [lodSettings |] eqn:E2.
  2:{ apply nth_error_None in E2. simpl in E2. lia. }
  destruct (grassMaterial s) as [grassMat |]; [| congruence].
  destruct (groundMaterial s) as [groundMat |]; [| congruence].
  exists geometry, lodSettings, grassMat, groundMat. tauto.
Qed.

(** Past its guards [loadChunk] runs its three blocks in order and stores
    their results under the key of the cell. *)
Lemma loadChunk_run (host : Host) (x z : Q) (lodIndex : Z) (s : Engine)
    (geometry : nat) (lodSettings : LODLevel) (grassMat groundMat : Material) :
  (0 <= lodIndex < 3)%Z ->
  nth_error (lodGeometries s) (Z.to_nat lodIndex) = Some geometry ->
  nth_error LOD_LEVELS (Z.to_nat lodIndex) = Some lodSettings ->
  grassMaterial s = Some grassMat ->
  groundMaterial s = Some groundMat ->
  let s1 := run_state (buildGround s x z groundMat) s in
  let s2 := run_state (buildTrees host s x z lodIndex) s1 in
  let s3 := run_state (buildGrass host s x z lodIndex lodSettings geometry grassMat) s2 in
  run_state (loadChunk host x z lodIndex) s =
  set_chunks (map_set (chunks s3) (getChunkKey x z)
    {| grass := run_value (buildGrass host s x z lodIndex lodSettings geometry grassMat) s2;
       ground := run_value (buildGround s x z groundMat) s;
       trees := run_value (buildTrees host s x z lodIndex) s1;
       lodLevel := lodIndex |}) s3.
Proof.
  intros Hl E1 E2 E3 E4 s1 s2 s3. unfold loadChunk. rewrite run_state_bind.
  change (run_state (emit (Call_loadChunk x z lodIndex)) s) with s.
  rewrite run_state_bind.
  change (run_value get s) with s. change (run_state get s) with s.
  replace ((lodIndex <? 0)%Z || (lodIndex >=? Z.of_nat (List.length LOD_LEVELS))%Z)
    with false.
  2:{ symmetry. apply orb_false_iff. split; [apply Z.ltb_ge; lia |].
      rewrite Z.geb_leb. apply Z.leb_gt.
      change (Z.of_nat (List.length LOD_LEVELS)) with 3%Z. lia. }
  rewrite E1, E2, E3, E4. rewrite !run_state_bind. reflexivity.
Qed.

Lemma loadChunk_loaded (host : Host) (x z : Q) (lodIndex : Z) (s : Engine)
    (geometry : nat) (lodSettings : LODLevel) (grassMat groundMat : Material) :
  (0 <= lodIndex < 3)%Z ->
  nth_error (lodGeometries s) (Z.to_nat lodIndex) = Some geometry ->
  nth_error LOD_LEVELS (Z.to_nat lodIndex) = Some lodSettings ->
  grassMaterial s = Some grassMat ->
  groundMaterial s = Some groundMat ->
  let s1 := run_state (buildGround s x z groundMat) s in
  let s2 := run_state (buildTrees host s x z lodIndex) s1 in
  loaded host x z lodIndex s = Some
    {| grass := run_value (buildGrass host s x z lodIndex lodSettings geometry grassMat) s2;
       ground := run_value (buildGround s x z groundMat) s;
       trees := run_value (buildTrees host s x z lodIndex) s1;
       lodLevel := lodIndex |}.
Proof.
  intros Hl E1 E2 E3 E4 s1 s2. unfold loaded.
  rewrite (loadChunk_run host x z lodIndex s _ _ _ _ Hl E1 E2 E3 E4).
  cbn [chunks set_chunks]. apply map_get_map_set_same.
Qed.

(** With no blade to place the GRASS block makes an instanced mesh of zero
    instances directly over the LOD template geometry. *)
Lemma buildGrass_empty (host : Host) (this : Engine) (x z : Q) (lodIndex : Z)
    (lodSettings : LODLevel) (geometry : nat) (grassMat : Material) (s : Engine) :
  (chunkBladeCount (currentConfig this) lodIndex lodSettings <= 0)%Z ->
  run_value (buildGrass host this x z lodIndex lodSettings geometry grassMat) s =
  {| imesh_id := next_object s; imesh_geometry := geometry;
     imesh_material := grassMat; imesh_count := 0;
     imesh_attributes := []; imesh_matrices := [] |}.
Proof.
  intros H. unfold buildGrass.
  replace (chunkBladeCount (currentConfig this) lodIndex lodSettings >? 0)%Z with false
    by (symmetry; rewrite Z.gtb_ltb; apply Z.ltb_ge; exact H).
  reflexivity.
Qed.

(** The blade count is not positive when the configured [bladeCount] is not
    positive and the peripheral multiplier is not negative. *)
Lemma chunkBladeCount_nonpositive (cfg : GrassConfig) (lodIndex : Z) (lodSettings : LODLevel) :
  In lodSettings LOD_LEVELS ->
  bladeCount cfg <= 0 ->
  0 <= opt_nullish (peripheralDensity cfg) 1 ->
  (chunkBladeCount cfg lodIndex lodSettings <= 0)%Z.
Proof.
  intros Hin Hb Hp. unfold chunkBladeCount, getBladeDensity.
  set (e := if (lodIndex =? 0)%Z then density lodSettings
            else density lodSettings * opt_nullish (peripheralDensity cfg) 1).
  assert (He : 0 <= e).
  { unfold e. simpl in Hin.
    destruct Hin as [<- | [<- | [<- | []]]]; destruct (lodIndex =? 0)%Z; simpl; nra. }
  assert (Hq : bladeCount cfg / (200 * 200) * (CHUNK_SIZE * CHUNK_SIZE) * e <= 0).
  { assert (Hd : bladeCount cfg / (200 * 200) == bladeCount cfg * (1 # 40000))
      by (field).
    rewrite Hd. unfold CHUNK_SIZE. nra. }
  apply Qfloor_resp_le in Hq. change (Qfloor 0) with 0%Z in Hq. exact Hq.
Qed.

(** With the shared resources built, a level whose computed blade count is
    zero or negative still gets its chunk, with an empty grass mesh. *)
Lemma loadChunk_empty_chunk_ready (host : Host) (x z : Q) (lodIndex : Z)
    (lodSettings : LODLevel) (s : Engine) :
  resources_ready s ->
  (0 <= lodIndex)%Z ->
  nth_error LOD_LEVELS (Z.to_nat lodIndex) = Some lodSettings ->
  (chunkBladeCount (currentConfig s) lodIndex lodSettings <= 0)%Z ->
  exists c,
    loaded host x z lodIndex s = Some c /\
    lodLevel c = lodIndex /\
    imesh_count (grass c) = 0%Z /\
    imesh_attributes (grass c) = [].
Proof.
  intros Hready H0 Hlvl Hcount.
  assert (Hl : (0 <= lodIndex < 3)%Z).
  { assert (Hn : (Z.to_nat lodIndex < List.length LOD_LEVELS)%nat)
      by (apply nth_error_Some; congruence).
    simpl in Hn. lia. }
  destruct (resources_ready_nth s lodIndex Hready Hl)
    as (geometry & lodSettings' & grassMat & groundMat & E1 & E2 & E3 & E4).
  assert (lodSettings' = lodSettings) by congruence. subst lodSettings'.
  eexists. split.
  - apply (loadChunk_loaded host x z lodIndex s _ _ _ _ Hl E1 E2 E3 E4).
  - cbn [lodLevel grass]. rewrite buildGrass_empty by exact Hcount.
    repeat split; reflexivity.
Qed.

(** ** Running a method step by step *)

Lemma forEach_dispose_run (l : list nat) (s : Engine) :
  forEach l dispose s = (tt, s, map Dispose l).
Proof.
  induction l as [| a rest IH]; cbn [forEach map].
  - reflexivity.
  - unfold bind. change (dispose a s) with (tt, s, [Dispose a]).
    cbv iota beta. rewrite IH. reflexivity.
Qed.

Lemma dispose_if_run (o : option nat) (s : Engine) :
  dispose_if o s = (tt, s, match o with Some r => [Dispose r] | None => [] end).
Proof. destruct o; reflexivity. Qed.

Lemma run_state_step {A B : Type} (m : M A) (f : A -> M B) (s : Engine)
    (a : A) (s1 : Engine) (e1 : list Event) :
  m s = (a, s1, e1) -> run_state (bind m f) s = run_state (f a) s1.
Proof.
  intros E. unfold run_state, bind. rewrite E.
  destruct (f a s1) as [[b s2] e2]. reflexivity.
Qed.

Lemma run_events_step {A B : Type} (m : M A) (f : A -> M B) (s : Engine)
    (a : A) (s1 : Engine) (e1 : list Event) :
  m s = (a, s1, e1) -> run_events (bind m f) s = e1 ++ run_events (f a) s1.
Proof.
  intros E. unfold run_events, bind. rewrite E.
  destruct (f a s1) as [[b s2] e2]. reflexivity.
Qed.

Ltac normalize_state :=
  cbn [currentConfig camera_position chunkGroup chunks lodGeometries grassMaterial
       groundMaterial treeTrunkGeo treeFoliageGeo treeTrunkMat treeFoliageMat
       lastUpdatePos next_object random_calls
       set_currentConfig set_camera_position set_chunkGroup set_chunks
       set_lodGeometries set_grassMaterial set_groundMaterial set_treeTrunkGeo
       set_treeFoliageGeo set_treeTrunkMat set_treeFoliageMat set_lastUpdatePos
       set_next_object set_random_calls option_map material_id material_class app].

(** One statement of a method run on the current state. *)
Ltac run_step :=
  erewrite run_state_step
    by first [ apply dispose_if_run | apply forEach_dispose_run | reflexivity ];
  cbv beta; normalize_state.

(** ** [initResources] *)

Lemma initResources_ready (host : Host) (config : GrassConfig) (s : Engine) :
  resources_ready (run_state (initResources host config) s).
Proof.
  unfold initResources. repeat run_step.
  unfold resources_ready. cbn. repeat split; discriminate.
Qed.

(** Rebuilding the shared resources leaves the store, the configuration, the
    camera and the last refresh position alone. *)
Lemma initResources_rest (host : Host) (config : GrassConfig) (s : Engine) :
  let s' := run_state (initResources host config) s in
  chunks s' = chunks s /\ currentConfig s' = currentConfig s /\
  camera_position s' = camera_position s /\ lastUpdatePos s' = lastUpdatePos s.
Proof.
  intros s'. unfold s', initResources. repeat run_step.
  cbn. repeat split; reflexivity.
Qed.

(** ** Tree placement *)

Lemma treeData_ext (host : Host) (s1 s2 : Engine) (x z : Q) (lodIndex : Z) :
  currentConfig s1 = currentConfig s2 ->
  is_some (treeTrunkGeo s1) = is_some (treeTrunkGeo s2) ->
  is_some (treeFoliageGeo s1) = is_some (treeFoliageGeo s2) ->
  treeData host s1 x z lodIndex = treeData host s2 x z lodIndex.
Proof.
  intros Hc Ht Hf. unfold treeData. rewrite Hc, Ht, Hf. reflexivity.
Qed.

(** With the tree resources built, the matrices written to the trunk and to
    the foliage mesh are the accepted placements, in loop order. *)
Lemma buildTrees_matrices (host : Host) (this : Engine) (x z : Q) (lodIndex : Z)
    (s : Engine) :
  resources_ready this ->
  match run_value (buildTrees host this x z lodIndex) s with
  | Some t => (imesh_matrices (trunk t), imesh_matrices (foliage t))
  | None => ([], [])
  end = (treeData host this x z lodIndex, treeData host this x z lodIndex).
Proof.
  intros (_ & _ & _ & H1 & H2 & H3 & H4). unfold buildTrees.
  destruct (treeData host this x z lodIndex) as [| m rest]; [reflexivity |].
  destruct (treeTrunkGeo this); [| congruence].
  destruct (treeTrunkMat this); [| congruence].
  destruct (treeFoliageGeo this); [| congruence].
  destruct (treeFoliageMat this); [| congruence].
  reflexivity.
Qed.

Lemma resources_ready_fixed (s s' : Engine) :
  same_fixed s s' -> resources_ready s -> resources_ready s'.
Proof.
  unfold same_fixed, resources_ready. intros F R.
  decompose [and] F. decompose [and] R. repeat split; congruence.
Qed.

(** With the shared resources built, the trees of a cell depend on the host,
    the configuration, the cell and the level only. *)
Lemma tree_placement_ready (host : Host) (s1 s2 : Engine)
    (x z : Q) (lodIndex : Z) :
  currentConfig s1 = currentConfig s2 ->
  resources_ready s1 ->
  resources_ready s2 ->
  (0 <= lodIndex < 3)%Z ->
  treeData host s1 x z lodIndex = treeData host s2 x z lodIndex /\
  exists c1 c2,
    loaded host x z lodIndex s1 = Some c1 /\
    loaded host x z lodIndex s2 = Some c2 /\
    tree_matrices c1 = tree_matrices c2 /\
    tree_matrices c1 = (treeData host s1 x z lodIndex, treeData host s1 x z lodIndex).
Proof.
  intros Hc R1 R2 Hl.
  assert (Hd : treeData host s1 x z lodIndex = treeData host s2 x z lodIndex).
  { apply treeData_ext; [exact Hc | |].
    - destruct R1 as (_ & _ & _ & A & _), R2 as (_ & _ & _ & B & _).
      destruct (treeTrunkGeo s1), (treeTrunkGeo s2); congruence || reflexivity.
    - destruct R1 as (_ & _ & _ & _ & A & _), R2 as (_ & _ & _ & _ & B & _).
      destruct (treeFoliageGeo s1), (treeFoliageGeo s2); congruence || reflexivity. }
  split; [exact Hd |].
  destruct (resources_ready_nth s1 lodIndex R1 Hl)
    as (g1 & l1 & gm1 & grm1 & A1 & A2 & A3 & A4).
  destruct (resources_ready_nth s2 lodIndex R2 Hl)
    as (g2 & l2 & gm2 & grm2 & B1 & B2 & B3 & B4).
  eexists. eexists. split; [| split; [| split]].
  - apply (loadChunk_loaded host x z lodIndex s1 _ _ _ _ Hl A1 A2 A3 A4).
  - apply (loadChunk_loaded host x z lodIndex s2 _ _ _ _ Hl B1 B2 B3 B4).
  - unfold tree_matrices. cbn [trees].
    rewrite (buildTrees_matrices host s1 x z lodIndex _ R1).
    rewrite (buildTrees_matrices host s2 x z lodIndex _ R2).
    rewrite Hd. reflexivity.
  - unfold tree_matrices. cbn [trees].
    apply (buildTrees_matrices host s1 x z lodIndex _ R1).
Qed.

(** ** The structural test of [updateConfig] *)

Lemma num_neq_iff (a b : Q) : num_neq a b = true <-> ~ a == b.
Proof.
  unfold num_neq. rewrite negb_true_iff, <- Qeq_bool_iff.
  destruct (Qeq_bool a b); split; congruence.
Qed.

Lemma opt_num_neq_iff (a b : option Q) : opt_num_neq a b = true <-> ~ opt_Qeq a b.
Proof.
  destruct a as [x |], b as [y |]; simpl.
  - apply num_neq_iff.
  - tauto.
  - tauto.
  - split; [discriminate | tauto].
Qed.

Lemma opt_bool_neq_iff (a b : option bool) : opt_bool_neq a b = true <-> a <> b.
Proof.
  destruct a as [[|] |], b as [[|] |]; simpl; split; congruence.
Qed.

(** The test of the code is the structural change of the specification. *)
Lemma needsRebuild_iff (prev next : GrassConfig) :
  needsRebuild prev next = true <-> structural_change prev next.
Proof.
  unfold needsRebuild, structural_change.
  rewrite !orb_true_iff, !num_neq_iff, !opt_num_neq_iff, opt_bool_neq_iff. tauto.
Qed.

Lemma needsRebuild_false_iff (prev next : GrassConfig) :
  needsRebuild prev next = false <-> ~ structural_change prev next.
Proof.
  rewrite <- needsRebuild_iff. destruct (needsRebuild prev next); split; congruence.
Qed.

(** ** Reloading the required set *)

Lemma loadChunk_ready (host : Host) (x z : Q) (lodIndex : Z) (s : Engine) :
  resources_ready s -> (0 <= lodIndex < 3)%Z ->
  exists c,
    chunks (run_state (loadChunk host x z lodIndex) s)
      = map_set (chunks s) (getChunkKey x z) c /\
    lodLevel c = lodIndex.
Proof.
  intros R Hl.
  destruct (resources_ready_nth s lodIndex R Hl)
    as (g & l & gm & grm & A1 & A2 & A3 & A4).
  rewrite (loadChunk_run host x z lodIndex s _ _ _ _ Hl A1 A2 A3 A4).
  eexists. split.
  - cbn [chunks set_chunks].
    rewrite (buildGrass_chunks _ _ _ _ _ _ _ _ _).
    rewrite (buildTrees_chunks _ _ _ _ _ _).
    rewrite (buildGround_chunks _ _ _ _ _).
    reflexivity.
  - reflexivity.
Qed.

Lemma loadMissing_events (host : Host) (k : Key) (d : Needed) (s : Engine) :
  run_events (loadMissing host (k, d)) s =
  if map_has (chunks s) k then [] else [Call_loadChunk (nx d) (nz d) (lod d)].
Proof.
  unfold loadMissing. rewrite run_events_bind.
  change (run_value get s) with s. change (run_state get s) with s.
  change (run_events get s) with (@nil Event).
  destruct (map_has (chunks s) k); cbn [negb app]; [reflexivity |].
  apply loadChunk_events.
Qed.

(** From a state with built resources the second loop loads every needed
    chunk that is missing, at its level. *)
Lemma load_loop_loads (host : Host) (needed : list (Key * Needed)) :
  (forall e, In e needed -> keyed e /\ (0 <= lod (snd e) < 3)%Z) ->
  NoDup (map fst needed) ->
  forall (s : Engine) k n,
    resources_ready s ->
    In (k, n) needed ->
    map_has (chunks s) k = false ->
    In (Call_loadChunk (nx n) (nz n) (lod n))
       (run_events (forEach needed (loadMissing host)) s) /\
    exists c,
      map_get (chunks (run_state (forEach needed (loadMissing host)) s)) k = Some c /\
      lodLevel c = lod n.
Proof.
  induction needed as [| [k0 d0] rest IH]; intros Hwf Hnd s k n R Hin Habs;
    [destruct Hin |].
  cbn [forEach]. rewrite run_events_bind, run_state_bind.
  assert (Hwf' : forall e, In e rest -> keyed e /\ (0 <= lod (snd e) < 3)%Z)
    by (intros e He; apply Hwf; right; exact He).
  assert (Hk' : forall e, In e rest -> keyed e) by (intros e He; apply Hwf', He).
  inversion Hnd as [| ? ? Hnotin Hnd']; subst.
  destruct (Hwf (k0, d0) (or_introl eq_refl)) as [Hkey Hlod]. simpl in Hlod.
  assert (R1 : resources_ready (run_state (loadMissing host (k0, d0)) s))
    by (eapply resources_ready_fixed; [apply loadMissing_fixed | exact R]).
  destruct Hin as [E | Hin].
  - injection E as -> ->. split.
    + apply in_or_app. left. rewrite loadMissing_events, Habs. left; reflexivity.
    + assert (E : exists c,
        map_get (chunks (run_state (loadMissing host (k, n)) s)) k = Some c /\
        lodLevel c = lod n).
      { unfold loadMissing. rewrite run_state_bind.
        change (run_value get s) with s. change (run_state get s) with s.
        rewrite Habs. cbn [negb].
        destruct (loadChunk_ready host (nx n) (nz n) (lod n) s R Hlod) as (c & Ec & El).
        exists c. rewrite Ec. unfold keyed in Hkey; simpl in Hkey. rewrite <- Hkey.
        split; [apply map_get_map_set_same | exact El]. }
      destruct E as (c & Ec & El). exists c. split; [| exact El].
      apply load_loop_present; assumption.
  - assert (Hne : k <> k0).
    { intros ->. apply Hnotin. apply (in_map fst) in Hin. exact Hin. }
    assert (Habs1 : map_has (chunks (run_state (loadMissing host (k0, d0)) s)) k = false).
    { destruct (loadMissing_chunks host k0 d0 s Hkey) as [E | (_ & c & E & _)];
        rewrite E; [exact Habs |].
      unfold map_has in *. rewrite map_get_map_set_other by exact Hne. exact Habs. }
    destruct (IH Hwf' Hnd' _ k n R1 Hin Habs1) as [He Hc].
    split; [apply in_or_app; right; exact He | exact Hc].
Qed.

(** ** Keys of the needed set *)

Section MapKeys.
Context {V : Type}.
Implicit Types (m : list (Key * V)) (k : Key) (v : V).

Lemma In_keys_map_set m k v k1 :
  In k1 (map fst (map_set m k v)) -> k1 = k \/ In k1 (map fst m).
Proof.
  intros H. apply in_map_iff in H. destruct H as ([k' v'] & <- & H).
  apply In_map_set in H. destruct H as [[-> _] | H]; [left; reflexivity |].
  right. apply (in_map fst) in H. exact H.
Qed.

Lemma map_set_NoDup m k v :
  NoDup (map fst m) -> NoDup (map fst (map_set m k v)).
Proof.
  induction m as [| [k' v'] rest IH]; simpl; intros H.
  - constructor; [intros [] | constructor].
  - inversion H as [| ? ? Hnotin Hnd]; subst.
    destruct (key_eqb k k') eqn:E; simpl.
    + constructor; assumption.
    + constructor; [| apply IH, Hnd].
      intros Hin. apply In_keys_map_set in Hin. destruct Hin as [-> | Hin].
      * rewrite key_eqb_refl in E. discriminate.
      * contradiction.
Qed.
End MapKeys.

Lemma fold_left_invariant {A B : Type} (P : A -> Prop) (f : A -> B -> A) (l : list B) :
  (forall a b, P a -> P (f a b)) -> forall a, P a -> P (fold_left f l a).
Proof.
  intros Hf. induction l as [| b rest IH]; intros a Ha; simpl; [exact Ha |].
  apply IH, Hf, Ha.
Qed.

Lemma neededChunks_NoDup (cfg : GrassConfig) (camX camZ : Q) :
  NoDup (map fst (neededChunks cfg camX camZ)).
Proof.
  unfold neededChunks.
  apply (fold_left_invariant (fun m : list (Key * Needed) => NoDup (map fst m)));
    [| constructor].
  intros m x Hm.
  apply (fold_left_invariant (fun m : list (Key * Needed) => NoDup (map fst m)));
    [| exact Hm].
  intros m' z Hm'.
  destruct (negb _); [apply map_set_NoDup, Hm' | exact Hm'].
Qed.

Lemma neededChunks_valid (cfg : GrassConfig) (camX camZ : Q) :
  forall e, In e (neededChunks cfg camX camZ) ->
            keyed e /\ (0 <= lod (snd e) < 3)%Z.
Proof.
  intros [k n] H. split; [apply (neededChunks_keyed _ _ _ _ H) |].
  apply neededChunks_entry in H. destruct H as (_ & Hl & Hne & _). simpl.
  rewrite Hl in *.
  destruct (getLODLevel_range cfg
    (Math_sqrt (Math_pow2 (nx n - camX) + Math_pow2 (nz n - camZ)))); [contradiction | assumption].
Qed.

(** ** [updateConfig] *)

Lemma updateConfig_cosmetic (host : Host) (config : GrassConfig) (s : Engine) :
  needsRebuild (currentConfig s) config = false ->
  updateConfig host config s = (tt, set_currentConfig config s, []).
Proof.
  intros H. unfold updateConfig, bind, get, modify. rewrite H. reflexivity.
Qed.

Lemma updateConfig_structural (host : Host) (config : GrassConfig) (s : Engine) :
  needsRebuild (currentConfig s) config = true ->
  let s0 := set_currentConfig config s in
  let s1 := run_state (initResources host config) s0 in
  let s2 := run_state (forEach (chunks s1) unloadEntry) s1 in
  let s3 := set_lastUpdatePos SENTINEL (set_chunks [] s2) in
  run_state (updateConfig host config) s = run_state (updateChunks host) s3 /\
  run_events (updateConfig host config) s =
    run_events (initResources host config) s0
    ++ run_events (forEach (chunks s1) unloadEntry) s1
    ++ run_events (updateChunks host) s3.
Proof.
  intros H s0 s1 s2 s3. unfold updateConfig.
  rewrite run_state_bind, run_events_bind.
  change (run_value get s) with s. change (run_state get s) with s.
  change (run_events get s) with (@nil Event).
  rewrite run_state_bind, run_events_bind.
  change (run_state (modify (set_currentConfig config)) s) with s0.
  change (run_events (modify (set_currentConfig config)) s) with (@nil Event).
  rewrite H.
  rewrite run_state_bind, run_events_bind. fold s1.
  rewrite run_state_bind, run_events_bind.
  change (run_value get s1) with s1. change (run_state get s1) with s1.
  change (run_events get s1) with (@nil Event).
  rewrite run_state_bind, run_events_bind. fold s2.
  rewrite run_state_bind, run_events_bind.
  change (run_state (modify (set_chunks [])) s2) with (set_chunks [] s2).
  change (run_events (modify (set_chunks [])) s2) with (@nil Event).
  rewrite run_state_bind, run_events_bind.
  change (run_state (modify (set_lastUpdatePos SENTINEL)) (set_chunks [] s2)) with s3.
  change (run_events (modify (set_lastUpdatePos SENTINEL)) (set_chunks [] s2))
    with (@nil Event).
  split; reflexivity.
Qed.

Lemma unload_all_events (entries : list (Key * ChunkData)) :
  forall (s : Engine) k c,
    In (k, c) entries ->
    In (Call_unloadChunk k) (run_events (forEach entries unloadEntry) s).
Proof.
  induction entries as [| [k0 c0] rest IH]; intros s k c Hin; [destruct Hin |].
  cbn [forEach]. rewrite run_events_bind. apply in_or_app.
  destruct Hin as [E | Hin].
  - injection E as -> ->. left. unfold unloadEntry; simpl.
    rewrite unloadChunk_events. left; reflexivity.
  - right. apply (IH _ k c Hin).
Qed.

Lemma unload_all_fixed (entries : list (Key * ChunkData)) :
  keeps same_fixed (forEach entries unloadEntry).
Proof.
  apply (keeps_forEach _ same_fixed_refl same_fixed_trans).
  intros e _. apply unloadChunk_fixed.
Qed.

(** C2, as stated, fails when the camera stands at the sentinel position:
    after a change of blade height every chunk is unloaded, but the refresh
    that follows is throttled against the sentinel and reloads nothing, so
    the required chunk at (99990, 99990) is missing. *)
Lemma reconciles_fails_at_sentinel :
  ~ reconciles sampleHost
      (refreshes sampleHost [vec3 99990 99999 99999; SENTINEL]
         (constructed sampleHost bareFields))
      (set_bladeHeight (36 # 10) bareFields).
Proof.
  intros [H _].
  destruct H as [_ Hre].
  - apply needsRebuild_iff. vm_compute. reflexivity.
  - destruct (Hre (getChunkKey 99990 99990) {| nx := 99990; nz := 99990; lod := 0 |})
      as [_ (c & Hc & _)].
    + apply map_get_In. vm_compute. reflexivity.
    + vm_compute in Hc. discriminate.
Qed.

(** C2 (amended): the test of [updateConfig] is true exactly for a structural
    change.  On a structural change every previously loaded key is unloaded
    and, provided the camera is not within the 5-unit threshold of the
    sentinel (99999, 99999, 99999) to which the last refresh position is
    reset, the set required under the new configuration is loaded at once.
    On any other change no chunk is unloaded or loaded and the store is
    untouched. *)
Theorem updateConfig_reconciles (host : Host) (s : Engine) (config : GrassConfig) :
  let s' := run_state (updateConfig host config) s in
  let evs := run_events (updateConfig host config) s in
  (needsRebuild (currentConfig s) config = true <->
   structural_change (currentConfig s) config) /\
  (structural_change (currentConfig s) config ->
   all_unloaded s evs /\
   (~ root_lt (distanceTo SENTINEL (camera_position s)) UPDATE_THRESHOLD ->
    required_reloaded config s s' evs)) /\
  (~ structural_change (currentConfig s) config ->
   evs = [] /\ chunks s' = chunks s).
Proof.
  intros s' evs. split; [apply needsRebuild_iff | split].
  - intros Hs. apply needsRebuild_iff in Hs.
    destruct (updateConfig_structural host config s Hs) as [Est Eev].
    set (s0 := set_currentConfig config s) in *.
    set (s1 := run_state (initResources host config) s0) in *.
    set (s2 := run_state (forEach (chunks s1) unloadEntry) s1) in *.
    set (s3 := set_lastUpdatePos SENTINEL (set_chunks [] s2)) in *.
    destruct (initResources_rest host config s0) as (Hch & Hcfg & Hcam & _).
    fold s1 in Hch, Hcfg, Hcam.
    split.
    + intros k Hk. unfold evs. rewrite Eev.
      apply map_has_In in Hk. destruct Hk as [c Hc].
      apply in_or_app; right. apply in_or_app; left.
      apply (unload_all_events _ _ k c). rewrite Hch. exact Hc.
    + intros Hfar k n Hn. unfold evs, s'. rewrite Eev, Est.
      pose proof (unload_all_fixed (chunks s1) s1) as F12. fold s2 in F12.
      assert (R3 : resources_ready s3).
      { apply (resources_ready_fixed s1 s2 F12 (initResources_ready host config s0)). }
      assert (Cam3 : camera_position s3 = camera_position s).
      { unfold s3. cbn [camera_position set_lastUpdatePos set_chunks].
        destruct F12 as (_ & -> & _). exact Hcam. }
      assert (Cfg3 : currentConfig s3 = config).
      { unfold s3. cbn [currentConfig set_lastUpdatePos set_chunks].
        destruct F12 as (-> & _). exact Hcfg. }
      assert (Ht : throttled s3 = false).
      { apply root_ltb_false_iff. unfold s3 at 1.
        cbn [lastUpdatePos set_lastUpdatePos]. rewrite Cam3. exact Hfar. }
      destruct (updateChunks_applied host s3 Ht) as [E1 E2].
      rewrite E1, E2, Cfg3, Cam3.
      set (s4 := set_lastUpdatePos (camera_position s) s3).
      change (chunks s3) with (@nil (Key * ChunkData)). cbn [forEach].
      change (run_state (ret tt) s4) with s4.
      change (run_events (ret tt) s4) with (@nil Event).
      destruct (load_loop_loads host _
                  (neededChunks_valid config (vx (camera_position s))
                     (vz (camera_position s)))
                  (neededChunks_NoDup config (vx (camera_position s))
                     (vz (camera_position s)))
                  s4 k n)
        as [Hev Hc]; [exact R3 | exact Hn | reflexivity |].
      split; [| exact Hc].
      apply in_or_app; right. apply in_or_app; right. exact Hev.
  - intros Hc. apply needsRebuild_false_iff in Hc.
    unfold evs, s', run_events, run_state.
    rewrite (updateConfig_cosmetic host config s Hc). split; reflexivity.
Qed.

(** Doubling the blade height is structural and changing the tip colour is
    not; the camera of a fresh engine is far from the sentinel. *)
Lemma updateConfig_reconciles_witness :
  let s := run_state (refresh sampleHost (vec3 0 15 40))
             (constructed sampleHost bareFields) in
  (let c := set_bladeHeight (36 # 10) bareFields in
   all_unloaded s (run_events (updateConfig sampleHost c) s) /\
   required_reloaded c s (run_state (updateConfig sampleHost c) s)
     (run_events (updateConfig sampleHost c) s)) /\
  (let c := set_tipColor "#ffffff" bareFields in
   run_events (updateConfig sampleHost c) s = [] /\
   chunks (run_state (updateConfig sampleHost c) s) = chunks s).
Proof.
  intros s. split.
  - destruct (updateConfig_reconciles sampleHost s (set_bladeHeight (36 # 10) bareFields))
      as (_ & H & _).
    destruct H as [H1 H2].
    + apply needsRebuild_iff. vm_compute. reflexivity.
    + split; [exact H1 |]. apply H2.
      intros (_ & _ & H). vm_compute in H. discriminate.
  - destruct (updateConfig_reconciles sampleHost s (set_tipColor "#ffffff" bareFields))
      as (_ & _ & H).
    apply H. apply needsRebuild_false_iff. vm_compute. reflexivity.
Defined.

(** ** What [unloadChunk] releases *)

(** C1 at the failing input: in a bare field the chunk at (0, 0) has no
    blade, its grass mesh sits directly on the LOD template geometry of level
    0 (object 0), and unloading the chunk disposes that template while it is
    still the engine's [lodGeometries[0]]. *)
Theorem unloadChunk_disposes_LOD_template :
  let s0 := constructed sampleHost bareFields in
  let s1 := run_state (loadChunk sampleHost 0 0 0) s0 in
  let s2 := run_state (unloadChunk (getChunkKey 0 0)) s1 in
  nth_error (lodGeometries s0) 0 = Some 0%nat /\
  run_events (unloadChunk (getChunkKey 0 0)) s1
    = [Call_unloadChunk (getChunkKey 0 0); Dispose 0; Dispose 9] /\
  nth_error (lodGeometries s2) 0 = Some 0%nat /\
  map_has (chunks s2) (getChunkKey 0 0) = false.
Proof. vm_compute. repeat split; reflexivity. Qed.

(** The same in general: whenever the computed blade count of a chunk is not
    positive, unloading the chunk disposes the shared template geometry of
    its level. *)
Lemma unloadChunk_disposes_template_of_empty_chunk (host : Host) (x z : Q)
    (lodIndex : Z) (lodSettings : LODLevel) (geometry : nat) (s : Engine) :
  resources_ready s ->
  (0 <= lodIndex)%Z ->
  nth_error LOD_LEVELS (Z.to_nat lodIndex) = Some lodSettings ->
  nth_error (lodGeometries s) (Z.to_nat lodIndex) = Some geometry ->
  (chunkBladeCount (currentConfig s) lodIndex lodSettings <= 0)%Z ->
  let s1 := run_state (loadChunk host x z lodIndex) s in
  nth_error (lodGeometries s1) (Z.to_nat lodIndex) = Some geometry /\
  In (Dispose geometry) (run_events (unloadChunk (getChunkKey x z)) s1).
Proof.
  intros R H0 Hlvl Hgeo Hcount s1.
  assert (Hl : (0 <= lodIndex < 3)%Z).
  { assert (Hn : (Z.to_nat lodIndex < List.length LOD_LEVELS)%nat)
      by (apply nth_error_Some; congruence).
    simpl in Hn. lia. }
  split.
  - destruct (loadChunk_fixed host x z lodIndex s) as (_ & _ & E & _).
    unfold s1. rewrite E. exact Hgeo.
  - destruct (resources_ready_nth s lodIndex R Hl)
      as (g & l & gm & grm & A1 & A2 & A3 & A4).
    assert (g = geometry) by congruence. assert (l = lodSettings) by congruence.
    subst g l.
    pose proof (loadChunk_loaded host x z lodIndex s _ _ _ _ Hl A1 A2 A3 A4) as E.
    cbv zeta in E. unfold loaded in E. fold s1 in E.
    rewrite unloadChunk_events. right.
    unfold unloadChunk_disposals. rewrite E. cbn [grass].
    rewrite buildGrass_empty by exact Hcount. left. reflexivity.
Qed.

(** ** A zero bias *)

Lemma or_default_zero (a : Q) : a == 0 -> or_default a 1 = 1.
Proof.
  intros H. unfold or_default. apply Qeq_bool_iff in H. rewrite H. reflexivity.
Qed.

Lemma getLODLevel_zero_bias (cfg : GrassConfig) (d : root) :
  lodBias cfg == 0 -> getLODLevel cfg d = getLODLevel (set_lodBias 1 cfg) d.
Proof.
  intros H. unfold getLODLevel. cbn [lodBias set_lodBias].
  rewrite (or_default_zero _ H). reflexivity.
Qed.

Lemma neededChunks_zero_bias (cfg : GrassConfig) (camX camZ : Q) :
  lodBias cfg == 0 ->
  neededChunks cfg camX camZ = neededChunks (set_lodBias 1 cfg) camX camZ.
Proof.
  intros H. unfold neededChunks, getLODLevel. cbn [lodBias set_lodBias].
  rewrite (or_default_zero _ H). reflexivity.
Qed.

Section Commutes.
Variable b : Q.

Lemma commutes_ret {A : Type} (a : A) : commutes b (ret a).
Proof. intros s. reflexivity. Qed.

Lemma commutes_emit (e : Event) : commutes b (emit e).
Proof. intros s. reflexivity. Qed.

Lemma commutes_bind {A B : Type} (m : M A) (f : A -> M B) :
  commutes b m -> (forall a, commutes b (f a)) -> commutes b (bind m f).
Proof.
  intros Hm Hf s. unfold bind. rewrite Hm.
  destruct (m s) as [[a s1] e1]. cbn [lift_rebias]. rewrite Hf.
  destruct (f a s1) as [[a' s2] e2]. reflexivity.
Qed.

(** A method that first reads the engine: its continuation must not
    depend on the configured bias. *)
Lemma commutes_get_bind {B : Type} (f : Engine -> M B) :
  (forall this t, f (rebias b this) t = f this t) ->
  (forall this, commutes b (f this)) ->
  commutes b (bind get f).
Proof.
  intros H1 H2 s. unfold bind, get. rewrite H1, H2.
  destruct (f s s) as [[a' s2] e2]. reflexivity.
Qed.

Lemma commutes_forEach {A : Type} (l : list A) (f : A -> M unit) :
  (forall a, commutes b (f a)) -> commutes b (forEach l f).
Proof.
  intros Hf. induction l as [| a rest IH]; cbn [forEach].
  - apply commutes_ret.
  - apply commutes_bind; [apply Hf | intros _; exact IH].
Qed.

Lemma commutes_genBlades (host : Host) (n : nat) (x z : Q) :
  commutes b (genBlades host n x z).
Proof.
  induction n as [| n IH]; cbn [genBlades]; unfold randomRange.
  - apply commutes_ret.
  - repeat first [ apply commutes_bind; [| intros ?] | apply commutes_ret | exact IH
                 | (intros s; reflexivity) ].
Qed.
End Commutes.

Ltac commutes_steps :=
  repeat first
    [ apply commutes_ret
    | apply commutes_emit
    | apply commutes_genBlades
    | apply commutes_bind; [| intros ?]
    | match goal with
      | |- commutes _ (if ?c then _ else _) => destruct c
      | |- commutes _ (match ?x with _ => _ end) => destruct x
      end
    | (intros ?; reflexivity) ].

Lemma commutes_loadChunk (b : Q) (host : Host) (x z : Q) (lodIndex : Z) :
  commutes b (loadChunk host x z lodIndex).
Proof.
  unfold loadChunk.
  apply commutes_bind; [apply commutes_emit | intros _].
  apply commutes_get_bind.
  - intros this t. reflexivity.
  - intros this. unfold buildGround, buildTrees, buildGrass, chunkGroup_add.
    commutes_steps.
Qed.

Lemma commutes_unloadChunk (b : Q) (key : Key) : commutes b (unloadChunk key).
Proof.
  unfold unloadChunk.
  apply commutes_bind; [apply commutes_emit | intros _].
  apply commutes_get_bind.
  - intros this t. reflexivity.
  - intros this. unfold dispose, chunkGroup_remove, when. commutes_steps.
Qed.

Lemma commutes_unloadStale (b : Q) (needed : list (Key * Needed)) (e : Key * ChunkData) :
  commutes b (unloadStale needed e).
Proof.
  destruct e as [key currentData]. unfold unloadStale.
  destruct (map_get needed key) as [n |]; [| apply commutes_unloadChunk].
  destruct (negb (lod n =? lodLevel currentData)%Z);
    [apply commutes_unloadChunk | apply commutes_ret].
Qed.

Lemma commutes_loadMissing (b : Q) (host : Host) (e : Key * Needed) :
  commutes b (loadMissing host e).
Proof.
  destruct e as [key data]. unfold loadMissing.
  apply commutes_get_bind.
  - intros this t. reflexivity.
  - intros this. destruct (negb (map_has (chunks this) key));
      [apply commutes_loadChunk | apply commutes_ret].
Qed.

Lemma bind_get {B : Type} (f : Engine -> M B) (s : Engine) : bind get f s = f s s.
Proof. unfold bind, get. destruct (f s s) as [[a s2] e2]. reflexivity. Qed.

(** With [lodBias = 0] a refresh does what it does with [lodBias = 1]. *)
Lemma updateChunks_zero_bias (host : Host) (s : Engine) :
  lodBias (currentConfig s) == 0 ->
  updateChunks host (rebias 1 s) = lift_rebias 1 (updateChunks host s).
Proof.
  intros H. unfold updateChunks. rewrite !bind_get. cbv zeta.
  change (throttled (rebias 1 s)) with (throttled s).
  change (chunks (rebias 1 s)) with (chunks s).
  change (camera_position (rebias 1 s)) with (camera_position s).
  change (currentConfig (rebias 1 s)) with (set_lodBias 1 (currentConfig s)).
  rewrite <- (neededChunks_zero_bias _ _ _ H).
  destruct (throttled s); [reflexivity |].
  set (needed := neededChunks (currentConfig s)
                   (vx (camera_position s)) (vz (camera_position s))).
  assert (C : commutes 1 (
    modify (fun s0 => set_lastUpdatePos (camera_position s0) s0) ;;
    forEach (chunks s) (unloadStale needed) ;;
    forEach needed (loadMissing host))).
  { apply commutes_bind; [intros t; reflexivity | intros _].
    apply commutes_bind; intros; apply commutes_forEach; intros e;
      [apply commutes_unloadStale | apply commutes_loadMissing]. }
  apply C.
Qed.

(** C10: an engine configured with [lodBias = 0] assigns the levels, builds
    the needed set and refreshes its store exactly as the same engine
    configured with [lodBias = 1]. *)
Theorem zero_lodBias_is_default (host : Host) (s : Engine) :
  lodBias (currentConfig s) == 0 ->
  (forall d,
      getLODLevel (currentConfig s) d = getLODLevel (set_lodBias 1 (currentConfig s)) d) /\
  (forall camX camZ,
      neededChunks (currentConfig s) camX camZ
      = neededChunks (set_lodBias 1 (currentConfig s)) camX camZ) /\
  (forall p,
      run_events (refresh host p) s = run_events (refresh host p) (rebias 1 s) /\
      chunks (run_state (refresh host p) s)
      = chunks (run_state (refresh host p) (rebias 1 s))).
Proof.
  intros H. split; [| split].
  - intros d. apply getLODLevel_zero_bias, H.
  - intros camX camZ. apply neededChunks_zero_bias, H.
  - intros p. unfold run_events, run_state. rewrite !refresh_run.
    change (set_camera_position p (rebias 1 s))
      with (rebias 1 (set_camera_position p s)).
    rewrite (updateChunks_zero_bias host (set_camera_position p s) H).
    destruct (updateChunks host (set_camera_position p s)) as [[u s'] e].
    split; reflexivity.
Qed.

(** With [lodBias = 0] the refresh at the origin needs, and loads, the 69
    chunks of the default bias. *)
Lemma zero_lodBias_is_default_witness :
  let s := constructed sampleHost (set_lodBias 0 bareFields) in
  List.length (neededChunks (currentConfig s) 0 0) = 69%nat /\
  List.length (chunks (run_state (refresh sampleHost (vec3 0 15 0)) s)) = 69%nat.
Proof.
  intros s.
  destruct (zero_lodBias_is_default sampleHost s) as (_ & Hn & Hr).
  - vm_compute. reflexivity.
  - split.
    + rewrite (Hn 0 0). vm_compute. reflexivity.
    + destruct (Hr (vec3 0 15 0)) as [_ E]. rewrite E. vm_compute. reflexivity.
Defined.

(** ** Objects owned by a chunk *)

Lemma grows_refl (s : Engine) : grows s s.
Proof. unfold grows. lia. Qed.

Lemma grows_trans (a b c : Engine) : grows a b -> grows b c -> grows a c.
Proof. unfold grows. lia. Qed.

Ltac keeps_grows :=
  let s := fresh "s" in
  intros s; unfold grows, run_state, modify, new_object, random; simpl; lia.

Lemma genBlades_grows (host : Host) (n : nat) (x z : Q) :
  keeps grows (genBlades host n x z).
Proof.
  induction n as [| n IH]; simpl; unfold randomRange;
    keeps_steps grows_refl grows_trans; try exact IH; keeps_grows.
Qed.

Lemma buildGround_grows (this : Engine) (x z : Q) (groundMat : Material) :
  keeps grows (buildGround this x z groundMat).
Proof.
  unfold buildGround, chunkGroup_add.
  keeps_steps grows_refl grows_trans; keeps_grows.
Qed.

Lemma buildTrees_grows (host : Host) (this : Engine) (x z : Q) (lodIndex : Z) :
  keeps grows (buildTrees host this x z lodIndex).
Proof.
  unfold buildTrees, chunkGroup_add.
  keeps_steps grows_refl grows_trans; keeps_grows.
Qed.

(** The ground mesh gets a geometry of its own, and a material of its own
    exactly when the debug flag is set. *)
Lemma buildGround_value (this : Engine) (x z : Q) (groundMat : Material) (s : Engine) :
  let m := run_value (buildGround this x z groundMat) s in
  mesh_geometry m = next_object s /\
  mesh_material m =
    if truthy (lodDebug (currentConfig this))
    then {| material_id := S (next_object s); material_class := MeshBasicMaterial |}
    else groundMat.
Proof.
  unfold buildGround, run_value, bind, new_object, chunkGroup_add, modify, ret.
  destruct (truthy (lodDebug (currentConfig this))); split; reflexivity.
Qed.

(** With blades to place the grass mesh gets a geometry of its own. *)
Lemma buildGrass_own_geometry (host : Host) (this : Engine) (x z : Q) (lodIndex : Z)
    (lodSettings : LODLevel) (geometry : nat) (grassMat : Material) (s : Engine) :
  (0 < chunkBladeCount (currentConfig this) lodIndex lodSettings)%Z ->
  (next_object s <=
   imesh_geometry
     (run_value (buildGrass host this x z lodIndex lodSettings geometry grassMat) s))%nat.
Proof.
  intros H. unfold buildGrass.
  replace (chunkBladeCount (currentConfig this) lodIndex lodSettings >? 0)%Z with true
    by (symmetry; rewrite Z.gtb_ltb; apply Z.ltb_lt; exact H).
  rewrite run_value_bind.
  change (imesh_geometry _) with
    (next_object (run_state
       (genBlades host
          (Z.to_nat (chunkBladeCount (currentConfig this) lodIndex lodSettings)) x z) s)).
  apply genBlades_grows.
Qed.

Lemma shared_objects_fixed (s s' : Engine) :
  same_fixed s s' -> shared_objects s' = shared_objects s.
Proof.
  unfold same_fixed, shared_objects. intros F. decompose [and] F.
  repeat match goal with H : _ = _ |- _ => rewrite H; clear H end. reflexivity.
Qed.

(** The part of C1 that holds: a chunk that has blades owns everything its
    unload disposes.  Each disposed object was created by the [loadChunk]
    that built the chunk, and none is a shared object. *)
Lemma unloadChunk_disposes_own_of_grassy_chunk (host : Host) (x z : Q)
    (lodIndex : Z) (lodSettings : LODLevel) (s : Engine) :
  resources_ready s ->
  allocated s ->
  ground_is_standard s ->
  (0 <= lodIndex)%Z ->
  nth_error LOD_LEVELS (Z.to_nat lodIndex) = Some lodSettings ->
  (0 < chunkBladeCount (currentConfig s) lodIndex lodSettings)%Z ->
  let s1 := run_state (loadChunk host x z lodIndex) s in
  forall o,
    In o (unloadChunk_disposals s1 (getChunkKey x z)) ->
    (next_object s <= o)%nat /\ ~ In o (shared_objects s1).
Proof.
  intros R Hal Hstd H0 Hlvl Hcount s1 o Ho.
  assert (Hl : (0 <= lodIndex < 3)%Z).
  { assert (Hn : (Z.to_nat lodIndex < List.length LOD_LEVELS)%nat)
      by (apply nth_error_Some; congruence).
    simpl in Hn. lia. }
  assert (Hnew : (next_object s <= o)%nat).
  { destruct (resources_ready_nth s lodIndex R Hl)
      as (g & l & gm & grm & A1 & A2 & A3 & A4).
    assert (l = lodSettings) by congruence. subst l.
    pose proof (loadChunk_loaded host x z lodIndex s _ _ _ _ Hl A1 A2 A3 A4) as E.
    cbv zeta in E. unfold loaded in E. fold s1 in E.
    unfold unloadChunk_disposals in Ho. rewrite E in Ho. cbn [grass ground] in Ho.
    destruct (buildGround_value s x z grm s) as [Eg Em]. cbv zeta in Eg, Em.
    rewrite Eg, Em in Ho.
    destruct Ho as [<- | [<- | Ho]].
    - eapply Nat.le_trans; [| apply buildGrass_own_geometry; exact Hcount].
      eapply (grows_trans s); [apply buildGround_grows | apply buildTrees_grows].
    - lia.
    - destruct (truthy (lodDebug (currentConfig s))).
      + cbn in Ho. destruct Ho as [<- | []]. lia.
      + unfold instanceof_MeshBasicMaterial in Ho. rewrite (Hstd _ A4) in Ho.
        destruct Ho. }
  split; [exact Hnew |].
  unfold s1. rewrite (shared_objects_fixed _ _ (loadChunk_fixed host x z lodIndex s)).
  intros Hin. apply Hal in Hin. lia.
Qed.

Lemma initResources_allocated (host : Host) (config : GrassConfig) (s : Engine) :
  allocated (run_state (initResources host config) s) /\
  ground_is_standard (run_state (initResources host config) s).
Proof.
  unfold initResources. repeat run_step. split.
  - unfold allocated, shared_objects. cbn. intros o H.
    repeat (destruct H as [<- | H]; [lia |]). destruct H.
  - unfold ground_is_standard. cbn. intros m E. injection E as <-. reflexivity.
Qed.

(** ** Reachable states *)

Lemma extends_refl (s : Engine) : extends s s.
Proof. unfold extends. repeat split; reflexivity || lia. Qed.

Lemma extends_trans (a b c : Engine) : extends a b -> extends b c -> extends a c.
Proof.
  unfold extends. intros H1 H2. decompose [and] H1. decompose [and] H2.
  repeat split; congruence || lia.
Qed.

Lemma fixed_grows_extends (s s' : Engine) :
  same_fixed s s' -> grows s s' -> extends s s'.
Proof.
  unfold same_fixed, grows, extends. intros F G. decompose [and] F.
  repeat split; assumption.
Qed.

Lemma sound_extends (s s' : Engine) : extends s s' -> sound s -> sound s'.
Proof.
  unfold extends, sound. intros E (R & A & G). decompose [and] E.
  split; [| split].
  - unfold resources_ready in *. decompose [and] R. repeat split; congruence.
  - unfold allocated, shared_objects in *. intros o Ho.
    repeat match goal with H : _ s' = _ s |- _ => rewrite H in Ho; clear H end.
    apply A in Ho. lia.
  - unfold ground_is_standard in *. intros m Hm. apply G. congruence.
Qed.

Ltac extends_setters :=
  unfold extends; cbn; repeat split; reflexivity || lia.

Lemma unloadChunk_grows (key : Key) : keeps grows (unloadChunk key).
Proof.
  intros s. unfold grows. run_unloadChunk.
  destruct (map_get (chunks s) key) as [chunk |]; simpl; [| lia].
  destruct (instanceof_MeshBasicMaterial (mesh_material (ground chunk)));
    destruct (trees chunk); simpl; lia.
Qed.

Lemma buildGrass_grows (host : Host) (this : Engine) (x z : Q) (lodIndex : Z)
    (lodSettings : LODLevel) (geometry : nat) (grassMat : Material) :
  keeps grows (buildGrass host this x z lodIndex lodSettings geometry grassMat).
Proof.
  unfold buildGrass, chunkGroup_add.
  keeps_steps grows_refl grows_trans; try apply genBlades_grows; keeps_grows.
Qed.

Lemma loadChunk_grows (host : Host) (x z : Q) (lodIndex : Z) :
  keeps grows (loadChunk host x z lodIndex).
Proof.
  unfold loadChunk.
  keeps_steps grows_refl grows_trans;
    first [ apply buildGround_grows | apply buildTrees_grows
          | apply buildGrass_grows | keeps_grows ].
Qed.

Lemma loadChunk_extends (host : Host) (x z : Q) (lodIndex : Z) (s : Engine) :
  extends s (run_state (loadChunk host x z lodIndex) s).
Proof. apply fixed_grows_extends; [apply loadChunk_fixed | apply loadChunk_grows]. Qed.

Lemma unloadChunk_extends (key : Key) (s : Engine) :
  extends s (run_state (unloadChunk key) s).
Proof. apply fixed_grows_extends; [apply unloadChunk_fixed | apply unloadChunk_grows]. Qed.

Lemma unloadStale_extends (needed : list (Key * Needed)) (e : Key * ChunkData) :
  keeps extends (unloadStale needed e).
Proof.
  destruct e as [key currentData]. unfold unloadStale.
  destruct (map_get needed key) as [n |]; [| intros s; apply unloadChunk_extends].
  destruct (negb (lod n =? lodLevel currentData)%Z);
    [intros s; apply unloadChunk_extends | apply keeps_ret, extends_refl].
Qed.

Lemma loadMissing_extends (host : Host) (e : Key * Needed) :
  keeps extends (loadMissing host e).
Proof.
  destruct e as [key data]. unfold loadMissing.
  apply (keeps_bind _ extends_trans); [apply keeps_get, extends_refl |].
  intros s. destruct (negb (map_has (chunks s) key));
    [intros t; apply loadChunk_extends | apply keeps_ret, extends_refl].
Qed.

Lemma updateChunks_extends (host : Host) (s : Engine) :
  extends s (run_state (updateChunks host) s).
Proof.
  destruct (throttled s) eqn:Ht.
  - unfold run_state. rewrite updateChunks_throttled by exact Ht. apply extends_refl.
  - destruct (updateChunks_applied host s Ht) as [E _]. rewrite E.
    eapply extends_trans; [| apply (keeps_forEach _ extends_refl extends_trans);
                              intros e _; apply loadMissing_extends].
    eapply extends_trans; [| apply (keeps_forEach _ extends_refl extends_trans);
                              intros e _; apply unloadStale_extends].
    extends_setters.
Qed.

Lemma refresh_extends (host : Host) (p : Vector3) (s : Engine) :
  extends s (run_state (refresh host p) s).
Proof.
  unfold run_state. rewrite refresh_run.
  eapply extends_trans; [| apply updateChunks_extends]. extends_setters.
Qed.

Lemma initResources_sound (host : Host) (config : GrassConfig) (s : Engine) :
  sound (run_state (initResources host config) s).
Proof.
  split; [apply initResources_ready | apply initResources_allocated].
Qed.

Lemma updateConfig_sound (host : Host) (config : GrassConfig) (s : Engine) :
  sound s -> sound (run_state (updateConfig host config) s).
Proof.
  intros Hs. destruct (needsRebuild (currentConfig s) config) eqn:E.
  - destruct (updateConfig_structural host config s E) as [-> _].
    set (s1 := run_state (initResources host config) (set_currentConfig config s)).
    set (s2 := run_state (forEach (chunks s1) unloadEntry) s1).
    assert (S1 : sound s1) by apply initResources_sound.
    assert (E12 : extends s1 s2).
    { apply (keeps_forEach extends extends_refl extends_trans).
      intros e _ t. apply unloadChunk_extends. }
    assert (E23 : extends s2 (set_lastUpdatePos SENTINEL (set_chunks [] s2)))
      by extends_setters.
    eapply sound_extends; [apply updateChunks_extends |].
    eapply sound_extends; [exact E23 |].
    eapply sound_extends; [exact E12 | exact S1].
  - unfold run_state. rewrite (updateConfig_cosmetic host config s E).
    eapply sound_extends; [| exact Hs]. extends_setters.
Qed.

(** Every reachable state has its shared resources built, older than any
    object made later, and a standard ground material. *)
Lemma reachable_sound (host : Host) (s : Engine) : reachable host s -> sound s.
Proof.
  induction 1 as [config | s p _ IH | s config _ IH | s x z lodIndex _ IH | s key _ IH].
  - apply initResources_sound.
  - eapply sound_extends; [apply refresh_extends | exact IH].
  - apply updateConfig_sound, IH.
  - eapply sound_extends; [apply loadChunk_extends | exact IH].
  - eapply sound_extends; [apply unloadChunk_extends | exact IH].
Qed.

(** C8: in every reachable state, for every level of the LOD table whose
    computed blade count is zero or negative (a negative [bladeCount] in the
    configuration included), [loadChunk] stores a chunk under the key of the
    cell, at the requested level, whose grass mesh has zero instances. *)
Theorem loadChunk_empty_chunk (host : Host) (x z : Q) (lodIndex : Z)
    (lodSettings : LODLevel) (s : Engine) :
  reachable host s ->
  (0 <= lodIndex)%Z ->
  nth_error LOD_LEVELS (Z.to_nat lodIndex) = Some lodSettings ->
  (chunkBladeCount (currentConfig s) lodIndex lodSettings <= 0)%Z ->
  exists c,
    loaded host x z lodIndex s = Some c /\
    lodLevel c = lodIndex /\
    imesh_count (grass c) = 0%Z /\
    imesh_attributes (grass c) = [].
Proof.
  intros Hr. apply loadChunk_empty_chunk_ready.
  apply (reachable_sound host s Hr).
Qed.

(** A negative [bladeCount]: after the first refresh the chunk at (30, 0) is
    still stored by [loadChunk], with an empty grass mesh. *)
Lemma loadChunk_empty_chunk_witness :
  let s := run_state (refresh sampleHost (vec3 0 15 40))
             (constructed sampleHost (set_bladeCount (-5) bareFields)) in
  exists c,
    loaded sampleHost 30 0 1 s = Some c /\
    lodLevel c = 1%Z /\ imesh_count (grass c) = 0%Z /\ imesh_attributes (grass c) = [].
Proof.
  apply (loadChunk_empty_chunk sampleHost 30 0 1
           {| distance := 85; density := (4 # 10); segments := 2; castShadow := true |}).
  - apply reachable_refresh, reachable_constructed.
  - lia.
  - reflexivity.
  - vm_compute. discriminate.
Defined.

(** C9: for one host (one permutation table, one sine and cosine) and one
    configuration, [loadChunk] called with the same cell and level in any two
    reachable states accepts the same placements and stores the same tree
    transforms; the random draws made so far, the chunks loaded so far and
    the objects made so far do not matter. *)
Theorem tree_placement_deterministic (host : Host) (s1 s2 : Engine)
    (x z : Q) (lodIndex : Z) :
  reachable host s1 ->
  reachable host s2 ->
  currentConfig s1 = currentConfig s2 ->
  (0 <= lodIndex < 3)%Z ->
  treeData host s1 x z lodIndex = treeData host s2 x z lodIndex /\
  exists c1 c2,
    loaded host x z lodIndex s1 = Some c1 /\
    loaded host x z lodIndex s2 = Some c2 /\
    tree_matrices c1 = tree_matrices c2 /\
    tree_matrices c1 = (treeData host s1 x z lodIndex, treeData host s1 x z lodIndex).
Proof.
  intros H1 H2 Hc Hl.
  apply tree_placement_ready; try assumption.
  - apply (reachable_sound host s1 H1).
  - apply (reachable_sound host s2 H2).
Qed.

(** Loading the cell (0, 0), unloading it and loading it again in a forest
    gives the same tree transforms. *)
Lemma tree_placement_deterministic_witness :
  let s1 := constructed sampleHost forest in
  let s2 := run_state (unloadChunk (getChunkKey 0 0))
              (run_state (loadChunk sampleHost 0 0 0) s1) in
  exists c1 c2,
    loaded sampleHost 0 0 0 s1 = Some c1 /\
    loaded sampleHost 0 0 0 s2 = Some c2 /\
    tree_matrices c1 = tree_matrices c2.
Proof.
  intros s1 s2.
  assert (F : same_fixed s1 s2).
  { eapply same_fixed_trans; [apply loadChunk_fixed | apply unloadChunk_fixed]. }
  destruct (tree_placement_deterministic sampleHost s1 s2 0 0 0)
    as (_ & c1 & c2 & E1 & E2 & E3 & _).
  - apply reachable_constructed.
  - apply reachable_unloadChunk, reachable_loadChunk, reachable_constructed.
  - symmetry. apply F.
  - lia.
  - exists c1, c2. tauto.
Defined.

(** The defect behind C1 in every reachable state: when the computed blade
    count of a level is not positive, loading a chunk at that level and
    unloading it disposes the shared template geometry of the level. *)
Lemma unloadChunk_disposes_shared_template (host : Host) (x z : Q)
    (lodIndex : Z) (lodSettings : LODLevel) (s : Engine) :
  reachable host s ->
  (0 <= lodIndex)%Z ->
  nth_error LOD_LEVELS (Z.to_nat lodIndex) = Some lodSettings ->
  (chunkBladeCount (currentConfig s) lodIndex lodSettings <= 0)%Z ->
  let s1 := run_state (loadChunk host x z lodIndex) s in
  exists geometry,
    In geometry (shared_objects s1) /\
    In (Dispose geometry) (run_events (unloadChunk (getChunkKey x z)) s1).
Proof.
  intros Hr H0 Hlvl Hcount s1.
  destruct (reachable_sound host s Hr) as (R & _ & _).
  assert (Hl : (0 <= lodIndex < 3)%Z).
  { assert (Hn : (Z.to_nat lodIndex < List.length LOD_LEVELS)%nat)
      by (apply nth_error_Some; congruence).
    simpl in Hn. lia. }
  destruct (resources_ready_nth s lodIndex R Hl) as (g & l & gm & grm & A1 & _).
  destruct (unloadChunk_disposes_template_of_empty_chunk host x z lodIndex
              lodSettings g s R H0 Hlvl A1 Hcount) as [Hg Hd].
  exists g. split; [| exact Hd].
  unfold shared_objects. apply in_or_app. left.
  apply (nth_error_In _ _ Hg).
Qed.

(** The part of C1 that holds in every reachable state: a chunk that has
    blades owns everything its unload disposes. *)
Lemma unloadChunk_disposes_own (host : Host) (x z : Q)
    (lodIndex : Z) (lodSettings : LODLevel) (s : Engine) :
  reachable host s ->
  (0 <= lodIndex)%Z ->
  nth_error LOD_LEVELS (Z.to_nat lodIndex) = Some lodSettings ->
  (0 < chunkBladeCount (currentConfig s) lodIndex lodSettings)%Z ->
  let s1 := run_state (loadChunk host x z lodIndex) s in
  forall o,
    In o (unloadChunk_disposals s1 (getChunkKey x z)) ->
    (next_object s <= o)%nat /\ ~ In o (shared_objects s1).
Proof.
  intros Hr. destruct (reachable_sound host s Hr) as (R & A & G).
  apply unloadChunk_disposes_own_of_grassy_chunk; assumption.
Qed.

(** ** Scenarios *)

(** Camera at the origin under the default bias: the chunk at (0, 0) gets
    level 0, the chunk at (60, 0) level 1, and the chunk at (180, 0) none. *)
Example scenario_levels :
  let origin := vec3 0 0 0 in
  getLODLevel goldenFields (chunk_distance (getChunkKey 0 0) origin) = 0%Z /\
  getLODLevel goldenFields (chunk_distance (getChunkKey 60 0) origin) = 1%Z /\
  getLODLevel goldenFields (chunk_distance (getChunkKey 180 0) origin) = (-1)%Z.
Proof. vm_compute. repeat split; reflexivity. Qed.

(** The loops of [updateChunks] visit eleven values per axis under the
    default bias. *)
Example scenario_axis :
  map Qred (for_range (-150) 150 CHUNK_SIZE)
  = [-150; -120; -90; -60; -30; 0; 30; 60; 90; 120; 150].
Proof. vm_compute. reflexivity. Qed.

(** With a tree density of zero no placement is accepted, whatever the
    level. *)
Lemma scenario_no_trees (host : Host) (s : Engine) (x z : Q) (lodIndex : Z) :
  opt_or_default (treeDensity (currentConfig s)) 0 == 0 ->
  treeData host s x z lodIndex = [].
Proof.
  intros H. unfold treeData.
  replace (Qlt_bool (1 # 100) (opt_or_default (treeDensity (currentConfig s)) 0))
    with false; [reflexivity |].
  symmetry. apply not_true_iff_false. rewrite Qlt_bool_iff. lra.
Qed.

(** * Further properties *)

(** ** The noise field *)

Lemma frac_range (q : Q) : 0 <= q - Math_floor q /\ q - Math_floor q < 1.
Proof.
  unfold Math_floor. pose proof (Qfloor_le q) as Hl. pose proof (Qlt_floor q) as Hu.
  rewrite inject_Z_plus in Hu. change (inject_Z 1) with 1 in Hu. split; lra.
Qed.

Lemma fade_mirror (t : Q) : 1 - fade t == fade (1 - t).
Proof. unfold fade. ring. Qed.

Lemma Qsquare_nonneg (a : Q) : 0 <= a * a.
Proof. nra. Qed.

Lemma fade_nonneg (t : Q) : 0 <= t -> 0 <= fade t.
Proof.
  intros Ht.
  assert (E : fade t == t * t * t * (6 * ((t - (5 # 4)) * (t - (5 # 4))) + (5 # 8)))
    by (unfold fade; ring).
  rewrite E. apply Qmult_le_0_compat.
  - repeat apply Qmult_le_0_compat; assumption.
  - pose proof (Qsquare_nonneg (t - (5 # 4))) as H. lra.
Qed.

Lemma fade_range (t : Q) : 0 <= t <= 1 -> 0 <= fade t <= 1.
Proof.
  intros [H0 H1]. split.
  - apply fade_nonneg; assumption.
  - pose proof (fade_mirror t) as E. pose proof (fade_nonneg (1 - t)) as H.
    lra.
Qed.

Lemma lerp_le (t a b a' b' : Q) :
  0 <= t <= 1 -> a <= a' -> b <= b' -> lerp t a b <= lerp t a' b'.
Proof.
  intros [H0 H1] Ha Hb. unfold lerp.
  assert (E : a' + t * (b' - a') - (a + t * (b - a)) == (1 - t) * (a' - a) + t * (b' - b)) by ring.
  assert (0 <= (1 - t) * (a' - a)) by (apply Qmult_le_0_compat; lra).
  assert (0 <= t * (b' - b)) by (apply Qmult_le_0_compat; lra).
  lra.
Qed.

Lemma lerp_compat (t t' a a' b b' : Q) :
  t == t' -> a == a' -> b == b' -> lerp t a b == lerp t' a' b'.
Proof. intros Ht Ha Hb. unfold lerp. rewrite Ht, Ha, Hb. reflexivity. Qed.

Lemma fade_compat (t t' : Q) : t == t' -> fade t == fade t'.
Proof. intros Ht. unfold fade. rewrite Ht. reflexivity. Qed.

Lemma grad_compat (h : Z) (x x' y y' z z' : Q) :
  x == x' -> y == y' -> z == z' -> grad h x y z == grad h x' y' z'.
Proof.
  intros Hx Hy Hz. unfold grad.
  destruct (Z.land h 15 <? 8)%Z, (Z.land h 15 <? 4)%Z,
    ((Z.land h 15 =? 12)%Z || (Z.land h 15 =? 14)%Z),
    (Z.land (Z.land h 15) 1 =? 0)%Z, (Z.land (Z.land h 15) 2 =? 0)%Z;
    rewrite ?Hx, ?Hy, ?Hz; reflexivity.
Qed.

(** A gradient is at most the sum of the sizes of its two offsets. *)
Lemma grad_bound (h : Z) (x y a b : Q) :
  - a <= x <= a -> - b <= y <= b ->
  - (a + b) <= grad h x y 0 <= a + b.
Proof.
  intros Hx Hy. unfold grad. generalize (Z.land h 15). intros k.
  destruct (Z.ltb_spec k 8), (Z.ltb_spec k 4), (Z.eqb_spec k 12), (Z.eqb_spec k 14);
    try lia; cbn [orb];
    destruct (Z.land k 1 =? 0)%Z, (Z.land k 2 =? 0)%Z; lra.
Qed.

(** The weight left to the nearer of two opposite corners. *)
Lemma fade_balance (t : Q) : 0 <= t <= 1 -> lerp (fade t) t (1 - t) <= 1 # 2.
Proof.
  intros [H0 H1].
  assert (E : (1 # 2) - lerp (fade t) t (1 - t) ==
              2 * ((t - (1 # 2)) * (t - (1 # 2))) *
              (6 * ((t * (1 - t)) * (t * (1 - t))) + 2 * (t * (1 - t)) + 1))
    by (unfold lerp, fade; ring).
  assert (0 <= t * (1 - t)) by (apply Qmult_le_0_compat; lra).
  pose proof (Qsquare_nonneg (t - (1 # 2))).
  pose proof (Qsquare_nonneg (t * (1 - t))).
  assert (0 <= 2 * ((t - (1 # 2)) * (t - (1 # 2))) *
              (6 * ((t * (1 - t)) * (t * (1 - t))) + 2 * (t * (1 - t)) + 1))
    by (apply Qmult_le_0_compat; lra).
  lra.
Qed.

Lemma noise2D_cell_bound (u v fx fy g00 g10 g01 g11 : Q) :
  0 <= fx <= 1 -> 0 <= fy <= 1 -> u == fade fx -> v == fade fy ->
  g00 <= fx + fy -> g10 <= (1 - fx) + fy ->
  g01 <= fx + (1 - fy) -> g11 <= (1 - fx) + (1 - fy) ->
  lerp v (lerp u g00 g10) (lerp u g01 g11) <= 1.
Proof.
  intros Hfx Hfy Hu Hv H00 H10 H01 H11.
  pose proof (fade_range fx Hfx) as Ru. pose proof (fade_range fy Hfy) as Rv.
  rewrite <- Hu in Ru. rewrite <- Hv in Rv.
  eapply Qle_trans.
  - apply lerp_le; [exact Rv | apply lerp_le; [exact Ru | exact H00 | exact H10]
                            | apply lerp_le; [exact Ru | exact H01 | exact H11]].
  - pose proof (fade_balance fx Hfx) as Bx. pose proof (fade_balance fy Hfy) as By.
    assert (E : lerp v (lerp u (fx + fy) (1 - fx + fy)) (lerp u (fx + (1 - fy)) (1 - fx + (1 - fy)))
                == lerp (fade fx) fx (1 - fx) + lerp (fade fy) fy (1 - fy))
      by (unfold lerp; rewrite Hu, Hv; ring).
    lra.
Qed.

Lemma lerp_opp (t a b : Q) : - lerp t a b == lerp t (- a) (- b).
Proof. unfold lerp. ring. Qed.

Lemma noise2D_range (host : Host) (x y : Q) :
  - (1) <= noise2D host x y <= 1.
Proof.
  unfold noise2D.
  pose proof (frac_range x) as [Hx0 Hx1]. pose proof (frac_range y) as [Hy0 Hy1].
  set (fx := x - Math_floor x) in *. set (fy := y - Math_floor y) in *.
  set (A := (PERM host (Z.land (Qfloor x) 255) + Z.land (Qfloor y) 255)%Z).
  set (B := (PERM host (Z.land (Qfloor x) 255 + 1) + Z.land (Qfloor y) 255)%Z).
  assert (G00 := grad_bound (PERM host A) fx fy fx fy).
  assert (G10 := grad_bound (PERM host B) (fx - 1) fy (1 - fx) fy).
  assert (G01 := grad_bound (PERM host (A + 1)) fx (fy - 1) fx (1 - fy)).
  assert (G11 := grad_bound (PERM host (B + 1)) (fx - 1) (fy - 1) (1 - fx) (1 - fy)).
  destruct G00 as [? ?]; [split; lra | split; lra |].
  destruct G10 as [? ?]; [split; lra | split; lra |].
  destruct G01 as [? ?]; [split; lra | split; lra |].
  destruct G11 as [? ?]; [split; lra | split; lra |].
  split.
  - assert (Hneg : lerp (fade fy)
                  (lerp (fade fx) (- grad (PERM host A) fx fy 0) (- grad (PERM host B) (fx - 1) fy 0))
                  (lerp (fade fx) (- grad (PERM host (A + 1)) fx (fy - 1) 0)
                                  (- grad (PERM host (B + 1)) (fx - 1) (fy - 1) 0)) <= 1).
    { apply (noise2D_cell_bound (fade fx) (fade fy) fx fy);
        try reflexivity; lra. }
    assert (E : lerp (fade fy)
                  (lerp (fade fx) (- grad (PERM host A) fx fy 0) (- grad (PERM host B) (fx - 1) fy 0))
                  (lerp (fade fx) (- grad (PERM host (A + 1)) fx (fy - 1) 0)
                                  (- grad (PERM host (B + 1)) (fx - 1) (fy - 1) 0))
                == - lerp (fade fy)
                  (lerp (fade fx) (grad (PERM host A) fx fy 0) (grad (PERM host B) (fx - 1) fy 0))
                  (lerp (fade fx) (grad (PERM host (A + 1)) fx (fy - 1) 0)
                                  (grad (PERM host (B + 1)) (fx - 1) (fy - 1) 0)))
      by (unfold lerp; ring).
    lra.
  - apply (noise2D_cell_bound (fade fx) (fade fy) fx fy); try reflexivity; lra.
Qed.

(** X3: the noise field stays within [-1, 1], whatever the table holds. *)
Theorem noise2D_bounded (host : Host) (x y : Q) :
  - (1) <= noise2D host x y <= 1.
Proof. exact (noise2D_range host x y). Qed.

Lemma Qfloor_add_Z (x : Q) (k : Z) : Qfloor (x + inject_Z k) = (Qfloor x + k)%Z.
Proof.
  pose proof (Qfloor_le x) as L1. pose proof (Qlt_floor x) as U1.
  pose proof (Qfloor_le (x + inject_Z k)) as L2. pose proof (Qlt_floor (x + inject_Z k)) as U2.
  rewrite inject_Z_plus in U1, U2. change (inject_Z 1) with 1 in U1, U2.
  assert (A : (Qfloor (x + inject_Z k) < Qfloor x + k + 1)%Z /\
              (Qfloor x + k < Qfloor (x + inject_Z k) + 1)%Z).
  { rewrite !Zlt_Qlt, !inject_Z_plus. change (inject_Z 1) with 1.
    remember (inject_Z (Qfloor (x + inject_Z k))) as a.
    remember (inject_Z (Qfloor x)) as b. remember (inject_Z k) as c.
    split; lra. }
  lia.
Qed.

Lemma land_255_period (n k : Z) : Z.land (n + 256 * k) 255 = Z.land n 255.
Proof.
  change 255%Z with (Z.ones 8). rewrite !Z.land_ones by lia.
  change (2 ^ 8)%Z with 256%Z. rewrite Z.mul_comm. apply Z.mod_add. lia.
Qed.

Lemma land_255_range (n : Z) : (0 <= Z.land n 255 <= 255)%Z.
Proof.
  change (Z.land n 255) with (Z.land n (Z.ones 8)). rewrite Z.land_ones by lia.
  change (2 ^ 8)%Z with 256%Z. pose proof (Z.mod_pos_bound n 256). lia.
Qed.

(** The value of the field depends on the numbers, not on the fractions that
    write them. *)
Lemma noise2D_compat (host : Host) (x x' y y' : Q) :
  x == x' -> y == y' -> noise2D host x y == noise2D host x' y'.
Proof.
  intros Hx Hy. unfold noise2D, Math_floor.
  rewrite <- (Qfloor_comp x x' Hx), <- (Qfloor_comp y y' Hy).
  assert (Fx : x - inject_Z (Qfloor x) == x' - inject_Z (Qfloor x))
    by (apply Qplus_comp; [exact Hx | reflexivity]).
  assert (Fy : y - inject_Z (Qfloor y) == y' - inject_Z (Qfloor y))
    by (apply Qplus_comp; [exact Hy | reflexivity]).
  repeat (first [apply lerp_compat | apply fade_compat | apply grad_compat]);
    rewrite ?Fx, ?Fy; reflexivity.
Qed.

Lemma noise2D_shift (host : Host) (x y : Q) (k l : Z) :
  noise2D host (x + inject_Z (256 * k)) (y + inject_Z (256 * l)) == noise2D host x y.
Proof.
  unfold noise2D, Math_floor. rewrite !Qfloor_add_Z, !land_255_period.
  assert (Fx : x + inject_Z (256 * k) - inject_Z (Qfloor x + 256 * k) == x - inject_Z (Qfloor x))
    by (rewrite inject_Z_plus; ring).
  assert (Fy : y + inject_Z (256 * l) - inject_Z (Qfloor y + 256 * l) == y - inject_Z (Qfloor y))
    by (rewrite inject_Z_plus; ring).
  repeat (first [apply lerp_compat | apply fade_compat | apply grad_compat]);
    rewrite ?Fx, ?Fy; reflexivity.
Qed.

(** X4: the field repeats every 256 units along both axes. *)
Theorem noise2D_periodic (host : Host) (x y : Q) (k l : Z) :
  noise2D host (x + inject_Z (256 * k)) (y + inject_Z (256 * l)) == noise2D host x y.
Proof. exact (noise2D_shift host x y k l). Qed.

Lemma lerp_at_0 (t a b : Q) : t == 0 -> lerp t a b == a.
Proof. intros H. unfold lerp. rewrite H. ring. Qed.

Lemma grad_at_0 (h : Z) : grad h 0 0 0 == 0.
Proof.
  unfold grad.
  destruct (Z.land h 15 <? 8)%Z, (Z.land h 15 <? 4)%Z,
    ((Z.land h 15 =? 12)%Z || (Z.land h 15 =? 14)%Z),
    (Z.land (Z.land h 15) 1 =? 0)%Z, (Z.land (Z.land h 15) 2 =? 0)%Z;
    reflexivity.
Qed.

Lemma noise2D_zero_at_lattice (host : Host) (m n : Z) :
  noise2D host (inject_Z m) (inject_Z n) == 0.
Proof.
  unfold noise2D, Math_floor. rewrite !Qfloor_Z.
  assert (Fx : inject_Z m - inject_Z m == 0) by ring.
  assert (Fy : inject_Z n - inject_Z n == 0) by ring.
  rewrite lerp_at_0 by (rewrite (fade_compat _ 0 Fy); reflexivity).
  rewrite lerp_at_0 by (rewrite (fade_compat _ 0 Fx); reflexivity).
  rewrite (grad_compat _ _ 0 _ 0 0 0 Fx Fy) by reflexivity.
  apply grad_at_0.
Qed.

(** X5: the field vanishes at every point with whole coordinates. *)
Theorem noise2D_lattice (host : Host) (m n : Z) :
  noise2D host (inject_Z m) (inject_Z n) == 0.
Proof. exact (noise2D_zero_at_lattice host m n). Qed.

(** ** The permutation table *)

Lemma noise2D_reads_byte_table (host : Host) (x y : Q) :
  byte_table (PERM host) ->
  Forall (fun i => (0 <= i < 512)%Z) (noise2D_reads host x y).
Proof.
  intros Hb. unfold noise2D_reads.
  pose proof (land_255_range (Qfloor x)) as HX.
  pose proof (land_255_range (Qfloor y)) as HY.
  set (X := Z.land (Qfloor x) 255) in *. set (Y := Z.land (Qfloor y) 255) in *.
  pose proof (Hb X ltac:(lia)) as HA. pose proof (Hb (X + 1)%Z ltac:(lia)) as HB.
  repeat constructor; lia.
Qed.

Lemma length_set_nth (l : list Z) (i : nat) (v : Z) :
  List.length (set_nth l i v) = List.length l.
Proof.
  revert i. induction l as [| h t IH]; intros [| i]; simpl; try reflexivity.
  rewrite IH. reflexivity.
Qed.

Lemma nth_set_nth (l : list Z) (i j : nat) (v d : Z) :
  (i < List.length l)%nat ->
  nth j (set_nth l i v) d = if Nat.eqb j i then v else nth j l d.
Proof.
  revert i j. induction l as [| h t IH]; intros i j Hi; simpl in Hi; [lia |].
  destruct i as [| i], j as [| j]; simpl; try reflexivity.
  apply IH. lia.
Qed.

Lemma shuffle_index (rnd : Q) (i : Z) :
  0 <= rnd -> rnd < 1 -> (0 < i)%Z -> (0 <= Qfloor (rnd * inject_Z (i + 1)) <= i)%Z.
Proof.
  intros H0 H1 Hi.
  assert (Hp : 0 < inject_Z (i + 1)).
  { change 0 with (inject_Z 0). rewrite <- Zlt_Qlt. lia. }
  remember (inject_Z (i + 1)) as c eqn:Ec.
  assert (L : 0 <= rnd * c) by (apply Qmult_le_0_compat; lra).
  assert (U : rnd * c < c).
  { assert (0 < (1 - rnd) * c) by (apply Qmult_lt_0_compat; lra).
    assert (E : (1 - rnd) * c == c - rnd * c) by ring. lra. }
  split.
  - change 0%Z with (Qfloor 0). apply Qfloor_resp_le. exact L.
  - assert (Qfloor (rnd * c) < i + 1)%Z; [| lia].
    rewrite Zlt_Qlt, <- Ec. eapply Qle_lt_trans; [apply Qfloor_le | exact U].
Qed.

Lemma shuffle_step_nth (P : list Z) (i r : nat) (rnd : Q) :
  bytes256 P -> (i < 256)%nat -> (r < 256)%nat ->
  Qfloor (rnd * inject_Z (Z.of_nat i + 1)) = Z.of_nat r ->
  List.length (shuffle_step P (Z.of_nat i) rnd) = 256%nat /\
  forall j, (j < 256)%nat ->
    nth j (shuffle_step P (Z.of_nat i) rnd) 0%Z = nth (swapped i r j) P 0%Z.
Proof.
  intros (Hlen & Hrange & _) Hi Hr Er. unfold shuffle_step. rewrite Er.
  unfold Uint8Array_set, Uint8Array_get.
  destruct (Z.ltb_spec (Z.of_nat i) 0); [lia |].
  destruct (Z.ltb_spec (Z.of_nat r) 0); [lia |].
  rewrite !Nat2Z.id.
  assert (Hb : forall k, (k < 256)%nat -> (nth k P 0 mod 256 = nth k P 0)%Z).
  { intros k Hk. apply Z.mod_small. rewrite Forall_forall in Hrange.
    apply Hrange, nth_In. lia. }
  rewrite !Hb by assumption.
  split.
  - rewrite !length_set_nth. exact Hlen.
  - intros j Hj. unfold swapped.
    rewrite nth_set_nth by (rewrite length_set_nth; lia).
    destruct (Nat.eqb_spec j r); [reflexivity |].
    rewrite nth_set_nth by lia.
    destruct (Nat.eqb_spec j i); reflexivity.
Qed.

Lemma swapped_lt (i r j : nat) :
  (i < 256)%nat -> (r < 256)%nat -> (j < 256)%nat -> (swapped i r j < 256)%nat.
Proof.
  intros. unfold swapped. destruct (Nat.eqb j r), (Nat.eqb j i); assumption.
Qed.

Lemma swapped_inj (i r j k : nat) : swapped i r j = swapped i r k -> j = k.
Proof.
  unfold swapped.
  destruct (Nat.eqb_spec j r), (Nat.eqb_spec j i), (Nat.eqb_spec k r), (Nat.eqb_spec k i);
    intros; subst; congruence.
Qed.

Lemma shuffle_step_bytes256 (P : list Z) (i : nat) (rnd : Q) :
  bytes256 P -> (0 < i < 256)%nat -> 0 <= rnd -> rnd < 1 ->
  bytes256 (shuffle_step P (Z.of_nat i) rnd).
Proof.
  intros HP Hi H0 H1.
  pose proof (shuffle_index rnd (Z.of_nat i) H0 H1 ltac:(lia)) as Hr.
  set (r := Z.to_nat (Qfloor (rnd * inject_Z (Z.of_nat i + 1)))).
  destruct (shuffle_step_nth P i r rnd HP) as [Hlen Hnth]; [lia | lia | unfold r; lia |].
  destruct HP as (HlenP & Hrange & Hnd).
  split; [exact Hlen | split].
  - rewrite Forall_forall. intros v Hv.
    destruct (In_nth _ _ 0%Z Hv) as (j & Hj & <-). rewrite Hlen in Hj.
    rewrite Hnth by exact Hj. rewrite Forall_forall in Hrange.
    apply Hrange, nth_In. rewrite HlenP. apply swapped_lt; lia.
  - apply (NoDup_nth _ 0%Z). rewrite Hlen. intros j k Hj Hk E.
    rewrite !Hnth in E by assumption.
    apply (swapped_inj i r).
    rewrite (NoDup_nth _ 0%Z) in Hnd. apply Hnd; [| | exact E];
      rewrite HlenP; apply swapped_lt; lia.
Qed.

Lemma shuffle_from_bytes256 (rnd : nat -> Q) (n k : nat) (P : list Z) :
  unit_stream rnd -> (n < 256)%nat -> bytes256 P -> bytes256 (shuffle_from rnd n k P).
Proof.
  intros Hu. revert k P. induction n as [| n IH]; intros k P Hn HP; [exact HP |].
  cbn [shuffle_from]. apply IH; [lia |].
  destruct (Hu k). apply shuffle_step_bytes256; try assumption. lia.
Qed.

Lemma P_identity_bytes256 : bytes256 P_identity.
Proof.
  unfold bytes256, P_identity. split; [| split].
  - rewrite length_map, length_seq. reflexivity.
  - rewrite Forall_forall. intros v Hv. apply in_map_iff in Hv as (n & <- & Hn).
    apply in_seq in Hn. lia.
  - apply Finite.Injective_map_NoDup; [| apply seq_NoDup].
    intros a b. apply Nat2Z.inj.
Qed.

Lemma P_shuffled_bytes256 (rnd : nat -> Q) : unit_stream rnd -> bytes256 (P_shuffled rnd).
Proof.
  intros Hu. apply shuffle_from_bytes256; [exact Hu | lia | apply P_identity_bytes256].
Qed.

Lemma PERM_init_eq (rnd : nat -> Q) (i : Z) :
  (0 <= i < 512)%Z ->
  PERM_init rnd i = nth (Z.to_nat (i mod 256)) (P_shuffled rnd) 0%Z.
Proof.
  intros Hi. unfold PERM_init, PERM_table, Uint8Array_get at 1.
  destruct (Z.ltb_spec i 0); [lia |].
  rewrite (nth_indep _ 0%Z (Uint8Array_get (P_shuffled rnd) (Z.land (Z.of_nat 0) 255)))
    by (rewrite length_map, length_seq; lia).
  rewrite (map_nth (fun i => Uint8Array_get (P_shuffled rnd) (Z.land (Z.of_nat i) 255))).
  rewrite seq_nth by lia. cbn [Nat.add]. rewrite Z2Nat.id by lia.
  change (Z.land i 255) with (Z.land i (Z.ones 8)). rewrite Z.land_ones by lia.
  change (2 ^ 8)%Z with 256%Z. unfold Uint8Array_get.
  pose proof (Z.mod_pos_bound i 256 ltac:(lia)).
  destruct (Z.ltb_spec (i mod 256) 0); [lia | reflexivity].
Qed.

Lemma PERM_init_byte_table (rnd : nat -> Q) : unit_stream rnd -> byte_table (PERM_init rnd).
Proof.
  intros Hu i Hi. rewrite PERM_init_eq by exact Hi.
  destruct (P_shuffled_bytes256 rnd Hu) as (Hlen & Hrange & _).
  rewrite Forall_forall in Hrange.
  pose proof (Z.mod_pos_bound i 256 ltac:(lia)).
  assert (0 <= nth (Z.to_nat (i mod 256)) (P_shuffled rnd) 0 < 256)%Z; [| lia].
  apply Hrange, nth_In. lia.
Qed.

Lemma PERM_table_nth (rnd : nat -> Q) (k : nat) :
  nth k (PERM_table rnd) 0%Z = PERM_init rnd (Z.of_nat k).
Proof.
  unfold PERM_init, Uint8Array_get at 1.
  destruct (Z.ltb_spec (Z.of_nat k) 0); [lia |]. rewrite Nat2Z.id. reflexivity.
Qed.

Lemma constant_stream_unit : unit_stream (constant_stream (1 # 2)).
Proof. intros n. split; vm_compute; [discriminate | reflexivity]. Qed.

(** X1: the table holds a shuffle of 0..255, twice in a row. *)
Theorem PERM_table_shuffled (rnd : nat -> Q) :
  unit_stream rnd ->
  PERM_table rnd = P_shuffled rnd ++ P_shuffled rnd /\
  Permutation (P_shuffled rnd) P_identity.
Proof.
  intros Hu. destruct (P_shuffled_bytes256 rnd Hu) as (Hlen & Hrange & Hnd).
  split.
  - apply (nth_ext _ _ 0%Z 0%Z).
    + unfold PERM_table. rewrite length_map, length_seq, length_app, Hlen. reflexivity.
    + unfold PERM_table at 1. rewrite length_map, length_seq. intros k Hk.
      rewrite PERM_table_nth, PERM_init_eq by lia.
      destruct (Nat.lt_ge_cases k 256) as [Hlt | Hge].
      * rewrite app_nth1 by lia. rewrite Z.mod_small by lia. rewrite Nat2Z.id. reflexivity.
      * rewrite app_nth2 by lia. rewrite Hlen.
        replace (Z.of_nat k mod 256)%Z with (Z.of_nat (k - 256)).
        -- rewrite Nat2Z.id. reflexivity.
        -- apply (Z.mod_unique_pos _ _ 1); lia.
  - apply NoDup_Permutation_bis; [exact Hnd | |].
    + rewrite Hlen. unfold P_identity. rewrite length_map, length_seq. lia.
    + intros v Hv. rewrite Forall_forall in Hrange. specialize (Hrange v Hv).
      unfold P_identity. apply in_map_iff. exists (Z.to_nat v). split; [lia |].
      apply in_seq. lia.
Qed.

Lemma PERM_table_shuffled_witness :
  PERM_table (constant_stream (1 # 2)) =
    P_shuffled (constant_stream (1 # 2)) ++ P_shuffled (constant_stream (1 # 2)) /\
  Permutation (P_shuffled (constant_stream (1 # 2))) P_identity.
Proof. apply (PERM_table_shuffled (constant_stream (1 # 2))), constant_stream_unit. Defined.

(** X2: with the table built at start-up, [noise2D] reads inside the table. *)
Theorem noise2D_reads_in_table (host : Host) (rnd : nat -> Q) (x y : Q) :
  unit_stream rnd ->
  Forall (fun i => (0 <= i < 512)%Z) (noise2D_reads (started host rnd) x y).
Proof.
  intros Hu. apply noise2D_reads_byte_table. apply PERM_init_byte_table, Hu.
Qed.

Lemma noise2D_reads_in_table_witness :
  Forall (fun i => (0 <= i < 512)%Z)
    (noise2D_reads (started sampleHost (constant_stream (1 # 2))) (7 # 2) (- (5 # 3))).
Proof. apply noise2D_reads_in_table, constant_stream_unit. Defined.

(** ** The terrain *)

(** X6: the ground is never higher than 15.5 nor lower than -15.5. *)
Theorem getTerrainHeight_bounded (host : Host) (x z : Q) :
  - (31 # 2) <= getTerrainHeight host x z <= 31 # 2.
Proof.
  unfold getTerrainHeight.
  pose proof (noise2D_range host (x * (1 # 100)) (z * (1 # 100))).
  pose proof (noise2D_range host (x * (5 # 100)) (z * (5 # 100))).
  pose proof (noise2D_range host (x * (2 # 10)) (z * (2 # 10))).
  cbv zeta. split; lra.
Qed.

Lemma noise2D_scaled_periodic (host : Host) (x z f : Q) (p k l : Z) :
  inject_Z p * f == 256 ->
  noise2D host ((x + inject_Z (p * k)) * f) ((z + inject_Z (p * l)) * f)
  == noise2D host (x * f) (z * f).
Proof.
  intros Hp. rewrite <- (noise2D_shift host (x * f) (z * f) k l).
  apply noise2D_compat; rewrite !inject_Z_mult; change (inject_Z 256) with 256;
    rewrite <- Hp; ring.
Qed.

(** X7: in exact arithmetic, with the frequencies 0.01, 0.05 and 0.2 taken
    as these decimals, the terrain repeats every 25600 units along both axes.
    The doubles of the engine round the products [x * 0.01], [x * 0.05] and
    [x * 0.2], so there the two heights need not be equal. *)
Theorem getTerrainHeight_periodic (host : Host) (x z : Q) (k l : Z) :
  getTerrainHeight host (x + inject_Z (25600 * k)) (z + inject_Z (25600 * l))
  == getTerrainHeight host x z.
Proof.
  unfold getTerrainHeight. cbv zeta.
  rewrite (noise2D_scaled_periodic host x z (1 # 100) 25600 k l) by reflexivity.
  replace (25600 * k)%Z with (5120 * (5 * k))%Z by lia.
  replace (25600 * l)%Z with (5120 * (5 * l))%Z by lia.
  rewrite (noise2D_scaled_periodic host x z (5 # 100) 5120 (5 * k) (5 * l)) by reflexivity.
  replace (5120 * (5 * k))%Z with (1280 * (20 * k))%Z by lia.
  replace (5120 * (5 * l))%Z with (1280 * (20 * l))%Z by lia.
  rewrite (noise2D_scaled_periodic host x z (2 # 10) 1280 (20 * k) (20 * l)) by reflexivity.
  reflexivity.
Qed.

(** X8: the ground is at height zero wherever both coordinates are multiples
    of 100. *)
Theorem getTerrainHeight_lattice (host : Host) (m n : Z) :
  getTerrainHeight host (inject_Z (100 * m)) (inject_Z (100 * n)) == 0.
Proof.
  unfold getTerrainHeight. cbv zeta.
  assert (S : forall (f : Q) (c : Z), inject_Z 100 * f == inject_Z c ->
            noise2D host (inject_Z (100 * m) * f) (inject_Z (100 * n) * f) == 0).
  { intros f c Hc.
    rewrite (noise2D_compat host _ (inject_Z (c * m)) _ (inject_Z (c * n))).
    - apply noise2D_zero_at_lattice.
    - rewrite !inject_Z_mult, <- Hc. ring.
    - rewrite !inject_Z_mult, <- Hc. ring. }
  rewrite (S (1 # 100) 1%Z), (S (5 # 100) 5%Z), (S (2 # 10) 20%Z) by reflexivity.
  reflexivity.
Qed.

(** ** The store after a refresh *)

Lemma map_get_NoDup_In {V : Type} (m : list (Key * V)) (k : Key) (v : V) :
  NoDup (map fst m) -> In (k, v) m -> map_get m k = Some v.
Proof.
  induction m as [| [k0 v0] rest IH]; intros Hnd Hin; [destruct Hin |].
  inversion Hnd as [| ? ? Hnotin Hnd']; subst. simpl.
  destruct Hin as [E | Hin].
  - injection E as -> ->. rewrite key_eqb_refl. reflexivity.
  - destruct (key_eqb k k0) eqn:Ek.
    + apply key_eqb_eq in Ek. subst k0. exfalso. apply Hnotin.
      apply (in_map fst) in Hin. exact Hin.
    + apply IH; assumption.
Qed.

Lemma map_get_map_delete_other {V : Type} (m : list (Key * V)) (k0 k : Key) :
  k <> k0 -> map_get (map_delete m k0) k = map_get m k.
Proof.
  intros Hne. induction m as [| [k1 v1] rest IH]; [reflexivity |]. simpl.
  destruct (key_eqb k0 k1) eqn:E0.
  - apply key_eqb_eq in E0. subst k1.
    destruct (key_eqb k k0) eqn:E1; [apply key_eqb_eq in E1; contradiction | exact IH].
  - simpl. destruct (key_eqb k k1); [reflexivity | exact IH].
Qed.

Lemma map_has_get {V : Type} (m : list (Key * V)) (k : Key) :
  map_has m k = true -> exists v, map_get m k = Some v.
Proof. unfold map_has. destruct (map_get m k) as [v |]; [eauto | discriminate]. Qed.

Lemma refresh_store_ready (host : Host) (s : Engine) (p : Vector3) :
  resources_ready s ->
  throttled (set_camera_position p s) = false ->
  let needed := neededChunks (currentConfig s) (vx p) (vz p) in
  let s' := run_state (refresh host p) s in
  (forall k n, In (k, n) needed ->
     exists c, map_get (chunks s') k = Some c /\ lodLevel c = lod n) /\
  (forall k c, In (k, c) (chunks s') ->
     exists n, In (k, n) needed /\ lodLevel c = lod n).
Proof.
  intros R Ht needed s'. split.
  - intros k n Hin. unfold s', run_state. rewrite refresh_run.
    fold (run_state (updateChunks host) (set_camera_position p s)).
    destruct (updateChunks_applied host _ Ht) as [E _]. rewrite E. clear E.
    change (currentConfig (set_camera_position p s)) with (currentConfig s).
    change (camera_position (set_camera_position p s)) with p.
    change (chunks (set_camera_position p s)) with (chunks s).
    fold needed.
    set (s0 := set_lastUpdatePos p (set_camera_position p s)).
    set (s1 := run_state (forEach (chunks s) (unloadStale needed)) s0).
    assert (R1 : resources_ready s1).
    { eapply resources_ready_fixed; [apply unload_loop_fixed |].
      exact R. }
    destruct (map_has (chunks s1) k) eqn:Hhas.
    + destruct (map_has_get _ _ Hhas) as [c Hc].
      exists c. split.
      * apply load_loop_present; [apply neededChunks_keyed | exact Hc].
      * pose proof (map_get_In _ _ _ Hc) as Hin1.
        apply unload_loop in Hin1. destruct Hin1 as [Hin0 Hall].
        destruct (Hall c Hin0) as (n' & Hn' & Hl).
        unfold needed in Hn', Hin.
        rewrite (map_get_NoDup_In _ _ _ (neededChunks_NoDup _ _ _) Hin) in Hn'.
        injection Hn' as <-. symmetry. exact Hl.
    + apply (load_loop_loads host needed (neededChunks_valid _ _ _)
               (neededChunks_NoDup _ _ _) s1 k n R1 Hin Hhas).
  - intros k c Hin. unfold s', run_state in Hin. rewrite refresh_run in Hin.
    apply (updateChunks_store host _ Ht k c Hin).
Qed.

(** X9: after an applied refresh the store holds exactly the needed set, each
    chunk at the level the needed set gives it. *)
Theorem refresh_store_exact (host : Host) (s : Engine) (p : Vector3) :
  reachable host s ->
  throttled (set_camera_position p s) = false ->
  let needed := neededChunks (currentConfig s) (vx p) (vz p) in
  let s' := run_state (refresh host p) s in
  (forall k n, In (k, n) needed ->
     exists c, map_get (chunks s') k = Some c /\ lodLevel c = lod n) /\
  (forall k c, In (k, c) (chunks s') ->
     exists n, In (k, n) needed /\ lodLevel c = lod n).
Proof.
  intros Hr Ht. apply refresh_store_ready; [| exact Ht].
  apply (reachable_sound host s Hr).
Qed.

Lemma refresh_store_exact_witness :
  let s := constructed sampleHost bareFields in
  let p := vec3 0 15 40 in
  let needed := neededChunks (currentConfig s) (vx p) (vz p) in
  let s' := run_state (refresh sampleHost p) s in
  (forall k n, In (k, n) needed ->
     exists c, map_get (chunks s') k = Some c /\ lodLevel c = lod n) /\
  (forall k c, In (k, c) (chunks s') ->
     exists n, In (k, n) needed /\ lodLevel c = lod n).
Proof.
  apply (refresh_store_exact sampleHost (constructed sampleHost bareFields) (vec3 0 15 40)).
  - apply reachable_constructed.
  - vm_compute. reflexivity.
Defined.

(** ** Keys of the store *)

Lemma distinct_keys_refl (s : Engine) : distinct_keys s s.
Proof. unfold distinct_keys. auto. Qed.

Lemma distinct_keys_trans (a b c : Engine) :
  distinct_keys a b -> distinct_keys b c -> distinct_keys a c.
Proof. unfold distinct_keys. auto. Qed.

Lemma In_keys_map_delete {V : Type} (m : list (Key * V)) (k k1 : Key) :
  In k1 (map fst (map_delete m k)) -> In k1 (map fst m).
Proof.
  induction m as [| [k0 v0] rest IH]; simpl; [tauto |].
  destruct (key_eqb k k0); simpl; tauto.
Qed.

Lemma map_delete_NoDup {V : Type} (m : list (Key * V)) (k : Key) :
  NoDup (map fst m) -> NoDup (map fst (map_delete m k)).
Proof.
  induction m as [| [k0 v0] rest IH]; simpl; intros Hnd; [exact Hnd |].
  inversion Hnd as [| ? ? Hnotin Hnd']; subst.
  destruct (key_eqb k k0); [apply IH, Hnd' |].
  simpl. constructor; [| apply IH, Hnd'].
  intros H. apply Hnotin. eapply In_keys_map_delete, H.
Qed.

Lemma unloadChunk_distinct_keys (key : Key) : keeps distinct_keys (unloadChunk key).
Proof.
  intros s Hnd. rewrite unloadChunk_chunks.
  destruct (map_has (chunks s) key); [apply map_delete_NoDup, Hnd | exact Hnd].
Qed.

Lemma loadChunk_distinct_keys (host : Host) (x z : Q) (lodIndex : Z) :
  keeps distinct_keys (loadChunk host x z lodIndex).
Proof.
  intros s Hnd. destruct (loadChunk_chunks host x z lodIndex s) as [E | (c & E & _)];
    rewrite E; [exact Hnd | apply map_set_NoDup, Hnd].
Qed.

Lemma unloadStale_distinct_keys (needed : list (Key * Needed)) (e : Key * ChunkData) :
  keeps distinct_keys (unloadStale needed e).
Proof.
  destruct e as [key currentData]. unfold unloadStale.
  destruct (map_get needed key) as [n |]; [| apply unloadChunk_distinct_keys].
  destruct (negb (lod n =? lodLevel currentData)%Z);
    [apply unloadChunk_distinct_keys | apply (keeps_ret _ distinct_keys_refl)].
Qed.

Lemma loadMissing_distinct_keys (host : Host) (e : Key * Needed) :
  keeps distinct_keys (loadMissing host e).
Proof.
  destruct e as [key data]. unfold loadMissing.
  apply (keeps_bind _ distinct_keys_trans); [apply (keeps_get _ distinct_keys_refl) |].
  intros this. destruct (negb (map_has (chunks this) key));
    [apply loadChunk_distinct_keys | apply (keeps_ret _ distinct_keys_refl)].
Qed.

Lemma updateChunks_distinct_keys (host : Host) : keeps distinct_keys (updateChunks host).
Proof.
  intros s. destruct (throttled s) eqn:Ht.
  - unfold run_state. rewrite updateChunks_throttled by exact Ht. apply distinct_keys_refl.
  - destruct (updateChunks_applied host s Ht) as [E _]. rewrite E.
    eapply distinct_keys_trans;
      [| apply (keeps_forEach _ distinct_keys_refl distinct_keys_trans);
         intros a _; apply loadMissing_distinct_keys].
    eapply distinct_keys_trans;
      [| apply (keeps_forEach _ distinct_keys_refl distinct_keys_trans);
         intros a _; apply unloadStale_distinct_keys].
    unfold distinct_keys. simpl. auto.
Qed.

Lemma reachable_distinct_keys (host : Host) (s : Engine) :
  reachable host s -> NoDup (map fst (chunks s)).
Proof.
  induction 1 as [config | s p _ IH | s config _ IH | s x z lodIndex _ IH | s key _ IH].
  - unfold constructed.
    destruct (initResources_rest host config (emptyEngine config)) as [E _].
    rewrite E. constructor.
  - unfold run_state. rewrite refresh_run.
    apply (updateChunks_distinct_keys host (set_camera_position p s)). exact IH.
  - destruct (needsRebuild (currentConfig s) config) eqn:En.
    + destruct (updateConfig_structural host config s En) as [E _]. rewrite E.
      apply updateChunks_distinct_keys. simpl. constructor.
    + unfold run_state. rewrite updateConfig_cosmetic by exact En. exact IH.
  - apply loadChunk_distinct_keys, IH.
  - apply unloadChunk_distinct_keys, IH.
Qed.

(** ** Chunks that stay *)

Lemma unloadStale_keeps_other (needed : list (Key * Needed)) (e : Key * ChunkData)
    (k : Key) (s : Engine) :
  fst e <> k ->
  map_get (chunks (run_state (unloadStale needed e) s)) k = map_get (chunks s) k.
Proof.
  destruct e as [key currentData]. simpl. intros Hne. unfold unloadStale.
  assert (U : map_get (chunks (run_state (unloadChunk key) s)) k = map_get (chunks s) k).
  { rewrite unloadChunk_chunks. destruct (map_has (chunks s) key); [| reflexivity].
    apply map_get_map_delete_other. congruence. }
  destruct (map_get needed key) as [n |]; [| exact U].
  destruct (negb (lod n =? lodLevel currentData)%Z); [exact U | reflexivity].
Qed.

Lemma unload_loop_keeps (needed : list (Key * Needed)) (k : Key) (n : Needed)
    (entries : list (Key * ChunkData)) :
  map_get needed k = Some n ->
  (forall c0, In (k, c0) entries -> lodLevel c0 = lod n) ->
  forall s,
    map_get (chunks (run_state (forEach entries (unloadStale needed)) s)) k
    = map_get (chunks s) k.
Proof.
  intros Hn. induction entries as [| [k0 c0] rest IH]; intros Hall s; [reflexivity |].
  cbn [forEach]. rewrite run_state_bind.
  rewrite IH by (intros c1 H1; apply Hall; right; exact H1).
  destruct (key_eqb k0 k) eqn:Ek.
  - apply key_eqb_eq in Ek. subst k0. unfold unloadStale. rewrite Hn.
    rewrite (Hall c0 (or_introl eq_refl)), Z.eqb_refl. reflexivity.
  - apply unloadStale_keeps_other. simpl. apply key_eqb_neq, Ek.
Qed.

Lemma unloadStale_events (needed : list (Key * Needed)) (e : Key * ChunkData) (s : Engine)
    (ev : Event) :
  In ev (run_events (unloadStale needed e) s) ->
  In ev (run_events (unloadChunk (fst e)) s).
Proof.
  destruct e as [key currentData]. simpl. unfold unloadStale.
  destruct (map_get needed key) as [n |]; [| auto].
  destruct (negb (lod n =? lodLevel currentData)%Z); [auto | intros []].
Qed.

Lemma load_loop_only_loads (host : Host) (needed : list (Key * Needed)) :
  forall (s : Engine) (ev : Event),
    In ev (run_events (forEach needed (loadMissing host)) s) ->
    exists x z l, ev = Call_loadChunk x z l.
Proof.
  induction needed as [| [k d] rest IH]; intros s ev H; [destruct H |].
  cbn [forEach] in H. rewrite run_events_bind in H. apply in_app_or in H.
  destruct H as [H | H]; [| eapply IH, H].
  rewrite loadMissing_events in H. destruct (map_has (chunks s) k); [destruct H |].
  destruct H as [<- | []]. eauto.
Qed.

Lemma unload_loop_spares (needed : list (Key * Needed)) (k : Key) (n : Needed)
    (entries : list (Key * ChunkData)) :
  map_get needed k = Some n ->
  (forall c0, In (k, c0) entries -> lodLevel c0 = lod n) ->
  forall s, ~ In (Call_unloadChunk k) (run_events (forEach entries (unloadStale needed)) s).
Proof.
  intros Hn. induction entries as [| [k0 c0] rest IH]; intros Hall s H; [destruct H |].
  cbn [forEach] in H. rewrite run_events_bind in H. apply in_app_or in H.
  destruct H as [H | H].
  - destruct (key_eqb k0 k) eqn:Ek.
    + apply key_eqb_eq in Ek. subst k0. unfold unloadStale in H. rewrite Hn in H.
      rewrite (Hall c0 (or_introl eq_refl)), Z.eqb_refl in H. destruct H.
    + apply unloadStale_events in H. simpl in H. rewrite unloadChunk_events in H.
      destruct H as [E | H].
      * injection E as ->. rewrite key_eqb_refl in Ek. discriminate.
      * apply in_map_iff in H. destruct H as (o & Eo & _). discriminate.
  - revert H. apply IH. intros c1 H1. apply Hall. right. exact H1.
Qed.

Lemma is_some_inv {A : Type} (o : option A) : is_some o = true -> exists a, o = Some a.
Proof. destruct o as [a |]; [eauto | discriminate]. Qed.

Lemma option_map_eq_inv {A B C : Type} (f : A -> C) (g : B -> C)
    (o1 : option A) (o2 : option B) (a : A) (b : B) :
  option_map f o1 = option_map g o2 -> o1 = Some a -> o2 = Some b -> f a = g b.
Proof. intros H -> ->. injection H. auto. Qed.

(** X10: a chunk that is still needed at its level is kept as it is: the same
    entry stays in the store and the refresh does not unload it. *)
Theorem refresh_keeps_needed (host : Host) (s : Engine) (p : Vector3)
    (k : Key) (c : ChunkData) (n : Needed) :
  reachable host s ->
  map_get (chunks s) k = Some c ->
  In (k, n) (neededChunks (currentConfig s) (vx p) (vz p)) ->
  lod n = lodLevel c ->
  map_get (chunks (run_state (refresh host p) s)) k = Some c /\
  ~ In (Call_unloadChunk k) (run_events (refresh host p) s).
Proof.
  intros Hr Hc Hin Hl. unfold run_state, run_events. rewrite refresh_run.
  fold (run_state (updateChunks host) (set_camera_position p s)).
  fold (run_events (updateChunks host) (set_camera_position p s)).
  destruct (throttled (set_camera_position p s)) eqn:Ht.
  - unfold run_state, run_events. rewrite updateChunks_throttled by exact Ht.
    simpl. split; [exact Hc | tauto].
  - destruct (updateChunks_applied host _ Ht) as [Es Ee]. rewrite Es, Ee. clear Es Ee.
    change (currentConfig (set_camera_position p s)) with (currentConfig s).
    change (camera_position (set_camera_position p s)) with p.
    change (chunks (set_camera_position p s)) with (chunks s).
    set (needed := neededChunks (currentConfig s) (vx p) (vz p)) in *.
    set (s0 := set_lastUpdatePos p (set_camera_position p s)).
    assert (Hn : map_get needed k = Some n)
      by (apply map_get_NoDup_In; [apply neededChunks_NoDup | exact Hin]).
    assert (Hall : forall c0, In (k, c0) (chunks s) -> lodLevel c0 = lod n).
    { intros c0 H0.
      rewrite (map_get_NoDup_In _ _ _ (reachable_distinct_keys host s Hr) H0) in Hc.
      injection Hc as ->. symmetry. exact Hl. }
    split.
    + apply load_loop_present; [apply neededChunks_keyed |].
      rewrite (unload_loop_keeps needed k n (chunks s) Hn Hall s0). exact Hc.
    + intros H. apply in_app_or in H. destruct H as [H | H].
      * exact (unload_loop_spares needed k n (chunks s) Hn Hall s0 H).
      * apply load_loop_only_loads in H. destruct H as (x & z & l & E). discriminate.
Qed.

Lemma refresh_keeps_needed_witness :
  let s := run_state (refresh sampleHost (vec3 0 15 0)) (constructed sampleHost bareFields) in
  let p := vec3 30 15 0 in
  let k := getChunkKey 0 0 in
  exists c,
    map_get (chunks s) k = Some c /\
    map_get (chunks (run_state (refresh sampleHost p) s)) k = Some c /\
    ~ In (Call_unloadChunk k) (run_events (refresh sampleHost p) s).
Proof.
  intros s p k.
  assert (Hl : option_map lod (map_get (neededChunks (currentConfig s) (vx p) (vz p)) k)
               = option_map lodLevel (map_get (chunks s) k))
    by (vm_compute; reflexivity).
  assert (Hc : is_some (map_get (chunks s) k) = true) by (vm_compute; reflexivity).
  assert (Hn : is_some (map_get (neededChunks (currentConfig s) (vx p) (vz p)) k) = true)
    by (vm_compute; reflexivity).
  pose proof (is_some_inv _ Hc) as [c Ec].
  pose proof (is_some_inv _ Hn) as [n En].
  exists c. split; [exact Ec |].
  apply (refresh_keeps_needed sampleHost s p k c n).
  - apply reachable_refresh, reachable_constructed.
  - exact Ec.
  - apply map_get_In, En.
  - exact (option_map_eq_inv _ _ _ _ _ _ Hl En Ec).
Defined.

(** ** The scene graph *)

Lemma driven_reachable (host : Host) (s : Engine) : driven host s -> reachable host s.
Proof.
  induction 1; [apply reachable_constructed | apply reachable_refresh
               | apply reachable_updateConfig | apply reachable_loadChunk
               | apply reachable_unloadChunk]; assumption.
Qed.

Lemma same_scene_refl (s : Engine) : same_scene s s.
Proof. split; reflexivity. Qed.

Lemma same_scene_trans (a b c : Engine) : same_scene a b -> same_scene b c -> same_scene a c.
Proof. unfold same_scene. intros [? ?] [? ?]. split; congruence. Qed.

Lemma genBlades_scene (host : Host) (n : nat) (x z : Q) :
  keeps same_scene (genBlades host n x z).
Proof.
  induction n as [| n IH]; simpl; unfold randomRange;
    keeps_steps same_scene_refl same_scene_trans; try exact IH;
    intros s; split; reflexivity.
Qed.

Lemma buildGround_scene (this : Engine) (x z : Q) (groundMat : Material) (s : Engine) :
  let m := run_value (buildGround this x z groundMat) s in
  let s1 := run_state (buildGround this x z groundMat) s in
  chunkGroup s1 = chunkGroup s ++ [mesh_id m] /\
  (next_object s <= mesh_id m < next_object s1)%nat.
Proof.
  unfold buildGround, bind, new_object, chunkGroup_add, modify, ret, run_value, run_state.
  destruct (truthy (lodDebug (currentConfig this))); simpl; split; (reflexivity || lia).
Qed.

Lemma buildTrees_scene (host : Host) (this : Engine) (x z : Q) (lodIndex : Z) (s : Engine) :
  let v := run_value (buildTrees host this x z lodIndex) s in
  let s1 := run_state (buildTrees host this x z lodIndex) s in
  match v with
  | Some t =>
      chunkGroup s1 = chunkGroup s ++ [imesh_id (trunk t); imesh_id (foliage t)] /\
      (next_object s <= imesh_id (trunk t) < imesh_id (foliage t))%nat /\
      (imesh_id (foliage t) < next_object s1)%nat
  | None => chunkGroup s1 = chunkGroup s /\ next_object s1 = next_object s
  end.
Proof.
  unfold buildTrees.
  destruct (treeData host this x z lodIndex) as [| m ms]; [split; reflexivity |].
  destruct (treeTrunkGeo this); [| split; reflexivity].
  destruct (treeTrunkMat this); [| split; reflexivity].
  destruct (treeFoliageGeo this); [| split; reflexivity].
  destruct (treeFoliageMat this); [| split; reflexivity].
  unfold bind, new_object, chunkGroup_add, modify, ret, run_value, run_state. simpl.
  rewrite <- app_assoc. simpl. repeat split; lia.
Qed.

Lemma buildGrass_scene (host : Host) (this : Engine) (x z : Q) (lodIndex : Z)
    (lodSettings : LODLevel) (geometry : nat) (grassMat : Material) (s : Engine) :
  let g := run_value (buildGrass host this x z lodIndex lodSettings geometry grassMat) s in
  let s1 := run_state (buildGrass host this x z lodIndex lodSettings geometry grassMat) s in
  chunkGroup s1 = chunkGroup s ++ (if (imesh_count g >? 0)%Z then [imesh_id g] else []) /\
  (next_object s <= imesh_id g < next_object s1)%nat.
Proof.
  unfold buildGrass.
  destruct (chunkBladeCount (currentConfig this) lodIndex lodSettings >? 0)%Z eqn:Eb.
  - rewrite run_value_bind, run_state_bind.
    destruct (genBlades_scene host
                (Z.to_nat (chunkBladeCount (currentConfig this) lodIndex lodSettings)) x z s)
      as [Eg En].
    set (sb := run_state (genBlades host _ x z) s) in *.
    set (bl := run_value (genBlades host _ x z) s).
    unfold bind, new_object, chunkGroup_add, modify, ret, run_value, run_state. simpl.
    rewrite Eb, Eg, En. split; [reflexivity | lia].
  - unfold bind, new_object, ret, run_value, run_state. simpl.
    rewrite app_nil_r. split; [reflexivity | lia].
Qed.

(** What a complete run of [loadChunk] does to the store, the scene graph
    and the allocator. *)
Lemma loadChunk_scene (host : Host) (x z : Q) (lodIndex : Z) (s : Engine) :
  resources_ready s -> (0 <= lodIndex < 3)%Z ->
  let s' := run_state (loadChunk host x z lodIndex) s in
  exists c,
    chunks s' = map_set (chunks s) (getChunkKey x z) c /\
    lodLevel c = lodIndex /\
    chunkGroup s' = chunkGroup s ++ chunk_meshes c /\
    NoDup (chunk_ids c) /\
    (forall o, In o (chunk_ids c) -> (next_object s <= o < next_object s')%nat) /\
    (next_object s <= next_object s')%nat.
Proof.
  intros R Hl s'.
  destruct (resources_ready_nth s lodIndex R Hl)
    as (geometry & lodSettings & grassMat & groundMat & Eg & El & Egm & Egd).
  pose proof (loadChunk_run host x z lodIndex s geometry lodSettings grassMat groundMat
                Hl Eg El Egm Egd) as Erun.
  cbv zeta in Erun. unfold s'. rewrite Erun. clear Erun.
  set (s1 := run_state (buildGround s x z groundMat) s).
  set (s2 := run_state (buildTrees host s x z lodIndex) s1).
  set (s3 := run_state (buildGrass host s x z lodIndex lodSettings geometry grassMat) s2).
  destruct (buildGround_scene s x z groundMat s) as [G1 G2]. fold s1 in G1, G2.
  pose proof (buildTrees_scene host s x z lodIndex s1) as T. cbv zeta in T. fold s2 in T.
  destruct (buildGrass_scene host s x z lodIndex lodSettings geometry grassMat s2) as [B1 B2].
  fold s3 in B1, B2.
  pose proof (buildGround_chunks s x z groundMat s) as C1. fold s1 in C1.
  pose proof (buildTrees_chunks host s x z lodIndex s1) as C2. fold s2 in C2.
  pose proof (buildGrass_chunks host s x z lodIndex lodSettings geometry grassMat s2) as C3.
  fold s3 in C3. unfold same_chunks in C1, C2, C3.
  eexists. split; [| split; [| split; [| split; [| split]]]].
  - cbn [chunks set_chunks]. rewrite C3, C2, C1. reflexivity.
  - reflexivity.
  - cbn [chunkGroup set_chunks]. unfold chunk_meshes. cbn [ground trees grass].
    rewrite B1. destruct (run_value (buildTrees host s x z lodIndex) s1) as [t |].
    + destruct T as (T1 & _). rewrite T1, G1. rewrite <- !app_assoc. reflexivity.
    + destruct T as (T1 & _). rewrite T1, G1. rewrite <- !app_assoc. reflexivity.
  - unfold chunk_ids. cbn [ground trees grass].
    destruct (run_value (buildTrees host s x z lodIndex) s1) as [t |].
    + destruct T as (_ & T2 & T3). cbn [app].
      repeat constructor; simpl; lia.
    + destruct T as (_ & T2). cbn [app]. repeat constructor; simpl; lia.
  - intros o Ho. cbn [next_object set_chunks]. unfold chunk_ids in Ho.
    cbn [ground trees grass] in Ho.
    destruct (run_value (buildTrees host s x z lodIndex) s1) as [t |].
    + destruct T as (_ & T2 & T3). simpl in Ho. lia.
    + destruct T as (_ & T2). simpl in Ho. lia.
  - cbn [next_object set_chunks].
    destruct (run_value (buildTrees host s x z lodIndex) s1) as [t |].
    + destruct T as (_ & T2 & T3). lia.
    + destruct T as (_ & T2). lia.
Qed.

Lemma filter_filter {A : Type} (p q : A -> bool) (l : list A) :
  filter q (filter p l) = filter (fun a => p a && q a) l.
Proof.
  induction l as [| a l IH]; [reflexivity |]. simpl.
  destruct (p a); simpl; [destruct (q a) |]; rewrite IH; reflexivity.
Qed.

Lemma unloadChunk_scene (key : Key) (s : Engine) (c : ChunkData) :
  map_get (chunks s) key = Some c ->
  let s' := run_state (unloadChunk key) s in
  chunks s' = map_delete (chunks s) key /\
  chunkGroup s' = remove_ids (chunk_ids c) (chunkGroup s) /\
  next_object s' = next_object s.
Proof.
  intros Hc. run_unloadChunk. rewrite Hc. unfold remove_ids, chunk_ids. simpl.
  destruct (instanceof_MeshBasicMaterial (mesh_material (ground c)));
    destruct (trees c) as [t |]; simpl; (split; [reflexivity | split; [| reflexivity]]);
    rewrite !filter_filter; apply filter_ext; intros o;
    repeat match goal with |- context [Nat.eqb ?a ?b] => destruct (Nat.eqb a b) end;
    reflexivity.
Qed.

Lemma unloadChunk_absent (key : Key) (s : Engine) :
  map_get (chunks s) key = None -> run_state (unloadChunk key) s = s.
Proof. intros Hc. run_unloadChunk. rewrite Hc. reflexivity. Qed.

Lemma remove_ids_app (ids l1 l2 : list nat) :
  remove_ids ids (l1 ++ l2) = remove_ids ids l1 ++ remove_ids ids l2.
Proof. apply filter_app. Qed.

Lemma remove_ids_all (ids l : list nat) :
  incl l ids -> remove_ids ids l = [].
Proof.
  intros Hincl. induction l as [| a l IH]; [reflexivity |]. simpl.
  assert (E : existsb (Nat.eqb a) ids = true).
  { apply existsb_exists. exists a. split; [apply Hincl; left; reflexivity | apply Nat.eqb_refl]. }
  rewrite E. simpl. apply IH. intros b Hb. apply Hincl. right. exact Hb.
Qed.

Lemma remove_ids_none (ids l : list nat) :
  (forall o, In o l -> ~ In o ids) -> remove_ids ids l = l.
Proof.
  intros Hd. induction l as [| a l IH]; [reflexivity |]. simpl.
  assert (E : existsb (Nat.eqb a) ids = false).
  { apply not_true_iff_false. intros H. apply existsb_exists in H.
    destruct H as (b & Hb & Eb). apply Nat.eqb_eq in Eb. subst b.
    apply (Hd a); [left; reflexivity | exact Hb]. }
  rewrite E. simpl. f_equal. apply IH. intros o Ho. apply Hd. right. exact Ho.
Qed.

Lemma chunk_meshes_ids (c : ChunkData) : incl (chunk_meshes c) (chunk_ids c).
Proof.
  unfold chunk_meshes, chunk_ids. intros o [<- | Ho]; [left; reflexivity |].
  right. apply in_app_or in Ho. apply in_or_app. destruct Ho as [Ho | Ho]; [left; exact Ho |].
  right. destruct (imesh_count (grass c) >? 0)%Z; [exact Ho | destruct Ho].
Qed.

Lemma map_delete_absent {V : Type} (m : list (Key * V)) (k : Key) :
  ~ In k (map fst m) -> map_delete m k = m.
Proof.
  induction m as [| [k0 v0] rest IH]; intros Hn; [reflexivity |]. simpl.
  destruct (key_eqb k k0) eqn:E.
  - apply key_eqb_eq in E. subst k0. exfalso. apply Hn. left. reflexivity.
  - f_equal. apply IH. intros H. apply Hn. right. exact H.
Qed.

Lemma In_flat_map_ids (m : list (Key * ChunkData)) (k : Key) (c : ChunkData) (o : nat) :
  In (k, c) m -> In o (chunk_ids c) -> In o (flat_map (fun e => chunk_ids (snd e)) m).
Proof. intros Hin Ho. apply in_flat_map. exists (k, c). split; assumption. Qed.

Lemma NoDup_app_disjoint {A : Type} (l1 l2 : list A) (a : A) :
  NoDup (l1 ++ l2) -> In a l1 -> ~ In a l2.
Proof.
  induction l1 as [| b l1 IH]; intros Hnd H1 H2; [destruct H1 |].
  simpl in Hnd. inversion Hnd as [| ? ? Hnotin Hnd']; subst.
  destruct H1 as [-> | H1].
  - apply Hnotin. apply in_or_app. right. exact H2.
  - exact (IH Hnd' H1 H2).
Qed.

(** Removing the objects of the chunk stored under [k] from the meshes of
    all stored chunks leaves the meshes of the others. *)
Lemma remove_ids_store (m : list (Key * ChunkData)) (k : Key) (c : ChunkData) :
  NoDup (map fst m) ->
  NoDup (flat_map (fun e => chunk_ids (snd e)) m) ->
  map_get m k = Some c ->
  remove_ids (chunk_ids c) (flat_map (fun e => chunk_meshes (snd e)) m)
  = flat_map (fun e => chunk_meshes (snd e)) (map_delete m k).
Proof.
  induction m as [| [k0 c0] rest IH]; intros Hk Hi Hc; [discriminate |].
  cbn [flat_map map fst snd map_get map_delete] in Hc, Hi, Hk |- *.
  inversion Hk as [| ? ? Hnotin Hk']; subst.
  rewrite remove_ids_app.
  destruct (key_eqb k k0) eqn:E.
  - injection Hc as ->. apply key_eqb_eq in E. subst k0.
    rewrite remove_ids_all by apply chunk_meshes_ids.
    rewrite map_delete_absent by exact Hnotin. cbn [app].
    apply remove_ids_none. intros o Ho Hoc.
    apply in_flat_map in Ho. destruct Ho as ([k1 c1] & Hin1 & Ho1). cbn [snd] in Ho1.
    apply chunk_meshes_ids in Ho1.
    apply (NoDup_app_disjoint _ _ o Hi Hoc).
    eapply In_flat_map_ids; eassumption.
  - cbn [flat_map snd]. f_equal.
    + apply remove_ids_none. intros o Ho Hoc. apply chunk_meshes_ids in Ho.
      pose proof (map_get_In _ _ _ Hc) as Hin.
      apply (NoDup_app_disjoint _ _ o Hi Ho).
      eapply In_flat_map_ids; eassumption.
    + apply IH; [exact Hk' | | exact Hc].
      apply NoDup_app_remove_l in Hi. exact Hi.
Qed.

Lemma In_flat_map_delete {B : Type} (f : Key * ChunkData -> list B)
    (m : list (Key * ChunkData)) (k : Key) (o : B) :
  In o (flat_map f (map_delete m k)) -> In o (flat_map f m).
Proof.
  induction m as [| [k0 c0] rest IH]; cbn [map_delete flat_map]; [tauto |].
  destruct (key_eqb k k0); cbn [flat_map]; intros H.
  - apply in_or_app. right. apply IH, H.
  - apply in_app_or in H. apply in_or_app. destruct H as [H | H]; [left; exact H |].
    right. apply IH, H.
Qed.

Lemma flat_map_delete_NoDup {B : Type} (f : Key * ChunkData -> list B)
    (m : list (Key * ChunkData)) (k : Key) :
  NoDup (flat_map f m) -> NoDup (flat_map f (map_delete m k)).
Proof.
  induction m as [| [k0 c0] rest IH]; cbn [map_delete flat_map]; intros Hnd; [exact Hnd |].
  destruct (key_eqb k k0); cbn [flat_map].
  - apply IH. eapply NoDup_app_remove_l, Hnd.
  - apply NoDup_app.
    + eapply NoDup_app_remove_r, Hnd.
    + apply IH. eapply NoDup_app_remove_l, Hnd.
    + intros a Ha Hb. apply In_flat_map_delete in Hb.
      exact (NoDup_app_disjoint _ _ a Hnd Ha Hb).
Qed.

Lemma unloadChunk_scene_wf (key : Key) (s : Engine) :
  scene_wf s -> scene_wf (run_state (unloadChunk key) s).
Proof.
  intros (Hg & Hk & Hi & Hb).
  destruct (map_get (chunks s) key) as [c |] eqn:Hc;
    [| rewrite unloadChunk_absent by exact Hc; repeat split; assumption].
  destruct (unloadChunk_scene key s c Hc) as (Ec & Eg & En).
  unfold scene_wf, scene_meshes, store_ids. rewrite Ec, Eg, En, Hg.
  split; [| split; [| split]].
  - apply remove_ids_store; assumption.
  - apply map_delete_NoDup, Hk.
  - apply flat_map_delete_NoDup, Hi.
  - intros o Ho. apply Hb. eapply In_flat_map_delete, Ho.
Qed.

Lemma map_set_absent {V : Type} (m : list (Key * V)) (k : Key) (v : V) :
  map_has m k = false -> map_set m k v = m ++ [(k, v)].
Proof.
  unfold map_has. induction m as [| [k0 v0] rest IH]; cbn [map_get map_set app]; intros H;
    [reflexivity |].
  destruct (key_eqb k k0); [discriminate |]. f_equal. apply IH, H.
Qed.

Lemma loadChunk_out_of_range (host : Host) (x z : Q) (lodIndex : Z) (s : Engine) :
  ~ (0 <= lodIndex < 3)%Z -> run_state (loadChunk host x z lodIndex) s = s.
Proof.
  intros H. unfold loadChunk. rewrite run_state_bind.
  change (run_state (emit (Call_loadChunk x z lodIndex)) s) with s.
  rewrite run_state_bind.
  change (run_value get s) with s. change (run_state get s) with s.
  change (Z.of_nat (List.length LOD_LEVELS)) with 3%Z.
  destruct (Z.ltb_spec lodIndex 0); [reflexivity |].
  destruct (Z.geb_spec lodIndex 3); [reflexivity | lia].
Qed.

Lemma loadChunk_scene_wf (host : Host) (x z : Q) (lodIndex : Z) (s : Engine) :
  scene_wf s -> resources_ready s ->
  map_has (chunks s) (getChunkKey x z) = false ->
  scene_wf (run_state (loadChunk host x z lodIndex) s).
Proof.
  intros (Hg & Hk & Hi & Hb) R Habs.
  destruct (Z_lt_le_dec lodIndex 0) as [Hl | Hl];
    [rewrite loadChunk_out_of_range by lia; repeat split; assumption |].
  destruct (Z_lt_le_dec lodIndex 3) as [Hu | Hu];
    [| rewrite loadChunk_out_of_range by lia; repeat split; assumption].
  destruct (loadChunk_scene host x z lodIndex s R (conj Hl Hu))
    as (c & Ec & _ & Eg & Hc & Hfresh & Hgrow).
  unfold scene_wf, scene_meshes, store_ids. rewrite Ec, Eg, Hg.
  rewrite (map_set_absent _ _ _ Habs), !flat_map_app. cbn [flat_map snd].
  rewrite !app_nil_r.
  split; [reflexivity | split; [| split]].
  - rewrite <- (map_set_absent _ _ _ Habs). apply map_set_NoDup, Hk.
  - apply NoDup_app; [exact Hi | exact Hc |].
    intros o Ho Hoc. apply Hb in Ho. apply Hfresh in Hoc. lia.
  - intros o Ho. apply in_app_or in Ho. destruct Ho as [Ho | Ho].
    + apply Hb in Ho. lia.
    + apply Hfresh in Ho. lia.
Qed.

Lemma scene_kept_refl (s : Engine) : scene_kept s s.
Proof. unfold scene_kept. auto. Qed.

Lemma scene_kept_trans (a b c : Engine) : scene_kept a b -> scene_kept b c -> scene_kept a c.
Proof. unfold scene_kept. auto. Qed.

Lemma unloadChunk_scene_kept (key : Key) : keeps scene_kept (unloadChunk key).
Proof.
  intros s [W R]. split; [apply unloadChunk_scene_wf, W |].
  eapply resources_ready_fixed; [apply unloadChunk_fixed | exact R].
Qed.

Lemma unloadStale_scene_kept (needed : list (Key * Needed)) (e : Key * ChunkData) :
  keeps scene_kept (unloadStale needed e).
Proof.
  destruct e as [key currentData]. unfold unloadStale.
  destruct (map_get needed key) as [n |]; [| apply unloadChunk_scene_kept].
  destruct (negb (lod n =? lodLevel currentData)%Z);
    [apply unloadChunk_scene_kept | apply (keeps_ret _ scene_kept_refl)].
Qed.

Lemma loadMissing_scene_kept (host : Host) (e : Key * Needed) :
  keyed e -> keeps scene_kept (loadMissing host e).
Proof.
  destruct e as [key data]. unfold keyed. cbn [fst snd]. intros Hkey s [W R].
  unfold loadMissing. rewrite run_state_bind.
  change (run_value get s) with s. change (run_state get s) with s.
  destruct (map_has (chunks s) key) eqn:Habs; cbn [negb]; [split; assumption |].
  split.
  - apply loadChunk_scene_wf; [exact W | exact R | rewrite <- Hkey; exact Habs].
  - eapply resources_ready_fixed; [apply loadChunk_fixed | exact R].
Qed.

Lemma updateChunks_scene_kept (host : Host) : keeps scene_kept (updateChunks host).
Proof.
  intros s. destruct (throttled s) eqn:Ht.
  - unfold run_state. rewrite updateChunks_throttled by exact Ht. apply scene_kept_refl.
  - destruct (updateChunks_applied host s Ht) as [E _]. rewrite E.
    eapply scene_kept_trans;
      [| apply (keeps_forEach _ scene_kept_refl scene_kept_trans);
         intros a Ha; apply loadMissing_scene_kept; eapply neededChunks_keyed, Ha].
    eapply scene_kept_trans;
      [| apply (keeps_forEach _ scene_kept_refl scene_kept_trans);
         intros a _; apply unloadStale_scene_kept].
    intros H. exact H.
Qed.

Lemma unload_all_scene_kept (entries : list (Key * ChunkData)) :
  keeps scene_kept (forEach entries unloadEntry).
Proof.
  apply (keeps_forEach _ scene_kept_refl scene_kept_trans).
  intros a _. apply unloadChunk_scene_kept.
Qed.

Lemma unload_all_fewer (entries : list (Key * ChunkData)) :
  keeps fewer_chunks (forEach entries unloadEntry).
Proof.
  apply (keeps_forEach _ fewer_chunks_refl fewer_chunks_trans).
  intros a _. apply unloadChunk_fewer.
Qed.

Lemma unload_all_removes (entries : list (Key * ChunkData)) :
  forall (s : Engine) k c c',
    In (k, c) entries ->
    ~ In (k, c') (chunks (run_state (forEach entries unloadEntry) s)).
Proof.
  induction entries as [| [k0 c0] rest IH]; intros s k c c' Hin H; [destruct Hin |].
  cbn [forEach] in H. rewrite run_state_bind in H.
  destruct Hin as [E | Hin].
  - injection E as -> ->. apply unload_all_fewer in H.
    unfold unloadEntry in H. cbn [fst] in H. exact (unloadChunk_removes k s c' H).
  - exact (IH _ k c c' Hin H).
Qed.

(** Unloading every entry of the store leaves it empty. *)
Lemma unload_all_empties (s : Engine) :
  chunks (run_state (forEach (chunks s) unloadEntry) s) = [].
Proof.
  destruct (chunks (run_state (forEach (chunks s) unloadEntry) s)) as [| [k c] rest] eqn:E;
    [reflexivity |].
  exfalso.
  assert (Hin : In (k, c) (chunks (run_state (forEach (chunks s) unloadEntry) s)))
    by (rewrite E; left; reflexivity).
  pose proof (unload_all_fewer (chunks s) s k c Hin) as H0.
  exact (unload_all_removes (chunks s) s k c c H0 Hin).
Qed.

Lemma initResources_scene (host : Host) (config : GrassConfig) (s : Engine) :
  let s' := run_state (initResources host config) s in
  chunkGroup s' = chunkGroup s /\ (next_object s <= next_object s')%nat.
Proof.
  intros s'. unfold s', initResources. repeat run_step.
  cbn. split; [reflexivity | lia].
Qed.

Lemma initResources_scene_wf (host : Host) (config : GrassConfig) (s : Engine) :
  scene_wf s -> scene_wf (run_state (initResources host config) s).
Proof.
  intros (Hg & Hk & Hi & Hb).
  destruct (initResources_rest host config s) as (Ec & _).
  destruct (initResources_scene host config s) as (Eg & En).
  unfold scene_wf, scene_meshes, store_ids. rewrite Ec, Eg.
  repeat split; try assumption. intros o Ho. apply Hb in Ho. lia.
Qed.

Lemma updateConfig_scene_wf (host : Host) (config : GrassConfig) (s : Engine) :
  scene_wf s -> scene_wf (run_state (updateConfig host config) s).
Proof.
  intros W. destruct (needsRebuild (currentConfig s) config) eqn:En.
  - destruct (updateConfig_structural host config s En) as [E _]. rewrite E. clear E.
    set (s1 := run_state (initResources host config) (set_currentConfig config s)).
    set (s2 := run_state (forEach (chunks s1) unloadEntry) s1).
    assert (W1 : scene_wf s1) by (apply initResources_scene_wf; exact W).
    assert (R1 : resources_ready s1) by apply initResources_ready.
    destruct (unload_all_scene_kept (chunks s1) s1 (conj W1 R1)) as [W2 R2]. fold s2 in W2, R2.
    pose proof (unload_all_empties s1) as E2. fold s2 in E2.
    apply updateChunks_scene_kept. split; [| exact R2].
    destruct W2 as (Hg & Hk & Hi & Hb).
    unfold scene_wf, scene_meshes, store_ids in *. rewrite E2 in Hg, Hi, Hb.
    cbn. repeat split; try assumption; constructor.
  - unfold run_state. rewrite updateConfig_cosmetic by exact En. exact W.
Qed.

Lemma driven_scene_wf (host : Host) (s : Engine) : driven host s -> scene_wf s.
Proof.
  induction 1 as [config | s p Hd IH | s config _ IH | s x z lodIndex Hd IH Habs | s key _ IH].
  - unfold constructed. apply initResources_scene_wf.
    unfold scene_wf, scene_meshes, store_ids. cbn.
    repeat split; try constructor. intros o [].
  - unfold run_state. rewrite refresh_run.
    apply (updateChunks_scene_kept host (set_camera_position p s)).
    split; [exact IH | apply (reachable_sound host s), driven_reachable, Hd].
  - apply updateConfig_scene_wf, IH.
  - apply loadChunk_scene_wf; [exact IH | | exact Habs].
    apply (reachable_sound host s), driven_reachable, Hd.
  - apply unloadChunk_scene_wf, IH.
Qed.

(** X14: the children of the chunk group are exactly the meshes of the stored
    chunks, in the order of the store. *)
Theorem scene_graph_exact (host : Host) (s : Engine) :
  driven host s -> chunkGroup s = scene_meshes s.
Proof. intros Hd. apply (driven_scene_wf host s Hd). Qed.

Lemma scene_graph_exact_witness :
  let s := run_state (refresh sampleHost (vec3 0 15 40)) (constructed sampleHost bareFields) in
  chunkGroup s = scene_meshes s.
Proof.
  apply (scene_graph_exact sampleHost). apply driven_refresh, driven_constructed.
Defined.

Lemma map_has_false_keys {V : Type} (m : list (Key * V)) (k : Key) :
  map_has m k = false -> ~ In k (map fst m).
Proof.
  intros H Hin. apply in_map_iff in Hin. destruct Hin as ([k0 v] & E & Hin).
  cbn [fst] in E. subst k0. apply In_map_has in Hin. congruence.
Qed.

Lemma map_delete_app {V : Type} (m1 m2 : list (Key * V)) (k : Key) :
  map_delete (m1 ++ m2) k = map_delete m1 k ++ map_delete m2 k.
Proof.
  induction m1 as [| [k0 v0] rest IH]; cbn [app map_delete]; [reflexivity |].
  destruct (key_eqb k k0); [exact IH | cbn [app]; f_equal; exact IH].
Qed.

Lemma map_delete_map_set_absent {V : Type} (m : list (Key * V)) (k : Key) (v : V) :
  map_has m k = false -> map_delete (map_set m k v) k = m.
Proof.
  intros H. rewrite (map_set_absent _ _ _ H), map_delete_app.
  rewrite map_delete_absent by (apply map_has_false_keys, H).
  cbn [map_delete]. rewrite key_eqb_refl. apply app_nil_r.
Qed.

(** X15: loading a chunk under a key that is not in the store and unloading it
    again restores the store and the scene graph. *)
Theorem load_unload_roundtrip (host : Host) (s : Engine) (x z : Q) (lodIndex : Z) :
  driven host s ->
  map_has (chunks s) (getChunkKey x z) = false ->
  let s2 := run_state (unloadChunk (getChunkKey x z))
              (run_state (loadChunk host x z lodIndex) s) in
  chunks s2 = chunks s /\ chunkGroup s2 = chunkGroup s.
Proof.
  intros Hd Habs s2.
  assert (Ec : chunks s2 = chunks s).
  { unfold s2. rewrite unloadChunk_chunks.
    destruct (loadChunk_chunks host x z lodIndex s) as [E | (c & E & _)]; rewrite E.
    - rewrite Habs. reflexivity.
    - unfold map_has at 1. rewrite map_get_map_set_same.
      apply map_delete_map_set_absent, Habs. }
  split; [exact Ec |].
  assert (Hd2 : driven host s2)
    by (apply driven_unloadChunk, driven_loadChunk; assumption).
  rewrite (proj1 (driven_scene_wf host s2 Hd2)), (proj1 (driven_scene_wf host s Hd)).
  unfold scene_meshes. rewrite Ec. reflexivity.
Qed.

Lemma load_unload_roundtrip_witness :
  let s := constructed sampleHost bareFields in
  let s2 := run_state (unloadChunk (getChunkKey 30 0))
              (run_state (loadChunk sampleHost 30 0 1) s) in
  chunks s2 = chunks s /\ chunkGroup s2 = chunkGroup s.
Proof.
  apply (load_unload_roundtrip sampleHost (constructed sampleHost bareFields) 30 0 1).
  - apply driven_constructed.
  - vm_compute. reflexivity.
Defined.

(** X16: unloading a key that is not, or no longer, in the store changes
    nothing and disposes of nothing. *)
Theorem unloadChunk_idempotent (key : Key) (s : Engine) :
  let s1 := run_state (unloadChunk key) s in
  run_state (unloadChunk key) s1 = s1 /\
  run_events (unloadChunk key) s1 = [Call_unloadChunk key].
Proof.
  intros s1.
  assert (Hc : map_get (chunks s1) key = None).
  { unfold s1. rewrite unloadChunk_chunks. unfold map_has.
    destruct (map_get (chunks s) key) eqn:E; [apply map_get_map_delete_same | exact E]. }
  split; [apply unloadChunk_absent, Hc |].
  rewrite unloadChunk_events. unfold unloadChunk_disposals. rewrite Hc. reflexivity.
Qed.

Lemma store_ids_disjoint (m : list (Key * ChunkData)) (k1 k2 : Key) (c1 c2 : ChunkData)
    (o : nat) :
  NoDup (flat_map (fun e => chunk_ids (snd e)) m) ->
  In (k1, c1) m -> In (k2, c2) m -> k1 <> k2 ->
  In o (chunk_ids c1) -> ~ In o (chunk_ids c2).
Proof.
  induction m as [| [k0 c0] rest IH]; intros Hnd H1 H2 Hne Ho1 Ho2; [destruct H1 |].
  cbn [flat_map snd] in Hnd.
  destruct H1 as [E1 | H1], H2 as [E2 | H2].
  - congruence.
  - injection E1 as -> ->.
    exact (NoDup_app_disjoint _ _ o Hnd Ho1 (In_flat_map_ids _ _ _ _ H2 Ho2)).
  - injection E2 as -> ->.
    exact (NoDup_app_disjoint _ _ o Hnd Ho2 (In_flat_map_ids _ _ _ _ H1 Ho1)).
  - apply NoDup_app_remove_l in Hnd. exact (IH Hnd H1 H2 Hne Ho1 Ho2).
Qed.

(** X17: [loadChunk] over a key that is already loaded leaves the ground mesh
    of the chunk it replaces in the scene graph, owned by no stored chunk. *)
Theorem loadChunk_over_loaded_key (host : Host) (s : Engine) (x z : Q) (lodIndex : Z)
    (c : ChunkData) :
  driven host s ->
  map_get (chunks s) (getChunkKey x z) = Some c ->
  (0 <= lodIndex < 3)%Z ->
  let s' := run_state (loadChunk host x z lodIndex) s in
  In (mesh_id (ground c)) (chunkGroup s') /\
  ~ In (mesh_id (ground c)) (store_ids s').
Proof.
  intros Hd Hc Hl s'.
  destruct (driven_scene_wf host s Hd) as (Hg & Hk & Hi & Hb).
  pose proof (reachable_sound host s (driven_reachable host s Hd)) as (R & _).
  destruct (loadChunk_scene host x z lodIndex s R Hl)
    as (c' & Ec & _ & Eg & _ & Hfresh & _).
  fold s' in Ec, Eg, Hfresh.
  pose proof (map_get_In _ _ _ Hc) as Hin.
  assert (Hid : In (mesh_id (ground c)) (chunk_ids c)) by (left; reflexivity).
  split.
  - rewrite Eg, Hg. apply in_or_app. left. unfold scene_meshes. apply in_flat_map.
    exists (getChunkKey x z, c). split; [exact Hin | left; reflexivity].
  - unfold store_ids. rewrite Ec. intros H. apply in_flat_map in H.
    destruct H as ([k1 c1] & H1 & Ho). cbn [snd] in Ho.
    destruct (key_eqb k1 (getChunkKey x z)) eqn:Ek.
    + apply key_eqb_eq in Ek. subst k1.
      pose proof (map_get_map_set_same (chunks s) (getChunkKey x z) c') as E.
      rewrite (map_get_NoDup_In _ _ _ (map_set_NoDup _ _ c' Hk) H1) in E.
      injection E as ->.
      apply Hfresh in Ho.
      pose proof (Hb _ (In_flat_map_ids _ _ _ _ Hin Hid)). lia.
    + apply key_eqb_neq in Ek. apply In_map_set in H1.
      destruct H1 as [[E _] | H1]; [contradiction |].
      exact (store_ids_disjoint _ _ _ _ _ _ Hi H1 Hin Ek Ho Hid).
Qed.

Lemma loadChunk_over_loaded_key_witness :
  let s := run_state (loadChunk sampleHost 0 0 0) (constructed sampleHost bareFields) in
  let s' := run_state (loadChunk sampleHost 0 0 1) s in
  exists c,
    map_get (chunks s) (getChunkKey 0 0) = Some c /\
    In (mesh_id (ground c)) (chunkGroup s') /\
    ~ In (mesh_id (ground c)) (store_ids s').
Proof.
  intros s s'.
  assert (Hc : is_some (map_get (chunks s) (getChunkKey 0 0)) = true)
    by (vm_compute; reflexivity).
  pose proof (is_some_inv _ Hc) as [c Ec].
  exists c. split; [exact Ec |].
  apply (loadChunk_over_loaded_key sampleHost s 0 0 1 c).
  - apply driven_loadChunk; [apply driven_constructed | vm_compute; reflexivity].
  - exact Ec.
  - lia.
Defined.

(** ** Replacing the shared resources *)

Ltac events_step :=
  erewrite run_events_step
    by first [ apply dispose_if_run | apply forEach_dispose_run | reflexivity ];
  cbv beta; normalize_state.

Lemma initResources_events (host : Host) (config : GrassConfig) (s : Engine) :
  run_events (initResources host config) s = map Dispose (shared_objects s).
Proof.
  unfold initResources. repeat events_step.
  unfold shared_objects. rewrite !map_app.
  destruct (grassMaterial s), (groundMaterial s), (treeTrunkGeo s), (treeFoliageGeo s),
    (treeTrunkMat s), (treeFoliageMat s); reflexivity.
Qed.

Lemma initResources_objects (host : Host) (config : GrassConfig) (s : Engine) :
  let s' := run_state (initResources host config) s in
  shared_objects s' = seq (next_object s) 9 /\
  next_object s' = (next_object s + 9)%nat /\
  random_calls s' = (random_calls s + 252)%nat.
Proof.
  intros s'. unfold s', initResources. repeat run_step.
  cbn. repeat split; try reflexivity; lia.
Qed.

(** X27: [initResources] disposes of every shared object it replaces, once and
    in the order of the fields, builds nine new objects and disposes of none
    of them. *)
Theorem initResources_replaces (host : Host) (config : GrassConfig) (s : Engine) :
  allocated s ->
  let s' := run_state (initResources host config) s in
  let evs := run_events (initResources host config) s in
  evs = map Dispose (shared_objects s) /\
  shared_objects s' = seq (next_object s) 9 /\
  forall o, In o (shared_objects s') -> ~ In (Dispose o) evs.
Proof.
  intros Ha s' evs. destruct (initResources_objects host config s) as (Eo & _).
  fold s' in Eo. unfold evs. rewrite initResources_events.
  split; [reflexivity | split; [exact Eo |]].
  intros o Ho H. rewrite Eo in Ho. apply in_seq in Ho.
  apply in_map_iff in H. destruct H as (o' & E & Hin). injection E as ->.
  apply Ha in Hin. lia.
Qed.

Lemma initResources_replaces_witness :
  let s := constructed sampleHost bareFields in
  let s' := run_state (initResources sampleHost goldenFields) s in
  let evs := run_events (initResources sampleHost goldenFields) s in
  evs = map Dispose (shared_objects s) /\
  shared_objects s' = seq (next_object s) 9 /\
  forall o, In o (shared_objects s') -> ~ In (Dispose o) evs.
Proof.
  apply (initResources_replaces sampleHost goldenFields (constructed sampleHost bareFields)).
  intros o Ho. vm_compute in Ho. vm_compute. lia.
Defined.

(** ** Applying the same configuration again *)

Lemma num_neq_refl (a : Q) : num_neq a a = false.
Proof. unfold num_neq. rewrite (proj2 (Qeq_bool_iff a a)) by reflexivity. reflexivity. Qed.

Lemma opt_num_neq_refl (a : option Q) : opt_num_neq a a = false.
Proof. destruct a as [q |]; [apply (num_neq_refl q) | reflexivity]. Qed.

Lemma opt_bool_neq_refl (a : option bool) : opt_bool_neq a a = false.
Proof. destruct a as [[|] |]; reflexivity. Qed.

Lemma needsRebuild_refl (config : GrassConfig) : needsRebuild config config = false.
Proof.
  unfold needsRebuild. rewrite !num_neq_refl, !opt_num_neq_refl, opt_bool_neq_refl.
  reflexivity.
Qed.

Lemma updateChunks_currentConfig (host : Host) (s : Engine) :
  currentConfig (run_state (updateChunks host) s) = currentConfig s.
Proof.
  destruct (throttled s) eqn:Ht.
  - unfold run_state. rewrite updateChunks_throttled by exact Ht. reflexivity.
  - destruct (updateChunks_fixed host s Ht) as (E & _). exact E.
Qed.

Lemma updateConfig_installs (host : Host) (config : GrassConfig) (s : Engine) :
  currentConfig (run_state (updateConfig host config) s) = config.
Proof.
  destruct (needsRebuild (currentConfig s) config) eqn:En.
  - destruct (updateConfig_structural host config s En) as [E _]. rewrite E. clear E.
    rewrite updateChunks_currentConfig. cbn [currentConfig set_lastUpdatePos set_chunks].
    destruct (unload_all_fixed
                (chunks (run_state (initResources host config) (set_currentConfig config s)))
                (run_state (initResources host config) (set_currentConfig config s)))
      as (E & _).
    rewrite E.
    destruct (initResources_rest host config (set_currentConfig config s)) as (_ & E' & _).
    exact E'.
  - unfold run_state. rewrite updateConfig_cosmetic by exact En. reflexivity.
Qed.

(** X28: applying a configuration a second time takes the branch of
    [updateConfig] that rebuilds nothing.  The first call has installed the
    configuration, so none of the six tests of the second call fires: it calls
    neither [initResources] nor [unloadChunk] nor [updateChunks], disposes of
    nothing and constructs no geometry, material or mesh, and the store, the
    chunk group, the shared resources and the last refresh position are what
    the first call left.  What that branch does write (uniforms, fog, ground
    colour, sun and ambient light) is not part of the state. *)
Theorem updateConfig_again_rebuilds_nothing
    (host : Host) (config : GrassConfig) (s : Engine) :
  let s1 := run_state (updateConfig host config) s in
  let s2 := run_state (updateConfig host config) s1 in
  needsRebuild (currentConfig s1) config = false /\
  run_events (updateConfig host config) s1 = [] /\
  currentConfig s2 = config /\
  chunks s2 = chunks s1 /\
  chunkGroup s2 = chunkGroup s1 /\
  shared_objects s2 = shared_objects s1 /\
  lastUpdatePos s2 = lastUpdatePos s1 /\
  next_object s2 = next_object s1.
Proof.
  intros s1 s2. pose proof (updateConfig_installs host config s) as E. fold s1 in E.
  assert (En : needsRebuild (currentConfig s1) config = false)
    by (rewrite E; apply needsRebuild_refl).
  unfold s2, run_state, run_events. rewrite (updateConfig_cosmetic host config s1 En).
  repeat split; first [exact En | reflexivity].
Qed.

(** ** Chunks and the resources they share *)

Lemma uses_current_fixed (s s' : Engine) (c : ChunkData) :
  same_fixed s s' -> uses_current s c -> uses_current s' c.
Proof.
  unfold same_fixed, uses_current.
  intros (_ & _ & _ & E1 & E2 & E3 & E4 & E5 & E6 & _). rewrite E1, E2, E3, E4, E5, E6. auto.
Qed.

Lemma current_kept_refl (s : Engine) : current_kept s s.
Proof. split; [apply same_fixed_refl | auto]. Qed.

Lemma current_kept_trans (a b c : Engine) :
  current_kept a b -> current_kept b c -> current_kept a c.
Proof.
  intros [F1 H1] [F2 H2]. split; [eapply same_fixed_trans; eassumption |].
  intros k c0 Hin. destruct (H2 k c0 Hin) as [Hb | Hu].
  - apply H1, Hb.
  - right. unfold same_fixed, uses_current in *.
    destruct F1 as (_ & _ & _ & E1 & E2 & E3 & E4 & E5 & E6 & _).
    rewrite <- E1, <- E2, <- E3, <- E4, <- E5, <- E6. exact Hu.
Qed.

Lemma store_current_kept (s s' : Engine) :
  current_kept s s' -> store_current s -> store_current s'.
Proof.
  intros [F H] Hs k c Hin. apply (uses_current_fixed s s' c F).
  destruct (H k c Hin) as [H0 | Hu]; [exact (Hs k c H0) | exact Hu].
Qed.

Lemma buildGrass_material (host : Host) (this : Engine) (x z : Q) (lodIndex : Z)
    (lodSettings : LODLevel) (geometry : nat) (grassMat : Material) (s : Engine) :
  imesh_material (run_value (buildGrass host this x z lodIndex lodSettings geometry grassMat) s)
  = grassMat.
Proof.
  unfold buildGrass.
  destruct (chunkBladeCount (currentConfig this) lodIndex lodSettings >? 0)%Z.
  - rewrite run_value_bind. reflexivity.
  - reflexivity.
Qed.

Lemma buildTrees_resources (host : Host) (this : Engine) (x z : Q) (lodIndex : Z)
    (s : Engine) (t : TreeStore) :
  run_value (buildTrees host this x z lodIndex) s = Some t ->
  treeTrunkGeo this = Some (imesh_geometry (trunk t)) /\
  treeTrunkMat this = Some (imesh_material (trunk t)) /\
  treeFoliageGeo this = Some (imesh_geometry (foliage t)) /\
  treeFoliageMat this = Some (imesh_material (foliage t)).
Proof.
  unfold buildTrees.
  destruct (treeData host this x z lodIndex) as [| m ms]; [discriminate |].
  destruct (treeTrunkGeo this); [| discriminate].
  destruct (treeTrunkMat this); [| discriminate].
  destruct (treeFoliageGeo this); [| discriminate].
  destruct (treeFoliageMat this); [| discriminate].
  intros E. injection E as <-. repeat split; reflexivity.
Qed.

Lemma loadChunk_skip (host : Host) (x z : Q) (lodIndex : Z) (s : Engine) :
  nth_error (lodGeometries s) (Z.to_nat lodIndex) = None \/
  grassMaterial s = None \/ groundMaterial s = None ->
  run_state (loadChunk host x z lodIndex) s = s.
Proof.
  intros H. unfold loadChunk. rewrite run_state_bind.
  change (run_state (emit (Call_loadChunk x z lodIndex)) s) with s.
  rewrite run_state_bind.
  change (run_value get s) with s. change (run_state get s) with s.
  destruct ((lodIndex <? 0)%Z || (lodIndex >=? Z.of_nat (List.length LOD_LEVELS))%Z);
    [reflexivity |].
  destruct (nth_error (lodGeometries s) (Z.to_nat lodIndex)) as [geometry |];
    [| reflexivity].
  destruct (nth_error LOD_LEVELS (Z.to_nat lodIndex)) as [lodSettings |]; [| reflexivity].
  destruct (grassMaterial s) as [grassMat |]; [| reflexivity].
  destruct (groundMaterial s) as [groundMat |]; [| reflexivity].
  destruct H as [H | [H | H]]; discriminate.
Qed.

Lemma LOD_LEVELS_nth (lodIndex : Z) :
  (0 <= lodIndex < 3)%Z -> exists l, nth_error LOD_LEVELS (Z.to_nat lodIndex) = Some l.
Proof.
  intros H. assert (E : (lodIndex = 0)%Z \/ (lodIndex = 1)%Z \/ (lodIndex = 2)%Z) by lia.
  destruct E as [-> | [-> | ->]]; eexists; reflexivity.
Qed.

Lemma loadChunk_current_kept (host : Host) (x z : Q) (lodIndex : Z) :
  keeps current_kept (loadChunk host x z lodIndex).
Proof.
  intros s. split; [apply loadChunk_fixed |]. intros k c Hin.
  destruct (Z_lt_le_dec lodIndex 0) as [Hl | Hl];
    [rewrite loadChunk_out_of_range in Hin by lia; left; exact Hin |].
  destruct (Z_lt_le_dec lodIndex 3) as [Hu | Hu];
    [| rewrite loadChunk_out_of_range in Hin by lia; left; exact Hin].
  destruct (nth_error (lodGeometries s) (Z.to_nat lodIndex)) as [geometry |] eqn:Eg;
    [| rewrite loadChunk_skip in Hin by (left; exact Eg); left; exact Hin].
  destruct (grassMaterial s) as [grassMat |] eqn:Egm;
    [| rewrite loadChunk_skip in Hin by (right; left; exact Egm); left; exact Hin].
  destruct (groundMaterial s) as [groundMat |] eqn:Egd;
    [| rewrite loadChunk_skip in Hin by (right; right; exact Egd); left; exact Hin].
  destruct (LOD_LEVELS_nth lodIndex (conj Hl Hu)) as [lodSettings El].
  rewrite (loadChunk_run host x z lodIndex s geometry lodSettings grassMat groundMat
             (conj Hl Hu) Eg El Egm Egd) in Hin.
  cbn [chunks set_chunks] in Hin. apply In_map_set in Hin.
  destruct Hin as [[_ ->] | Hin].
  - right. unfold uses_current. cbn [grass ground trees].
    rewrite buildGrass_material, Egm, Egd. split; [reflexivity | split].
    + destruct (buildGround_value s x z groundMat s) as [_ Em]. rewrite Em.
      destruct (truthy (lodDebug (currentConfig s))); [discriminate | reflexivity].
    + intros t Et. apply buildTrees_resources in Et. exact Et.
  - left. rewrite (buildGrass_chunks _ _ _ _ _ _ _ _ _) in Hin.
    rewrite (buildTrees_chunks _ _ _ _ _ _) in Hin.
    rewrite (buildGround_chunks _ _ _ _ _) in Hin. exact Hin.
Qed.

Lemma unloadChunk_current_kept (key : Key) : keeps current_kept (unloadChunk key).
Proof.
  intros s. split; [apply unloadChunk_fixed |]. intros k c Hin. left.
  exact (unloadChunk_fewer key s k c Hin).
Qed.

Lemma unloadStale_current_kept (needed : list (Key * Needed)) (e : Key * ChunkData) :
  keeps current_kept (unloadStale needed e).
Proof.
  destruct e as [key currentData]. unfold unloadStale.
  destruct (map_get needed key) as [n |]; [| apply unloadChunk_current_kept].
  destruct (negb (lod n =? lodLevel currentData)%Z);
    [apply unloadChunk_current_kept | apply (keeps_ret _ current_kept_refl)].
Qed.

Lemma loadMissing_current_kept (host : Host) (e : Key * Needed) :
  keeps current_kept (loadMissing host e).
Proof.
  destruct e as [key data]. unfold loadMissing.
  apply (keeps_bind _ current_kept_trans); [apply (keeps_get _ current_kept_refl) |].
  intros this. destruct (negb (map_has (chunks this) key));
    [apply loadChunk_current_kept | apply (keeps_ret _ current_kept_refl)].
Qed.

Lemma updateChunks_store_current (host : Host) (s : Engine) :
  store_current s -> store_current (run_state (updateChunks host) s).
Proof.
  intros Hs. destruct (throttled s) eqn:Ht.
  - unfold run_state. rewrite updateChunks_throttled by exact Ht. exact Hs.
  - destruct (updateChunks_applied host s Ht) as [E _]. rewrite E.
    eapply store_current_kept;
      [apply (keeps_forEach _ current_kept_refl current_kept_trans);
       intros a _; apply loadMissing_current_kept |].
    eapply store_current_kept;
      [apply (keeps_forEach _ current_kept_refl current_kept_trans);
       intros a _; apply unloadStale_current_kept |].
    exact Hs.
Qed.

(** X19: a stored chunk never refers to a shared resource that has been
    replaced: its materials and tree geometry are the ones the engine holds. *)
Theorem stored_chunks_use_current_resources (host : Host) (s : Engine)
    (k : Key) (c : ChunkData) :
  reachable host s -> In (k, c) (chunks s) -> uses_current s c.
Proof.
  intros Hr. revert k c. change (store_current s).
  induction Hr as [config | s p _ IH | s config _ IH | s x z lodIndex _ IH | s key _ IH].
  - intros k c Hin. unfold constructed in Hin.
    destruct (initResources_rest host config (emptyEngine config)) as [E _].
    rewrite E in Hin. destruct Hin.
  - unfold run_state. rewrite refresh_run.
    apply (updateChunks_store_current host (set_camera_position p s)). exact IH.
  - destruct (needsRebuild (currentConfig s) config) eqn:En.
    + destruct (updateConfig_structural host config s En) as [E _]. rewrite E.
      apply updateChunks_store_current. intros k c [].
    + unfold run_state. rewrite updateConfig_cosmetic by exact En. exact IH.
  - eapply store_current_kept; [apply loadChunk_current_kept | exact IH].
  - eapply store_current_kept; [apply unloadChunk_current_kept | exact IH].
Qed.

Lemma stored_chunks_use_current_resources_witness :
  let s := run_state (loadChunk sampleHost 0 0 0)
             (run_state (updateConfig sampleHost (set_bladeHeight (36 # 10) bareFields))
                (constructed sampleHost bareFields)) in
  exists c, map_get (chunks s) (getChunkKey 0 0) = Some c /\ uses_current s c.
Proof.
  intros s.
  assert (Hc : is_some (map_get (chunks s) (getChunkKey 0 0)) = true)
    by (vm_compute; reflexivity).
  pose proof (is_some_inv _ Hc) as [c Ec].
  exists c. split; [exact Ec |].
  apply (stored_chunks_use_current_resources sampleHost s (getChunkKey 0 0) c).
  - apply reachable_loadChunk, reachable_updateConfig, reachable_constructed.
  - apply map_get_In, Ec.
Defined.

(** ** What every stored chunk satisfies *)

Lemma loadChunk_new_entry (host : Host) (x z : Q) (lodIndex : Z) (s : Engine)
    (k : Key) (c : ChunkData) :
  In (k, c) (chunks (run_state (loadChunk host x z lodIndex) s)) ->
  In (k, c) (chunks s) \/
  (k = getChunkKey x z /\ loadChunk_entry host x z lodIndex s c).
Proof.
  intros Hin.
  destruct (Z_lt_le_dec lodIndex 0) as [Hl | Hl];
    [rewrite loadChunk_out_of_range in Hin by lia; left; exact Hin |].
  destruct (Z_lt_le_dec lodIndex 3) as [Hu | Hu];
    [| rewrite loadChunk_out_of_range in Hin by lia; left; exact Hin].
  destruct (nth_error (lodGeometries s) (Z.to_nat lodIndex)) as [geometry |] eqn:Eg;
    [| rewrite loadChunk_skip in Hin by (left; exact Eg); left; exact Hin].
  destruct (grassMaterial s) as [grassMat |] eqn:Egm;
    [| rewrite loadChunk_skip in Hin by (right; left; exact Egm); left; exact Hin].
  destruct (groundMaterial s) as [groundMat |] eqn:Egd;
    [| rewrite loadChunk_skip in Hin by (right; right; exact Egd); left; exact Hin].
  destruct (LOD_LEVELS_nth lodIndex (conj Hl Hu)) as [lodSettings El].
  rewrite (loadChunk_run host x z lodIndex s geometry lodSettings grassMat groundMat
             (conj Hl Hu) Eg El Egm Egd) in Hin.
  cbn [chunks set_chunks] in Hin. apply In_map_set in Hin.
  destruct Hin as [[-> ->] | Hin].
  - right. split; [reflexivity |].
    exists geometry, lodSettings, grassMat, groundMat. repeat split; try assumption; lia.
  - left. rewrite (buildGrass_chunks _ _ _ _ _ _ _ _ _) in Hin.
    rewrite (buildTrees_chunks _ _ _ _ _ _) in Hin.
    rewrite (buildGround_chunks _ _ _ _ _) in Hin. exact Hin.
Qed.

Section StoredChunks.
Variable host : Host.
Variable P : Key -> ChunkData -> Prop.
Hypothesis loadChunk_P :
  forall x z lodIndex s c, loadChunk_entry host x z lodIndex s c -> P (getChunkKey x z) c.

Lemma added_satisfy_refl (s : Engine) : added_satisfy P s s.
Proof. unfold added_satisfy. auto. Qed.

Lemma added_satisfy_trans (a b c : Engine) :
  added_satisfy P a b -> added_satisfy P b c -> added_satisfy P a c.
Proof.
  unfold added_satisfy. intros H1 H2 k c0 Hin.
  destruct (H2 k c0 Hin) as [H | H]; [apply H1, H | right; exact H].
Qed.

Lemma loadChunk_added (x z : Q) (lodIndex : Z) :
  keeps (added_satisfy P) (loadChunk host x z lodIndex).
Proof.
  intros s k c Hin. apply loadChunk_new_entry in Hin.
  destruct Hin as [H | [-> H]]; [left; exact H | right; eapply loadChunk_P, H].
Qed.

Lemma unloadChunk_added (key : Key) : keeps (added_satisfy P) (unloadChunk key).
Proof. intros s k c Hin. left. exact (unloadChunk_fewer key s k c Hin). Qed.

Lemma unloadStale_added (needed : list (Key * Needed)) (e : Key * ChunkData) :
  keeps (added_satisfy P) (unloadStale needed e).
Proof.
  destruct e as [key currentData]. unfold unloadStale.
  destruct (map_get needed key) as [n |]; [| apply unloadChunk_added].
  destruct (negb (lod n =? lodLevel currentData)%Z);
    [apply unloadChunk_added | apply (keeps_ret _ added_satisfy_refl)].
Qed.

Lemma loadMissing_added (e : Key * Needed) :
  keeps (added_satisfy P) (loadMissing host e).
Proof.
  destruct e as [key data]. unfold loadMissing.
  apply (keeps_bind _ added_satisfy_trans); [apply (keeps_get _ added_satisfy_refl) |].
  intros this. destruct (negb (map_has (chunks this) key));
    [apply loadChunk_added | apply (keeps_ret _ added_satisfy_refl)].
Qed.

Lemma updateChunks_added (s : Engine) :
  added_satisfy P s (run_state (updateChunks host) s).
Proof.
  destruct (throttled s) eqn:Ht.
  - unfold run_state. rewrite updateChunks_throttled by exact Ht. apply added_satisfy_refl.
  - destruct (updateChunks_applied host s Ht) as [E _]. rewrite E.
    eapply added_satisfy_trans;
      [| apply (keeps_forEach _ added_satisfy_refl added_satisfy_trans);
         intros a _; apply loadMissing_added].
    eapply added_satisfy_trans;
      [| apply (keeps_forEach _ added_satisfy_refl added_satisfy_trans);
         intros a _; apply unloadStale_added].
    intros k c H. left. exact H.
Qed.

Lemma reachable_all_stored (s : Engine) :
  reachable host s -> forall k c, In (k, c) (chunks s) -> P k c.
Proof.
  induction 1 as [config | s p _ IH | s config _ IH | s x z lodIndex _ IH | s key _ IH];
    intros k c Hin.
  - unfold constructed in Hin.
    destruct (initResources_rest host config (emptyEngine config)) as [E _].
    rewrite E in Hin. destruct Hin.
  - unfold run_state in Hin. rewrite refresh_run in Hin.
    destruct (updateChunks_added (set_camera_position p s) k c Hin) as [H | H];
      [exact (IH k c H) | exact H].
  - destruct (needsRebuild (currentConfig s) config) eqn:En.
    + destruct (updateConfig_structural host config s En) as [E _]. rewrite E in Hin.
      destruct (updateChunks_added _ k c Hin) as [[] | H]. exact H.
    + unfold run_state in Hin. rewrite updateConfig_cosmetic in Hin by exact En.
      exact (IH k c Hin).
  - destruct (loadChunk_added x z lodIndex s k c Hin) as [H | H];
      [exact (IH k c H) | exact H].
  - exact (IH k c (unloadChunk_fewer key s k c Hin)).
Qed.
End StoredChunks.

Lemma buildGround_position (this : Engine) (x z : Q) (groundMat : Material) (s : Engine) :
  mesh_position (run_value (buildGround this x z groundMat) s) = vec3 x 0 z.
Proof.
  unfold buildGround, bind, new_object, chunkGroup_add, modify, ret, run_value.
  destruct (truthy (lodDebug (currentConfig this))); reflexivity.
Qed.

(** X20: every stored chunk is stored under the key of the position of its
    ground mesh, on the plane y = 0, at a level of the LOD table. *)
Theorem stored_chunk_placed (host : Host) (s : Engine) (k : Key) (c : ChunkData) :
  reachable host s -> In (k, c) (chunks s) -> chunk_placed k c.
Proof.
  intros Hr. apply (reachable_all_stored host chunk_placed); [| exact Hr].
  clear. intros x z lodIndex s c (geometry & lodSettings & grassMat & groundMat & Hl & _ & _ & _ & _ & ->).
  unfold chunk_placed. cbn [ground lodLevel]. rewrite buildGround_position.
  cbn [vx vy vz]. repeat split; try reflexivity; lia.
Qed.

Lemma stored_chunk_placed_witness :
  let s := run_state (refresh sampleHost (vec3 0 15 40)) (constructed sampleHost bareFields) in
  exists c, map_get (chunks s) (getChunkKey 30 60) = Some c /\
            chunk_placed (getChunkKey 30 60) c.
Proof.
  intros s.
  assert (Hc : is_some (map_get (chunks s) (getChunkKey 30 60)) = true)
    by (vm_compute; reflexivity).
  pose proof (is_some_inv _ Hc) as [c Ec].
  exists c. split; [exact Ec |].
  apply (stored_chunk_placed sampleHost s (getChunkKey 30 60) c).
  - apply reachable_refresh, reachable_constructed.
  - apply map_get_In, Ec.
Defined.

(** ** Blades *)

Lemma run_state_ret {A : Type} (a : A) (s : Engine) : run_state (ret a) s = s.
Proof. reflexivity. Qed.

Lemma run_value_ret {A : Type} (a : A) (s : Engine) : run_value (ret a) s = a.
Proof. reflexivity. Qed.

Lemma run_value_random (host : Host) (s : Engine) :
  run_value (random host) s = Math_random host (random_calls s).
Proof. reflexivity. Qed.

Lemma random_calls_random (host : Host) (s : Engine) :
  random_calls (run_state (random host) s) = S (random_calls s).
Proof. reflexivity. Qed.

Lemma genBlades_spec (host : Host) (x z : Q) :
  unit_stream (Math_random host) -> 0 < Math_PI host ->
  forall (n : nat) (s : Engine),
    List.length (run_value (genBlades host n x z) s) = n /\
    Forall (blade_in_chunk host x z) (run_value (genBlades host n x z) s) /\
    random_calls (run_state (genBlades host n x z) s) = (random_calls s + 4 * n)%nat.
Proof.
  intros Hu Hpi. induction n as [| n IH]; intros s.
  - repeat split; [constructor | cbn; lia].
  - cbn [genBlades]. unfold randomRange.
    rewrite !run_value_bind, !run_state_bind, !run_state_ret, !run_value_ret.
    rewrite !run_value_random, !random_calls_random.
    set (s4 := run_state (random host) (run_state (random host)
                 (run_state (random host) (run_state (random host) s)))).
    destruct (IH s4) as (Il & If & Ir).
    destruct (Hu (random_calls s)) as [A0 A1].
    destruct (Hu (S (random_calls s))) as [B0 B1].
    destruct (Hu (S (S (random_calls s)))) as [C0 C1].
    destruct (Hu (S (S (S (random_calls s))))) as [D0 D1].
    split; [| split].
    + cbn [List.length]. f_equal. exact Il.
    + constructor; [| exact If].
      unfold blade_in_chunk, CHUNK_SIZE. cbn [aOffset aScale aRotation vx vy vz].
      set (r1 := Math_random host (random_calls s)) in *.
      set (r2 := Math_random host (S (random_calls s))) in *.
      set (r3 := Math_random host (S (S (random_calls s)))) in *.
      set (r4 := Math_random host (S (S (S (random_calls s))))) in *.
      assert (0 <= r4 * Math_PI host) by (apply Qmult_le_0_compat; lra).
      assert (0 < (1 - r4) * Math_PI host) by (apply Qmult_lt_0_compat; lra).
      change (30 / 2) with (30 * (1 # 2)).
      repeat split; try reflexivity; lra.
    + rewrite Ir. unfold s4. rewrite !random_calls_random. lia.
Qed.

Lemma blade_in_chunk_compat (host : Host) (x x' z z' : Q) (b : Blade) :
  x == x' -> z == z' -> blade_in_chunk host x z b -> blade_in_chunk host x' z' b.
Proof.
  unfold blade_in_chunk. intros Ex Ez (H1 & H2 & H3 & H4 & H5 & H6).
  rewrite <- Ex, <- Ez. tauto.
Qed.

Lemma buildGrass_blades (host : Host) (this : Engine) (x z : Q) (lodIndex : Z)
    (lodSettings : LODLevel) (geometry : nat) (grassMat : Material) (s : Engine) :
  unit_stream (Math_random host) -> 0 < Math_PI host ->
  let g := run_value (buildGrass host this x z lodIndex lodSettings geometry grassMat) s in
  imesh_count g = Z.of_nat (List.length (imesh_attributes g)) /\
  Forall (blade_in_chunk host x z) (imesh_attributes g).
Proof.
  intros Hu Hpi. unfold buildGrass.
  destruct (chunkBladeCount (currentConfig this) lodIndex lodSettings >? 0)%Z eqn:Eb.
  - rewrite run_value_bind.
    destruct (genBlades_spec host x z Hu Hpi
                (Z.to_nat (chunkBladeCount (currentConfig this) lodIndex lodSettings)) s)
      as (Hl & Hf & _).
    unfold bind, new_object, chunkGroup_add, modify, ret, run_value at 1 3.
    cbn [fst snd imesh_count imesh_attributes]. rewrite Hl. split; [lia | exact Hf].
  - cbn. split; [reflexivity | constructor].
Qed.

Lemma sampleHost_unit_stream : unit_stream (Math_random sampleHost).
Proof.
  intros n. cbn [Math_random sampleHost].
  pose proof (Nat.mod_upper_bound n 10 ltac:(lia)) as Hm.
  assert (H0 : 0 <= inject_Z (Z.of_nat (n mod 10))).
  { change 0 with (inject_Z 0). rewrite <- Zle_Qle. lia. }
  assert (H1 : inject_Z (Z.of_nat (n mod 10)) < 10).
  { change 10 with (inject_Z 10). rewrite <- Zlt_Qlt. lia. }
  split.
  - apply Qle_shift_div_l; [reflexivity | lra].
  - apply Qlt_shift_div_r; [reflexivity | lra].
Qed.

(** X21: the grass mesh of every stored chunk has as many attribute entries as
    instances, and every blade stands on the terrain inside the footprint of
    its chunk, with its scale in [0.8, 1.4] and its rotation in [0, 2 pi]. *)
Theorem stored_blades_in_chunk (host : Host) (s : Engine) (k : Key) (c : ChunkData) :
  unit_stream (Math_random host) -> 0 < Math_PI host ->
  reachable host s -> In (k, c) (chunks s) -> blades_in_chunk host k c.
Proof.
  intros Hu Hpi Hr. apply (reachable_all_stored host (blades_in_chunk host)); [| exact Hr].
  clear s k c Hr.
  intros x z lodIndex s c (geometry & lodSettings & grassMat & groundMat & _ & _ & _ & _ & _ & ->).
  unfold blades_in_chunk. cbn [grass].
  destruct (buildGrass_blades host s x z lodIndex lodSettings geometry grassMat
              (run_state (buildTrees host s x z lodIndex)
                 (run_state (buildGround s x z groundMat) s)) Hu Hpi) as [Hc Hf].
  split; [exact Hc |].
  eapply Forall_impl; [| exact Hf]. intros b.
  apply blade_in_chunk_compat; symmetry; [apply getChunkKey_fst | apply getChunkKey_snd].
Qed.

Lemma stored_blades_in_chunk_witness :
  let s := run_state (loadChunk sampleHost 0 0 0)
             (constructed sampleHost (set_bladeCount 400 bareFields)) in
  exists c, map_get (chunks s) (getChunkKey 0 0) = Some c /\
            blades_in_chunk sampleHost (getChunkKey 0 0) c.
Proof.
  intros s.
  assert (Hc : is_some (map_get (chunks s) (getChunkKey 0 0)) = true)
    by (vm_compute; reflexivity).
  pose proof (is_some_inv _ Hc) as [c Ec].
  exists c. split; [exact Ec |].
  apply (stored_blades_in_chunk sampleHost s (getChunkKey 0 0) c).
  - exact sampleHost_unit_stream.
  - reflexivity.
  - apply reachable_loadChunk, reachable_constructed.
  - apply map_get_In, Ec.
Defined.

(** ** Trees *)

Lemma In_indices (n : Z) (q : Q) :
  In q (indices n) -> exists i, (i < Z.to_nat n)%nat /\ q = inject_Z (Z.of_nat i).
Proof.
  unfold indices. intros H. apply in_map_iff in H. destruct H as (i & <- & Hi).
  apply in_seq in Hi. exists i. split; [lia | reflexivity].
Qed.

Lemma length_flat_map_le {A B : Type} (g : A -> list B) (l : list A) (n : nat) :
  (forall a, (List.length (g a) <= n)%nat) ->
  (List.length (flat_map g l) <= List.length l * n)%nat.
Proof.
  intros Hg. induction l as [| a l IH]; [reflexivity |].
  cbn [flat_map List.length]. rewrite length_app. specialize (Hg a). lia.
Qed.

Lemma treeCell_reach (host : Host) (densityProb treeScale x z cx cz : Q) (m : Transform) :
  cos_bounded host ->
  0 <= cx <= 4 -> 0 <= cz <= 4 ->
  treeCell host densityProb treeScale x z cx cz = Some m ->
  tree_in_reach host x z m.
Proof.
  intros Hcos Hcx Hcz. unfold treeCell.
  set (seed := Math_sin host _ * _).
  pose proof (frac_range seed) as [R0 R1].
  set (rand := seed - Math_floor seed) in *.
  destruct (Hcos seed) as [C0 C1].
  set (co := Math_cos host seed) in *.
  destruct (Qlt_bool _ _ && Qlt_bool rand (8 # 10)) eqn:E; [| discriminate].
  intros H. injection H as <-.
  unfold tree_in_reach, CHUNK_SIZE, gridCellSize. cbn [t_position vx vy vz].
  change (- (30) / 2) with (- (30) * (1 # 2)). change (30 / 2) with (30 * (1 # 2)).
  repeat split; try reflexivity; lra.
Qed.

Lemma treeData_spec (host : Host) (this : Engine) (x z : Q) (lodIndex : Z) :
  cos_bounded host ->
  (List.length (treeData host this x z lodIndex) <= 25)%nat /\
  Forall (tree_in_reach host x z) (treeData host this x z lodIndex) /\
  (treeData host this x z lodIndex <> [] -> (lodIndex <= 1)%Z).
Proof.
  intros Hcos. unfold treeData.
  destruct (Qlt_bool (1 # 100) (opt_or_default (treeDensity (currentConfig this)) 0)
            && (lodIndex <=? 1)%Z && is_some (treeTrunkGeo this)
            && is_some (treeFoliageGeo this)) eqn:E;
    [| split; [cbn; lia | split; [constructor | congruence]]].
  change (Qceiling (CHUNK_SIZE / gridCellSize)) with 5%Z.
  split; [| split].
  - eapply Nat.le_trans; [apply (length_flat_map_le _ _ 5) |].
    + intros cx. eapply Nat.le_trans; [apply (length_flat_map_le _ _ 1) |].
      * intros cz. destruct (treeCell _ _ _ _ _ _ _); cbn; lia.
      * unfold indices. rewrite length_map, length_seq. cbn. lia.
    + unfold indices. rewrite length_map, length_seq. cbn. lia.
  - apply Forall_forall. intros m Hm. apply in_flat_map in Hm.
    destruct Hm as (cx & Hcx & Hm). apply in_flat_map in Hm.
    destruct Hm as (cz & Hcz & Hm).
    destruct (treeCell host _ _ x z cx cz) as [m' |] eqn:Em; [| destruct Hm].
    destruct Hm as [<- | []].
    apply In_indices in Hcx. destruct Hcx as (i & Hi & ->).
    apply In_indices in Hcz. destruct Hcz as (j & Hj & ->).
    eapply treeCell_reach; [exact Hcos | | | exact Em].
    + change 0 with (inject_Z 0). change 4 with (inject_Z 4).
      rewrite <- !Zle_Qle. change (Z.to_nat 5) with 5%nat in Hi. lia.
    + change 0 with (inject_Z 0). change 4 with (inject_Z 4).
      rewrite <- !Zle_Qle. change (Z.to_nat 5) with 5%nat in Hj. lia.
  - intros _. apply andb_prop in E. destruct E as [E _].
    apply andb_prop in E. destruct E as [E _].
    apply andb_prop in E. destruct E as [_ E]. apply Z.leb_le in E. exact E.
Qed.

Lemma option_map_some_inv {A B : Type} (f : A -> B) (o : option A) (b : B) :
  option_map f o = Some b -> exists a, o = Some a /\ f a = b.
Proof. destruct o as [a |]; [| discriminate]. intros E. injection E as <-. eauto. Qed.

Lemma buildTrees_value (host : Host) (this : Engine) (x z : Q) (lodIndex : Z)
    (s : Engine) (t : TreeStore) :
  run_value (buildTrees host this x z lodIndex) s = Some t ->
  imesh_matrices (trunk t) = treeData host this x z lodIndex /\
  imesh_matrices (foliage t) = treeData host this x z lodIndex /\
  imesh_count (trunk t) = Z.of_nat (List.length (treeData host this x z lodIndex)) /\
  imesh_count (foliage t) = Z.of_nat (List.length (treeData host this x z lodIndex)) /\
  treeData host this x z lodIndex <> [].
Proof.
  unfold buildTrees.
  destruct (treeData host this x z lodIndex) as [| m ms]; [discriminate |].
  destruct (treeTrunkGeo this); [| discriminate].
  destruct (treeTrunkMat this); [| discriminate].
  destruct (treeFoliageGeo this); [| discriminate].
  destruct (treeFoliageMat this); [| discriminate].
  intros E. injection E as <-. cbn. repeat split; discriminate.
Qed.

Lemma tree_in_reach_compat (host : Host) (x x' z z' : Q) (m : Transform) :
  x == x' -> z == z' -> tree_in_reach host x z m -> tree_in_reach host x' z' m.
Proof.
  unfold tree_in_reach. intros Ex Ez H. rewrite <- Ex, <- Ez. exact H.
Qed.

Lemma sampleHost_cos_bounded : cos_bounded sampleHost.
Proof.
  intros q. cbn [Math_cos sampleHost]. pose proof (frac_range q) as [H0 H1]. split; lra.
Qed.

(** X22: in every stored chunk that has trees, trunk and foliage carry the same
    matrices, one per instance and between 1 and 25 of them; every tree
    stands on the terrain, half a unit sunk, at most 2.4 outside the
    footprint of its chunk; only chunks of level 0 or 1 have trees. *)
Theorem stored_trees_in_chunk (host : Host) (s : Engine) (k : Key) (c : ChunkData) :
  cos_bounded host ->
  reachable host s -> In (k, c) (chunks s) -> trees_in_chunk host k c.
Proof.
  intros Hcos Hr. apply (reachable_all_stored host (trees_in_chunk host)); [| exact Hr].
  clear s k c Hr.
  intros x z lodIndex s c (geometry & lodSettings & grassMat & groundMat & _ & _ & _ & _ & _ & ->).
  unfold trees_in_chunk. cbn [trees lodLevel]. intros t Et.
  apply buildTrees_value in Et. destruct Et as (E1 & E2 & E3 & E4 & Hne).
  destruct (treeData_spec host s x z lodIndex Hcos) as (Hlen & Hf & Hlod).
  rewrite E1, E2, E3, E4. repeat split; try reflexivity.
  - destruct (treeData host s x z lodIndex); [congruence | cbn; lia].
  - exact Hlen.
  - eapply Forall_impl; [| exact Hf]. intros m.
    apply tree_in_reach_compat; symmetry; [apply getChunkKey_fst | apply getChunkKey_snd].
  - apply Hlod, Hne.
Qed.

Lemma stored_trees_in_chunk_witness :
  let s := run_state (loadChunk sampleHost 0 0 0) (constructed sampleHost forest) in
  exists c, map_get (chunks s) (getChunkKey 0 0) = Some c /\
            is_some (trees c) = true /\
            trees_in_chunk sampleHost (getChunkKey 0 0) c.
Proof.
  intros s.
  assert (Ht : option_map (fun c => is_some (trees c)) (map_get (chunks s) (getChunkKey 0 0))
               = Some true)
    by (vm_compute; reflexivity).
  pose proof (option_map_some_inv _ _ _ Ht) as (c & Ec & Hs).
  exists c. split; [exact Ec | split; [exact Hs |]].
  apply (stored_trees_in_chunk sampleHost s (getChunkKey 0 0) c).
  - exact sampleHost_cos_bounded.
  - apply reachable_loadChunk, reachable_constructed.
  - apply map_get_In, Ec.
Defined.

(** ** The bias and the levels *)

Lemma getLODLevel_from_bias (levels : list LODLevel) (d : root) (b1 b2 : Q) :
  (forall l, In l levels -> 0 <= distance l) ->
  b1 <= b2 ->
  forall i : Z,
    (0 <= i)%Z ->
    (i <= getLODLevel_from levels i d b1)%Z ->
    (i <= getLODLevel_from levels i d b2 <= getLODLevel_from levels i d b1)%Z.
Proof.
  intros Hd Hb. induction levels as [| hd rest IH]; intros i Hi; simpl.
  - lia.
  - assert (Hhd : 0 <= distance hd) by (apply Hd; left; reflexivity).
    assert (Hrest : forall l, In l rest -> 0 <= distance l)
      by (intros l Hl; apply Hd; right; exact Hl).
    case_root_ltb d (distance hd * b1).
    + assert (H2 : root_ltb d (distance hd * b2) = true).
      { apply root_ltb_iff. eapply root_lt_weaken; [exact E |]. nra. }
      rewrite H2. lia.
    + intros Hfound.
      assert (Hn : (i + 1 <= getLODLevel_from rest (i + 1) d b1)%Z)
        by (destruct (getLODLevel_from_range rest (i + 1) d b1); lia).
      destruct (root_ltb d (distance hd * b2)).
      * lia.
      * specialize (IH Hrest (i + 1)%Z ltac:(lia) Hn). lia.
Qed.

(** X25: a larger bias never gives a chunk a coarser level, nor drops it: at
    the same distance the level under the larger bias is at most the level
    under the smaller one. *)
Theorem getLODLevel_bias_antitone (c1 c2 : GrassConfig) (d : root) :
  or_default (lodBias c1) 1 <= or_default (lodBias c2) 1 ->
  (0 <= getLODLevel c1 d)%Z ->
  (0 <= getLODLevel c2 d <= getLODLevel c1 d)%Z.
Proof.
  intros Hb Hf. unfold getLODLevel in *.
  apply getLODLevel_from_bias; [| exact Hb | lia | exact Hf].
  intros l Hl. simpl in Hl. destruct Hl as [<- | [<- | [<- | []]]]; simpl; lra.
Qed.

Lemma getLODLevel_bias_antitone_witness :
  (0 <= getLODLevel (set_lodBias 2 goldenFields) (root_of_Q 60)
     <= getLODLevel goldenFields (root_of_Q 60))%Z.
Proof.
  apply (getLODLevel_bias_antitone goldenFields (set_lodBias 2 goldenFields) (root_of_Q 60)).
  - vm_compute. discriminate.
  - vm_compute. discriminate.
Defined.

Lemma getLODLevel_negative_bias (cfg : GrassConfig) (d : root) :
  lodBias cfg < 0 -> getLODLevel cfg d = (-1)%Z.
Proof.
  intros Hb. destruct (Z.eq_dec (getLODLevel cfg d) (-1)) as [E | E]; [exact E |].
  exfalso. apply getLODLevel_within in E. destruct E as (_ & Ht & _).
  unfold or_default in Ht.
  destruct (Qeq_bool (lodBias cfg) 0) eqn:Eq.
  - apply Qeq_bool_iff in Eq. lra.
  - unfold BASE_MAX_DISTANCE in Ht. simpl in Ht. lra.
Qed.

(** X26: under a negative [lodBias] no distance is in range, the needed set is
    empty, and an applied refresh leaves the store empty. *)
Theorem negative_lodBias_empties_store (host : Host) (s : Engine) (p : Vector3) :
  lodBias (currentConfig s) < 0 ->
  throttled (set_camera_position p s) = false ->
  (forall d, getLODLevel (currentConfig s) d = (-1)%Z) /\
  neededChunks (currentConfig s) (vx p) (vz p) = [] /\
  chunks (run_state (refresh host p) s) = [].
Proof.
  intros Hb Ht.
  assert (Hn : neededChunks (currentConfig s) (vx p) (vz p) = []).
  { destruct (neededChunks (currentConfig s) (vx p) (vz p)) as [| [k n] rest] eqn:E;
      [reflexivity |].
    exfalso.
    assert (Hin : In (k, n) (neededChunks (currentConfig s) (vx p) (vz p)))
      by (rewrite E; left; reflexivity).
    apply neededChunks_entry in Hin. destruct Hin as (_ & Hl & Hne & _).
    apply Hne. rewrite Hl. apply getLODLevel_negative_bias, Hb. }
  split; [intros d; apply getLODLevel_negative_bias, Hb | split; [exact Hn |]].
  destruct (chunks (run_state (refresh host p) s)) as [| [k c] rest] eqn:E; [reflexivity |].
  exfalso.
  assert (Hin : In (k, c) (chunks (run_state (refresh host p) s)))
    by (rewrite E; left; reflexivity).
  unfold run_state in Hin. rewrite refresh_run in Hin.
  apply (updateChunks_store host _ Ht) in Hin. destruct Hin as (n & Hin & _).
  change (currentConfig (set_camera_position p s)) with (currentConfig s) in Hin.
  change (camera_position (set_camera_position p s)) with p in Hin.
  rewrite Hn in Hin. destruct Hin.
Qed.

Lemma negative_lodBias_empties_store_witness :
  let s := run_state (updateConfig sampleHost (set_lodBias (- (1)) bareFields))
             (run_state (refresh sampleHost (vec3 0 15 0)) (constructed sampleHost bareFields)) in
  let p := vec3 20 15 0 in
  (forall d, getLODLevel (currentConfig s) d = (-1)%Z) /\
  neededChunks (currentConfig s) (vx p) (vz p) = [] /\
  chunks (run_state (refresh sampleHost p) s) = [].
Proof.
  apply (negative_lodBias_empties_store sampleHost).
  - vm_compute. reflexivity.
  - vm_compute. reflexivity.
Defined.

(** ** Blades per level *)

(** X24: with a non-negative blade count and a peripheral density between 0
    and 2.5, a coarser level never has more blades in a chunk than a finer
    one. *)
Theorem chunkBladeCount_decreasing (cfg : GrassConfig) (i j : nat) (li lj : LODLevel) :
  0 <= bladeCount cfg ->
  0 <= opt_nullish (peripheralDensity cfg) 1 <= 5 # 2 ->
  nth_error LOD_LEVELS i = Some li ->
  nth_error LOD_LEVELS j = Some lj ->
  (i <= j)%nat ->
  (chunkBladeCount cfg (Z.of_nat j) lj <= chunkBladeCount cfg (Z.of_nat i) li)%Z.
Proof.
  intros Hb [Hp0 Hp1] Ei Ej Hij. unfold chunkBladeCount, getBladeDensity.
  set (p := opt_nullish (peripheralDensity cfg) 1) in *.
  apply Qfloor_resp_le.
  assert (Hd : bladeCount cfg / (200 * 200) == bladeCount cfg * (1 # 40000)) by field.
  rewrite Hd. unfold CHUNK_SIZE.
  assert (Hk : 0 <= bladeCount cfg * (1 # 40000) * (30 * 30)) by nra.
  set (a := bladeCount cfg * (1 # 40000) * (30 * 30)) in *.
  assert (Hi : (i < 3)%nat)
    by (apply (nth_error_Some LOD_LEVELS i); rewrite Ei; discriminate).
  assert (Hj : (j < 3)%nat)
    by (apply (nth_error_Some LOD_LEVELS j); rewrite Ej; discriminate).
  destruct i as [| [| [| i]]]; try lia; simpl in Ei; injection Ei as <-;
    destruct j as [| [| [| j]]]; try lia; simpl in Ej; injection Ej as <-;
    simpl; nra.
Qed.

Lemma chunkBladeCount_decreasing_witness :
  (chunkBladeCount goldenFields 2 {| distance := 150; density := (1 # 10);
                                     segments := 1; castShadow := false |}
   <= chunkBladeCount goldenFields 0 {| distance := 45; density := 1;
                                        segments := 4; castShadow := true |})%Z.
Proof.
  apply (chunkBladeCount_decreasing goldenFields 0 2).
  - vm_compute. discriminate.
  - split; vm_compute; discriminate.
  - reflexivity.
  - reflexivity.
  - lia.
Defined.

(** ** Tree density *)

Lemma treeCell_saturated (host : Host) (d1 d2 treeScale x z cx cz : Q) :
  2 # 3 < d1 -> 2 # 3 < d2 ->
  treeCell host d1 treeScale x z cx cz = treeCell host d2 treeScale x z cx cz.
Proof.
  intros H1 H2. unfold treeCell.
  set (seed := Math_sin host _ * _).
  set (wx := _ + _ + _ * _ + _). set (wz := _ + _ + _ * _ + _).
  pose proof (noise2D_range host (wx * (3 # 100)) (wz * (3 # 100))) as [_ Hn].
  set (forestNoise := noise2D host _ _) in *.
  assert (E1 : Qlt_bool (forestNoise * (5 # 10) + (5 # 10)) (d1 * (15 # 10)) = true)
    by (apply Qlt_bool_iff; lra).
  assert (E2 : Qlt_bool (forestNoise * (5 # 10) + (5 # 10)) (d2 * (15 # 10)) = true)
    by (apply Qlt_bool_iff; lra).
  rewrite E1, E2. reflexivity.
Qed.

(** X23: above two thirds the tree density changes nothing: two engines whose
    configurations differ only by tree densities above 2/3 place the same
    trees in every chunk. *)
Theorem treeData_saturated (host : Host) (s1 s2 : Engine) (x z : Q) (lodIndex : Z) :
  resources_ready s1 -> resources_ready s2 ->
  2 # 3 < opt_or_default (treeDensity (currentConfig s1)) 0 ->
  2 # 3 < opt_or_default (treeDensity (currentConfig s2)) 0 ->
  opt_or_default (treeScale (currentConfig s1)) 1
  = opt_or_default (treeScale (currentConfig s2)) 1 ->
  treeData host s1 x z lodIndex = treeData host s2 x z lodIndex.
Proof.
  intros R1 R2 H1 H2 Es. unfold treeData.
  destruct R1 as (_ & _ & _ & G1 & F1 & _). destruct R2 as (_ & _ & _ & G2 & F2 & _).
  assert (E1 : Qlt_bool (1 # 100) (opt_or_default (treeDensity (currentConfig s1)) 0) = true)
    by (apply Qlt_bool_iff; lra).
  assert (E2 : Qlt_bool (1 # 100) (opt_or_default (treeDensity (currentConfig s2)) 0) = true)
    by (apply Qlt_bool_iff; lra).
  rewrite E1, E2, Es.
  destruct (treeTrunkGeo s1); [| congruence]. destruct (treeFoliageGeo s1); [| congruence].
  destruct (treeTrunkGeo s2); [| congruence]. destruct (treeFoliageGeo s2); [| congruence].
  cbn [is_some andb]. destruct (lodIndex <=? 1)%Z; [| reflexivity].
  apply flat_map_ext. intros cx. apply flat_map_ext. intros cz.
  rewrite (treeCell_saturated host _ _ _ x z cx cz H1 H2). reflexivity.
Qed.

Lemma treeData_saturated_witness :
  treeData sampleHost (constructed sampleHost (set_treeDensity (Some (7 # 10)) forest)) 0 0 0
  = treeData sampleHost (constructed sampleHost forest) 0 0 0.
Proof.
  apply treeData_saturated.
  - apply initResources_ready.
  - apply initResources_ready.
  - vm_compute. reflexivity.
  - vm_compute. reflexivity.
  - reflexivity.
Defined.

(** ** The chunk under the camera *)

Lemma for_upto_contains (hi step : Q) :
  0 < step ->
  forall (fuel : nat) (x : Q) (n : nat),
    (n < fuel)%nat ->
    x + inject_Z (Z.of_nat n) * step <= hi ->
    exists v, In v (for_upto fuel x hi step) /\ v == x + inject_Z (Z.of_nat n) * step.
Proof.
  intros Hstep. induction fuel as [| fuel IH]; intros x n Hn Hle; [lia |].
  assert (Hnn : 0 <= inject_Z (Z.of_nat n)).
  { change 0 with (inject_Z 0). rewrite <- Zle_Qle. lia. }
  assert (Hx : x <= hi).
  { assert (0 <= inject_Z (Z.of_nat n) * step) by (apply Qmult_le_0_compat; lra). lra. }
  cbn [for_upto]. rewrite (proj2 (Qle_bool_iff x hi) Hx).
  destruct n as [| n].
  - exists x. split; [left; reflexivity |].
    change (inject_Z (Z.of_nat 0)) with 0. ring.
  - assert (E : x + inject_Z (Z.of_nat (S n)) * step
                == (x + step) + inject_Z (Z.of_nat n) * step).
    { rewrite Nat2Z.inj_succ. unfold Z.succ. rewrite inject_Z_plus.
      change (inject_Z 1) with 1. ring. }
    destruct (IH (x + step) n ltac:(lia)) as (v & Hv & Ev); [rewrite <- E; exact Hle |].
    exists v. split; [right; exact Hv | rewrite Ev, E; reflexivity].
Qed.

Lemma for_range_contains (lo hi step : Q) (n : nat) :
  0 < step ->
  lo + inject_Z (Z.of_nat n) * step <= hi ->
  exists v, In v (for_range lo hi step) /\ v == lo + inject_Z (Z.of_nat n) * step.
Proof.
  intros Hstep Hle. apply for_upto_contains; [exact Hstep | | exact Hle].
  unfold iterations.
  assert (Hq : inject_Z (Z.of_nat n) <= (hi - lo) / step).
  { apply Qle_shift_div_l; [exact Hstep | lra]. }
  apply Qfloor_resp_le in Hq. rewrite Qfloor_Z in Hq. lia.
Qed.

Lemma Math_round_near (cam : Q) :
  let c := Math_round (cam / CHUNK_SIZE) * CHUNK_SIZE in
  cam - 15 < c /\ c <= cam + 15.
Proof.
  unfold Math_round, CHUNK_SIZE.
  pose proof (Qfloor_le (cam / 30 + (1 # 2))) as Hl.
  pose proof (Qlt_floor (cam / 30 + (1 # 2))) as Hu.
  rewrite inject_Z_plus in Hu. change (inject_Z 1) with 1 in Hu.
  assert (E : cam / 30 == cam * (1 # 30)) by field.
  remember (inject_Z (Qfloor (cam / 30 + (1 # 2)))) as f.
  remember (cam / 30) as y.
  cbv zeta. split; lra.
Qed.

(** On each axis the loop of [updateChunks] visits a coordinate within half
    a chunk of the camera, once the range is at least one chunk. *)
Lemma grid_point_near (cam range : Q) :
  CHUNK_SIZE <= range ->
  let center := Math_round (cam / CHUNK_SIZE) * CHUNK_SIZE in
  exists v, In v (for_range (center - range) (center + range) CHUNK_SIZE) /\
            cam - 15 <= v /\ v <= cam + 15.
Proof.
  intros Hr center. destruct (Math_round_near cam) as [C0 C1]. fold center in C0, C1.
  unfold CHUNK_SIZE in *.
  set (lo := center - range).
  set (q := (cam + 15 - lo) * (1 # 30)).
  assert (Hq : 1 <= q) by (unfold q, lo; lra).
  pose proof (Qfloor_le q) as Fl. pose proof (Qlt_floor q) as Fu.
  rewrite inject_Z_plus in Fu. change (inject_Z 1) with 1 in Fu.
  assert (Hm : (1 <= Qfloor q)%Z).
  { change 1%Z with (Qfloor 1). apply Qfloor_resp_le. exact Hq. }
  destruct (for_range_contains lo (center + range) 30 (Z.to_nat (Qfloor q)))
    as (v & Hv & Ev).
  - reflexivity.
  - rewrite Z2Nat.id by lia. remember (inject_Z (Qfloor q)) as f.
    unfold q, lo in *. lra.
  - rewrite Z2Nat.id in Ev by lia. exists v. split; [exact Hv |].
    remember (inject_Z (Qfloor q)) as f. unfold q, lo in *. split; lra.
Qed.

Section FoldSetHas.
Context {A B V : Type}.
Variables (cond : A -> B -> bool) (key : A -> B -> Key) (val : A -> B -> V).

Lemma map_has_map_set (m : list (Key * V)) (k0 k : Key) (v0 : V) :
  map_has m k = true \/ k = k0 -> map_has (map_set m k0 v0) k = true.
Proof.
  unfold map_has. intros H. destruct (key_eqb k k0) eqn:E.
  - apply key_eqb_eq in E. subst k0. rewrite map_get_map_set_same. reflexivity.
  - apply key_eqb_neq in E. rewrite map_get_map_set_other by exact E.
    destruct H as [H | H]; [exact H | contradiction].
Qed.

Lemma fold_inner_has (a : A) (bs : list B) :
  forall (acc : list (Key * V)) k,
    map_has acc k = true \/ (exists b, In b bs /\ cond a b = true /\ k = key a b) ->
    map_has (fold_left (fun acc b =>
               if cond a b then map_set acc (key a b) (val a b) else acc) bs acc) k = true.
Proof.
  induction bs as [| b rest IH]; intros acc k H; cbn [fold_left].
  - destruct H as [H | (b & [] & _)]. exact H.
  - apply IH. destruct H as [H | (b' & [<- | Hb'] & Hc & Hk)].
    + left. destruct (cond a b); [apply map_has_map_set; left; exact H | exact H].
    + left. rewrite Hc. apply map_has_map_set. right. exact Hk.
    + right. exists b'. tauto.
Qed.

Lemma fold_outer_has (als : list A) (bs : list B) :
  forall (acc : list (Key * V)) k,
    map_has acc k = true \/
    (exists a b, In a als /\ In b bs /\ cond a b = true /\ k = key a b) ->
    map_has (fold_left (fun acc a =>
               fold_left (fun acc b =>
                 if cond a b then map_set acc (key a b) (val a b) else acc) bs acc)
               als acc) k = true.
Proof.
  induction als as [| a rest IH]; intros acc k H; cbn [fold_left].
  - destruct H as [H | (a & b & [] & _)]. exact H.
  - apply IH. destruct H as [H | (a' & b' & [<- | Ha'] & Hb' & Hc & Hk)].
    + left. apply fold_inner_has. left. exact H.
    + left. apply fold_inner_has. right. exists b'. tauto.
    + right. exists a', b'. tauto.
Qed.
End FoldSetHas.

Lemma neededChunks_contains (cfg : GrassConfig) (camX camZ x z : Q) :
  let bias := or_default (lodBias cfg) 1 in
  let range := BASE_MAX_DISTANCE * bias in
  let centerChunkX := Math_round (camX / CHUNK_SIZE) * CHUNK_SIZE in
  let centerChunkZ := Math_round (camZ / CHUNK_SIZE) * CHUNK_SIZE in
  In x (for_range (centerChunkX - range) (centerChunkX + range) CHUNK_SIZE) ->
  In z (for_range (centerChunkZ - range) (centerChunkZ + range) CHUNK_SIZE) ->
  getLODLevel cfg (Math_sqrt (Math_pow2 (x - camX) + Math_pow2 (z - camZ))) <> (-1)%Z ->
  map_has (neededChunks cfg camX camZ) (getChunkKey x z) = true.
Proof.
  intros bias range centerChunkX centerChunkZ Hx Hz Hl. unfold neededChunks.
  apply (fold_outer_has
           (fun x z => negb (getLODLevel cfg
              (Math_sqrt (Math_pow2 (x - camX) + Math_pow2 (z - camZ))) =? -1)%Z)
           (fun x z => getChunkKey x z)
           (fun x z => {| nx := x; nz := z;
                          lod := getLODLevel cfg
                            (Math_sqrt (Math_pow2 (x - camX) + Math_pow2 (z - camZ))) |})).
  right. exists x, z. repeat split; try assumption.
  apply negb_true_iff, Z.eqb_neq. exact Hl.
Qed.

Lemma getLODLevel_in_range (cfg : GrassConfig) (d : root) :
  root_lt d (BASE_MAX_DISTANCE * or_default (lodBias cfg) 1) ->
  getLODLevel cfg d <> (-1)%Z.
Proof.
  unfold getLODLevel, BASE_MAX_DISTANCE. simpl.
  set (bias := or_default (lodBias cfg) 1). intros H.
  destruct (root_ltb d (45 * bias)); [discriminate |].
  destruct (root_ltb d (85 * bias)); [discriminate |].
  apply root_ltb_iff in H. rewrite H. discriminate.
Qed.

Lemma camera_chunk_needed (cfg : GrassConfig) (camX camZ : Q) :
  1 # 5 <= or_default (lodBias cfg) 1 ->
  exists k n,
    In (k, n) (neededChunks cfg camX camZ) /\
    camX - 15 <= nx n /\ nx n <= camX + 15 /\
    camZ - 15 <= nz n /\ nz n <= camZ + 15.
Proof.
  intros Hb. set (bias := or_default (lodBias cfg) 1) in *.
  assert (Hr : CHUNK_SIZE <= BASE_MAX_DISTANCE * bias).
  { unfold CHUNK_SIZE, BASE_MAX_DISTANCE. simpl. lra. }
  destruct (grid_point_near camX _ Hr) as (x & Hx & X0 & X1).
  destruct (grid_point_near camZ _ Hr) as (z & Hz & Z0 & Z1).
  assert (Hl : getLODLevel cfg (Math_sqrt (Math_pow2 (x - camX) + Math_pow2 (z - camZ)))
               <> (-1)%Z).
  { apply getLODLevel_in_range. fold bias. unfold root_lt, Math_pow2, BASE_MAX_DISTANCE.
    simpl.
    assert (0 <= (x - camX) * (x - camX)) by apply Qsquare_nonneg.
    assert (0 <= (z - camZ) * (z - camZ)) by apply Qsquare_nonneg.
    assert ((x - camX) * (x - camX) <= 225) by nra.
    assert ((z - camZ) * (z - camZ) <= 225) by nra.
    assert (900 <= 150 * bias * (150 * bias)) by nra.
    repeat split; lra. }
  pose proof (neededChunks_contains cfg camX camZ x z Hx Hz Hl) as Hhas.
  apply map_has_In in Hhas. destruct Hhas as [n Hin].
  exists (getChunkKey x z), n. split; [exact Hin |].
  apply neededChunks_entry in Hin. destruct Hin as (Hk & _).
  unfold getChunkKey in Hk. injection Hk as Ex Ez.
  assert (Ex' : nx n == x) by (rewrite <- (Qred_correct (nx n)), <- Ex; apply Qred_correct).
  assert (Ez' : nz n == z) by (rewrite <- (Qred_correct (nz n)), <- Ez; apply Qred_correct).
  rewrite Ex', Ez'. tauto.
Qed.

(** X12: with a bias of at least 0.2, the lowest value the render-distance
    slider offers, an applied refresh leaves in the store a chunk whose
    footprint contains the camera. *)
Theorem camera_chunk_loaded (host : Host) (s : Engine) (p : Vector3) :
  reachable host s ->
  1 # 5 <= or_default (lodBias (currentConfig s)) 1 ->
  throttled (set_camera_position p s) = false ->
  exists k c,
    map_get (chunks (run_state (refresh host p) s)) k = Some c /\
    vx p - CHUNK_SIZE / 2 <= fst k /\ fst k <= vx p + CHUNK_SIZE / 2 /\
    vz p - CHUNK_SIZE / 2 <= snd k /\ snd k <= vz p + CHUNK_SIZE / 2.
Proof.
  intros Hr Hb Ht.
  destruct (camera_chunk_needed (currentConfig s) (vx p) (vz p) Hb)
    as (k & n & Hin & X0 & X1 & Z0 & Z1).
  destruct (refresh_store_ready host s p (proj1 (reachable_sound host s Hr)) Ht) as [Hall _].
  destruct (Hall k n Hin) as (c & Hc & _).
  exists k, c. split; [exact Hc |].
  apply neededChunks_entry in Hin. destruct Hin as (-> & _).
  rewrite getChunkKey_fst, getChunkKey_snd. unfold CHUNK_SIZE.
  change (30 / 2) with (30 * (1 # 2)). repeat split; lra.
Qed.

Lemma camera_chunk_loaded_witness :
  let s := constructed sampleHost (set_lodBias (1 # 5) bareFields) in
  let p := vec3 44 15 (- (16)) in
  exists k c,
    map_get (chunks (run_state (refresh sampleHost p) s)) k = Some c /\
    vx p - CHUNK_SIZE / 2 <= fst k /\ fst k <= vx p + CHUNK_SIZE / 2 /\
    vz p - CHUNK_SIZE / 2 <= snd k /\ snd k <= vz p + CHUNK_SIZE / 2.
Proof.
  apply (camera_chunk_loaded sampleHost).
  - apply reachable_constructed.
  - vm_compute. discriminate.
  - vm_compute. reflexivity.
Defined.

(** ** Tearing the engine down *)

Lemma dispose_chunks_run (fx : Fixtures) (s : Engine) :
  let unload := forEach (chunks s) unloadEntry in
  run_state (dispose_chunks fx) s = set_chunks [] (run_state unload s) /\
  run_events (dispose_chunks fx) s =
    [Dispose (renderer fx); Dispose (controls fx)]
    ++ match sunMesh fx with Some (g, m) => [Dispose g; Dispose m] | None => [] end
    ++ run_events unload s.
Proof.
  intros unload. unfold dispose_chunks.
  rewrite !run_state_bind, !run_events_bind.
  destruct (sunMesh fx) as [[g m] |]; cbn; rewrite app_nil_r; split; reflexivity.
Qed.

Lemma dispose_resources_run (fx : Fixtures) (s : Engine) :
  run_state (dispose_resources fx) s = s /\
  run_events (dispose_resources fx) s =
    map Dispose
      (map material_id (opt_list (grassMaterial s))
       ++ map material_id (opt_list (groundMaterial s))
       ++ opt_list (treeTrunkGeo s)
       ++ opt_list (treeFoliageGeo s)
       ++ map material_id (opt_list (treeTrunkMat s))
       ++ map material_id (opt_list (treeFoliageMat s))
       ++ match leafGenerator fx with Some (a, b, c) => [a; b; c] | None => [] end
       ++ lodGeometries s
       ++ opt_list (bladeTexture fx)).
Proof.
  unfold dispose_resources. split.
  - repeat run_step.
    destruct (leafGenerator fx) as [[[a b] c] |]; repeat run_step;
      destruct (bladeTexture fx); reflexivity.
  - repeat events_step.
    destruct (grassMaterial s), (groundMaterial s), (treeTrunkGeo s), (treeFoliageGeo s),
      (treeTrunkMat s), (treeFoliageMat s); cbn [opt_list map app];
      destruct (leafGenerator fx) as [[[a b] c] |]; repeat events_step;
      destruct (bladeTexture fx); cbn [opt_list map app dispose_if];
      rewrite ?map_app; cbn; rewrite ?app_nil_r; reflexivity.
Qed.

(** X29: [dispose()] unloads every stored chunk, leaves the store and the
    chunk group empty, and disposes of every shared object and of every
    object of the engine's own. *)
Theorem GrassEngine_dispose_releases (host : Host) (fx : Fixtures) (s : Engine) :
  driven host s ->
  let s' := fst (GrassEngine_dispose fx s) in
  let evs := snd (GrassEngine_dispose fx s) in
  chunks s' = [] /\ chunkGroup s' = [] /\
  (forall k, map_has (chunks s) k = true -> In (Engine_event (Call_unloadChunk k)) evs) /\
  (forall o, In o (shared_objects s) -> In (Engine_event (Dispose o)) evs) /\
  (forall o, In o (fixture_objects fx) -> In (Engine_event (Dispose o)) evs) /\
  In RemoveResizeListener evs /\ In Scene_remove_chunkGroup evs.
Proof.
  intros Hd s' evs. unfold s', evs, GrassEngine_dispose. cbn [fst snd].
  destruct (dispose_chunks_run fx s) as [Es Ee]. cbv zeta in Es, Ee.
  set (s0 := run_state (forEach (chunks s) unloadEntry) s) in *.
  rewrite Es, Ee.
  destruct (dispose_resources_run fx (set_chunks [] s0)) as [Es' Ee']. rewrite Es', Ee'.
  clear Es Ee Es' Ee'.
  pose proof (driven_scene_wf host s Hd) as W.
  pose proof (reachable_sound host s (driven_reachable host s Hd)) as (R & _).
  destruct (unload_all_scene_kept (chunks s) s (conj W R)) as [(Hg & _) _]. fold s0 in Hg.
  pose proof (unload_all_empties s) as He. fold s0 in He.
  pose proof (unload_all_fixed (chunks s) s) as Hf. fold s0 in Hf.
  destruct Hf as (_ & _ & F1 & F2 & F3 & F4 & F5 & F6 & F7 & _).
  cbn [chunks chunkGroup set_chunks lodGeometries grassMaterial groundMaterial
       treeTrunkGeo treeFoliageGeo treeTrunkMat treeFoliageMat].
  rewrite F1, F2, F3, F4, F5, F6, F7.
  split; [reflexivity | split; [| split; [| split; [| split; [| split]]]]].
  - rewrite Hg. unfold scene_meshes. rewrite He. reflexivity.
  - intros k Hk. apply map_has_In in Hk. destruct Hk as [c Hc].
    apply in_cons, in_or_app. right. apply in_or_app. left. apply in_map.
    apply in_or_app. right. apply in_or_app. right.
    exact (unload_all_events (chunks s) s k c Hc).
  - intros o Ho. apply in_cons, in_or_app. right. apply in_or_app. right.
    apply in_cons, in_or_app. right. apply in_map, in_map.
    unfold shared_objects in Ho. rewrite !in_app_iff in *. tauto.
  - intros o Ho. apply in_cons, in_or_app. right.
    unfold fixture_objects in Ho. rewrite !in_app_iff in Ho.
    destruct Ho as [Ho | [Ho | [Ho | [Ho | Ho]]]].
    + apply in_or_app. left. apply in_map. apply in_or_app. left.
      destruct Ho as [<- | [<- | []]]; [left | right; left]; reflexivity.
    + apply in_or_app. left. apply in_map. apply in_or_app. right. apply in_or_app. left.
      destruct (sunMesh fx) as [[g m] |]; [| destruct Ho].
      destruct Ho as [<- | [<- | []]]; [left | right; left]; reflexivity.
    + apply in_or_app. right. apply in_cons, in_or_app. left.
      destruct (pollenMesh fx) as [g |]; [| destruct Ho].
      right. destruct Ho as [<- | Ho]; [left; reflexivity | right].
      destruct (pollenMaterial fx) as [m |]; [| destruct Ho].
      destruct Ho as [<- | []]. left. reflexivity.
    + apply in_or_app. right. apply in_cons, in_or_app. right. apply in_map, in_map.
      rewrite !in_app_iff. tauto.
    + apply in_or_app. right. apply in_cons, in_or_app. right. apply in_map, in_map.
      rewrite !in_app_iff. tauto.
  - left. reflexivity.
  - rewrite !in_app_iff. cbn [In]. tauto.
Qed.

Lemma GrassEngine_dispose_releases_witness :
  let s := run_state (refresh sampleHost (vec3 0 15 40)) (constructed sampleHost bareFields) in
  let s' := fst (GrassEngine_dispose sampleFixtures s) in
  let evs := snd (GrassEngine_dispose sampleFixtures s) in
  chunks s' = [] /\ chunkGroup s' = [] /\
  (forall k, map_has (chunks s) k = true -> In (Engine_event (Call_unloadChunk k)) evs) /\
  (forall o, In o (shared_objects s) -> In (Engine_event (Dispose o)) evs) /\
  (forall o, In o (fixture_objects sampleFixtures) -> In (Engine_event (Dispose o)) evs) /\
  In RemoveResizeListener evs /\ In Scene_remove_chunkGroup evs.
Proof.
  apply (GrassEngine_dispose_releases sampleHost sampleFixtures).
  apply driven_refresh, driven_constructed.
Defined.

(** ** Levels in the store *)

Lemma root_ltb_compat (r r' t : Q) :
  r == r' -> root_ltb (Math_sqrt r) t = root_ltb (Math_sqrt r') t.
Proof.
  intros E. destruct (root_ltb (Math_sqrt r) t) eqn:E1.
  - symmetry. apply root_ltb_iff. apply root_ltb_iff in E1.
    exact (root_lt_compat r r' t E E1).
  - symmetry. apply root_ltb_false_iff. apply root_ltb_false_iff in E1.
    intros H. apply E1. apply (root_lt_compat r' r t); [symmetry; exact E | exact H].
Qed.

Lemma getLODLevel_from_compat (levels : list LODLevel) (r r' bias : Q) :
  r == r' ->
  forall i, getLODLevel_from levels i (Math_sqrt r) bias
            = getLODLevel_from levels i (Math_sqrt r') bias.
Proof.
  intros E. induction levels as [| hd rest IH]; intros i; [reflexivity |].
  cbn [getLODLevel_from]. rewrite (root_ltb_compat r r' _ E), IH. reflexivity.
Qed.

(** X11: after an applied refresh every stored chunk has the level its
    distance from the refresh position calls for, and this is one of the
    levels of the LOD table. *)
Theorem refresh_levels_by_distance (host : Host) (s : Engine) (p : Vector3)
    (k : Key) (c : ChunkData) :
  throttled (set_camera_position p s) = false ->
  In (k, c) (chunks (run_state (refresh host p) s)) ->
  lodLevel c = getLODLevel (currentConfig s) (chunk_distance k p) /\
  (0 <= lodLevel c < 3)%Z.
Proof.
  intros Ht Hin. unfold run_state in Hin. rewrite refresh_run in Hin.
  apply (updateChunks_store host _ Ht) in Hin. destruct Hin as (n & Hin & El).
  change (currentConfig (set_camera_position p s)) with (currentConfig s) in Hin.
  change (camera_position (set_camera_position p s)) with p in Hin.
  pose proof (neededChunks_valid _ _ _ _ Hin) as [_ Hv]. cbn [snd] in Hv.
  apply neededChunks_entry in Hin. destruct Hin as (-> & Hl & _).
  rewrite El. split; [| exact Hv].
  rewrite Hl. unfold getLODLevel, chunk_distance. apply getLODLevel_from_compat.
  unfold Math_pow2. rewrite getChunkKey_fst, getChunkKey_snd. reflexivity.
Qed.

Lemma refresh_levels_by_distance_witness :
  let s := constructed sampleHost bareFields in
  let p := vec3 0 15 40 in
  let k := getChunkKey 60 30 in
  exists c,
    map_get (chunks (run_state (refresh sampleHost p) s)) k = Some c /\
    lodLevel c = getLODLevel (currentConfig s) (chunk_distance k p) /\
    (0 <= lodLevel c < 3)%Z.
Proof.
  intros s p k.
  assert (Hc : is_some (map_get (chunks (run_state (refresh sampleHost p) s)) k) = true)
    by (vm_compute; reflexivity).
  pose proof (is_some_inv _ Hc) as [c Ec].
  exists c. split; [exact Ec |].
  apply (refresh_levels_by_distance sampleHost s p k c).
  - vm_compute. reflexivity.
  - apply map_get_In, Ec.
Defined.

(** ** The size of the store *)

Lemma length_map_set {V : Type} (m : list (Key * V)) (k : Key) (v : V) :
  (List.length (map_set m k v) <= S (List.length m))%nat.
Proof.
  induction m as [| [k0 v0] rest IH]; cbn [map_set List.length]; [lia |].
  destruct (key_eqb k k0); cbn [List.length]; lia.
Qed.

Section FoldSetLength.
Context {A B V : Type}.
Variables (cond : A -> B -> bool) (key : A -> B -> Key) (val : A -> B -> V).

Lemma fold_inner_length (a : A) (bs : list B) :
  forall acc : list (Key * V),
    (List.length (fold_left (fun acc b =>
        if cond a b then map_set acc (key a b) (val a b) else acc) bs acc)
     <= List.length acc + List.length bs)%nat.
Proof.
  induction bs as [| b rest IH]; intros acc; cbn [fold_left List.length]; [lia |].
  eapply Nat.le_trans; [apply IH |].
  destruct (cond a b); [pose proof (length_map_set acc (key a b) (val a b)); lia | lia].
Qed.

Lemma fold_outer_length (als : list A) (bs : list B) :
  forall acc : list (Key * V),
    (List.length (fold_left (fun acc a =>
        fold_left (fun acc b =>
          if cond a b then map_set acc (key a b) (val a b) else acc) bs acc) als acc)
     <= List.length acc + List.length als * List.length bs)%nat.
Proof.
  induction als as [| a rest IH]; intros acc; cbn [fold_left List.length]; [lia |].
  eapply Nat.le_trans; [apply IH |].
  pose proof (fold_inner_length a bs acc). lia.
Qed.
End FoldSetLength.

Lemma length_for_upto (fuel : nat) (x hi step : Q) :
  (List.length (for_upto fuel x hi step) <= fuel)%nat.
Proof.
  revert x. induction fuel as [| fuel IH]; intros x; cbn [for_upto List.length]; [lia |].
  destruct (Qle_bool x hi); cbn [List.length]; [specialize (IH (x + step)) |]; lia.
Qed.

Lemma length_for_range_axis (cfg : GrassConfig) (center : Q) :
  let range := BASE_MAX_DISTANCE * or_default (lodBias cfg) 1 in
  (List.length (for_range (center - range) (center + range) CHUNK_SIZE) <= axis_cells cfg)%nat.
Proof.
  intros range. unfold for_range. eapply Nat.le_trans; [apply length_for_upto |].
  unfold iterations, axis_cells. fold range.
  assert (E : (center + range - (center - range)) / CHUNK_SIZE
              == 2 * BASE_MAX_DISTANCE * or_default (lodBias cfg) 1 / CHUNK_SIZE).
  { unfold range, CHUNK_SIZE. field. }
  rewrite (Qfloor_comp _ _ E). lia.
Qed.

Lemma neededChunks_length (cfg : GrassConfig) (camX camZ : Q) :
  (List.length (neededChunks cfg camX camZ) <= axis_cells cfg * axis_cells cfg)%nat.
Proof.
  unfold neededChunks.
  eapply Nat.le_trans;
    [apply (fold_outer_length
              (fun x z => negb (getLODLevel cfg
                 (Math_sqrt (Math_pow2 (x - camX) + Math_pow2 (z - camZ))) =? -1)%Z)
              (fun x z => getChunkKey x z)
              (fun x z => {| nx := x; nz := z;
                             lod := getLODLevel cfg
                               (Math_sqrt (Math_pow2 (x - camX) + Math_pow2 (z - camZ))) |})) |].
  cbn [List.length Nat.add].
  apply Nat.mul_le_mono; apply length_for_range_axis.
Qed.

(** X13: after an applied refresh the store holds at most one chunk per cell
    of the square the loops scan: [floor(10 * bias) + 1] cells on each axis,
    121 chunks under the default bias. *)
Theorem store_size_bounded (host : Host) (s : Engine) (p : Vector3) :
  reachable host s ->
  throttled (set_camera_position p s) = false ->
  (List.length (chunks (run_state (refresh host p) s))
   <= axis_cells (currentConfig s) * axis_cells (currentConfig s))%nat.
Proof.
  intros Hr Ht.
  eapply Nat.le_trans; [| apply (neededChunks_length (currentConfig s) (vx p) (vz p))].
  rewrite <- (length_map fst (chunks _)), <- (length_map fst (neededChunks _ _ _)).
  apply NoDup_incl_length.
  - apply (reachable_distinct_keys host). apply reachable_refresh, Hr.
  - intros k Hk. apply in_map_iff in Hk. destruct Hk as ([k0 c] & <- & Hin). cbn [fst].
    unfold run_state in Hin. rewrite refresh_run in Hin.
    apply (updateChunks_store host _ Ht) in Hin. destruct Hin as (n & Hin & _).
    apply (in_map fst) in Hin. exact Hin.
Qed.

Lemma store_size_bounded_witness :
  (List.length (chunks (run_state (refresh sampleHost (vec3 0 15 40))
                          (constructed sampleHost bareFields)))
   <= axis_cells (currentConfig (constructed sampleHost bareFields))
      * axis_cells (currentConfig (constructed sampleHost bareFields)))%nat.
Proof.
  apply (store_size_bounded sampleHost).
  - apply reachable_constructed.
  - vm_compute. reflexivity.
Defined.

(** ** What [unloadChunk] may dispose of *)

Lemma shared_objects_extends (s s' : Engine) :
  extends s s' -> shared_objects s' = shared_objects s.
Proof.
  unfold extends, shared_objects. intros (E1 & E2 & E3 & E4 & E5 & E6 & E7 & _).
  rewrite E1, E2, E3, E4, E5, E6, E7. reflexivity.
Qed.

Lemma spares_shared_extends (s s' : Engine) (c : ChunkData) :
  extends s s' -> spares_shared s c -> spares_shared s' c.
Proof.
  intros E. unfold spares_shared. rewrite (shared_objects_extends s s' E). auto.
Qed.

Lemma owned_kept_refl (s : Engine) : owned_kept s s.
Proof. split; [apply extends_refl | auto]. Qed.

Lemma owned_kept_trans (a b c : Engine) : owned_kept a b -> owned_kept b c -> owned_kept a c.
Proof.
  intros [E1 H1] [E2 H2]. split; [eapply extends_trans; eassumption |].
  intros Sa k c0 Hin.
  destruct (H2 (sound_extends a b E1 Sa) k c0 Hin) as [Hb | Hs].
  - exact (H1 Sa k c0 Hb).
  - right. unfold spares_shared in *.
    rewrite <- (shared_objects_extends a b E1). exact Hs.
Qed.

Lemma buildGrass_count (host : Host) (this : Engine) (x z : Q) (lodIndex : Z)
    (lodSettings : LODLevel) (geometry : nat) (grassMat : Material) (s : Engine) :
  imesh_count (run_value (buildGrass host this x z lodIndex lodSettings geometry grassMat) s)
  = if (chunkBladeCount (currentConfig this) lodIndex lodSettings >? 0)%Z
    then chunkBladeCount (currentConfig this) lodIndex lodSettings else 0%Z.
Proof.
  unfold buildGrass.
  destruct (chunkBladeCount (currentConfig this) lodIndex lodSettings >? 0)%Z.
  - rewrite run_value_bind. reflexivity.
  - reflexivity.
Qed.

Lemma loadChunk_entry_spares (host : Host) (x z : Q) (lodIndex : Z) (s : Engine)
    (c : ChunkData) :
  sound s -> loadChunk_entry host x z lodIndex s c -> spares_shared s c.
Proof.
  intros (R & Ha & Hg)
    (geometry & lodSettings & grassMat & groundMat & Hl & Eg & El & Egm & Egd & ->).
  unfold spares_shared. cbn [ground grass].
  destruct (buildGround_value s x z groundMat s) as [Egeo Emat].
  rewrite Egeo, Emat, buildGrass_count.
  split; [| split; [| split]].
  - intros sh Hsh. apply Ha, Hsh.
  - destruct (truthy (lodDebug (currentConfig s))).
    + intros _ sh Hsh. cbn [material_id]. apply Ha in Hsh. lia.
    + unfold instanceof_MeshBasicMaterial. rewrite (Hg groundMat Egd). discriminate.
  - destruct (Z.gtb_spec (chunkBladeCount (currentConfig s) lodIndex lodSettings) 0)
      as [Hpos | Hnp]; [| lia].
    intros _ sh Hsh. apply Ha in Hsh.
    pose proof (buildGrass_own_geometry host s x z lodIndex lodSettings geometry grassMat
                  (run_state (buildTrees host s x z lodIndex)
                     (run_state (buildGround s x z groundMat) s)) Hpos) as Hown.
    pose proof (buildGround_grows s x z groundMat s) as G1.
    pose proof (buildTrees_grows host s x z lodIndex
                  (run_state (buildGround s x z groundMat) s)) as G2.
    unfold grows in G1, G2. lia.
  - destruct (Z.gtb_spec (chunkBladeCount (currentConfig s) lodIndex lodSettings) 0);
      [right; assumption | left; reflexivity].
Qed.

Lemma loadChunk_owned_kept (host : Host) (x z : Q) (lodIndex : Z) :
  keeps owned_kept (loadChunk host x z lodIndex).
Proof.
  intros s. split; [apply loadChunk_extends |]. intros Hs k c Hin.
  apply loadChunk_new_entry in Hin. destruct Hin as [H | [_ H]]; [left; exact H |].
  right. exact (loadChunk_entry_spares host x z lodIndex s c Hs H).
Qed.

Lemma unloadChunk_owned_kept (key : Key) : keeps owned_kept (unloadChunk key).
Proof.
  intros s. split; [apply unloadChunk_extends |]. intros _ k c Hin. left.
  exact (unloadChunk_fewer key s k c Hin).
Qed.

Lemma unloadStale_owned_kept (needed : list (Key * Needed)) (e : Key * ChunkData) :
  keeps owned_kept (unloadStale needed e).
Proof.
  destruct e as [key currentData]. unfold unloadStale.
  destruct (map_get needed key) as [n |]; [| apply unloadChunk_owned_kept].
  destruct (negb (lod n =? lodLevel currentData)%Z);
    [apply unloadChunk_owned_kept | apply (keeps_ret _ owned_kept_refl)].
Qed.

Lemma loadMissing_owned_kept (host : Host) (e : Key * Needed) :
  keeps owned_kept (loadMissing host e).
Proof.
  destruct e as [key data]. unfold loadMissing.
  apply (keeps_bind _ owned_kept_trans); [apply (keeps_get _ owned_kept_refl) |].
  intros this. destruct (negb (map_has (chunks this) key));
    [apply loadChunk_owned_kept | apply (keeps_ret _ owned_kept_refl)].
Qed.

Lemma store_spares_kept (s s' : Engine) :
  owned_kept s s' -> sound s -> store_spares s -> store_spares s'.
Proof.
  intros [E H] Hs Hst k c Hin. apply (spares_shared_extends s s' c E).
  destruct (H Hs k c Hin) as [H0 | H1]; [exact (Hst k c H0) | exact H1].
Qed.

Lemma updateChunks_store_spares (host : Host) (s : Engine) :
  sound s -> store_spares s -> store_spares (run_state (updateChunks host) s).
Proof.
  intros Hs Hst. destruct (throttled s) eqn:Ht.
  - unfold run_state. rewrite updateChunks_throttled by exact Ht. exact Hst.
  - destruct (updateChunks_applied host s Ht) as [E _]. rewrite E.
    set (s0 := set_lastUpdatePos (camera_position s) s).
    set (needed := neededChunks (currentConfig s)
                     (vx (camera_position s)) (vz (camera_position s))).
    set (s1 := run_state (forEach (chunks s) (unloadStale needed)) s0).
    assert (S0 : sound s0) by (eapply sound_extends; [| exact Hs]; extends_setters).
    assert (K1 : owned_kept s0 s1).
    { apply (keeps_forEach owned_kept owned_kept_refl owned_kept_trans).
      intros a _. apply unloadStale_owned_kept. }
    assert (K2 : owned_kept s1 (run_state (forEach needed (loadMissing host)) s1)).
    { apply (keeps_forEach owned_kept owned_kept_refl owned_kept_trans).
      intros a _. apply loadMissing_owned_kept. }
    apply (store_spares_kept s0 _ (owned_kept_trans _ _ _ K1 K2) S0). exact Hst.
Qed.

Lemma reachable_store_spares (host : Host) (s : Engine) :
  reachable host s -> store_spares s.
Proof.
  induction 1 as [config | s p Hr IH | s config Hr IH | s x z lodIndex Hr IH | s key Hr IH].
  - intros k c Hin. unfold constructed in Hin.
    destruct (initResources_rest host config (emptyEngine config)) as [E _].
    rewrite E in Hin. destruct Hin.
  - unfold run_state. rewrite refresh_run.
    apply (updateChunks_store_spares host (set_camera_position p s)); [| exact IH].
    eapply sound_extends; [| exact (reachable_sound host s Hr)]. extends_setters.
  - destruct (needsRebuild (currentConfig s) config) eqn:En.
    + destruct (updateConfig_structural host config s En) as [E _]. rewrite E.
      set (s1 := run_state (initResources host config) (set_currentConfig config s)).
      set (s2 := run_state (forEach (chunks s1) unloadEntry) s1).
      apply updateChunks_store_spares; [| intros k c []].
      assert (E12 : extends s1 s2).
      { apply (keeps_forEach extends extends_refl extends_trans).
        intros e _ t. apply unloadChunk_extends. }
      eapply sound_extends; [| eapply sound_extends; [exact E12 | apply initResources_sound]].
      extends_setters.
    + unfold run_state. rewrite updateConfig_cosmetic by exact En.
      intros k c Hin. apply (spares_shared_extends s); [extends_setters | exact (IH k c Hin)].
  - exact (store_spares_kept s _ (loadChunk_owned_kept host x z lodIndex s)
             (reachable_sound host s Hr) IH).
  - exact (store_spares_kept s _ (unloadChunk_owned_kept key s)
             (reachable_sound host s Hr) IH).
Qed.

(** X18: the only shared object [unloadChunk] ever disposes of is the LOD
    template under a grass mesh of no instances; the ground geometry, a debug
    material and a grass geometry with blades are the chunk's own. *)
Theorem unloadChunk_spares_shared (host : Host) (s : Engine) (key : Key) (o : nat) :
  reachable host s ->
  In o (unloadChunk_disposals s key) ->
  In o (shared_objects s) ->
  exists c,
    map_get (chunks s) key = Some c /\
    imesh_count (grass c) = 0%Z /\
    o = imesh_geometry (grass c).
Proof.
  intros Hr Ho Hsh. unfold unloadChunk_disposals in Ho.
  destruct (map_get (chunks s) key) as [c |] eqn:Ec; [| destruct Ho].
  destruct (reachable_store_spares host s Hr key c (map_get_In _ _ _ Ec))
    as (Hgeo & Hmat & Hgrass & Hcount).
  exists c. split; [reflexivity |].
  destruct Ho as [<- | [<- | Ho]].
  - destruct Hcount as [E0 | Hpos]; [split; [exact E0 | reflexivity] |].
    specialize (Hgrass Hpos _ Hsh). lia.
  - specialize (Hgeo _ Hsh). lia.
  - destruct (instanceof_MeshBasicMaterial (mesh_material (ground c))) eqn:Eb;
      [| destruct Ho].
    destruct Ho as [<- | []]. specialize (Hmat eq_refl _ Hsh). lia.
Qed.

Lemma unloadChunk_spares_shared_witness :
  let s := run_state (loadChunk sampleHost 0 0 0) (constructed sampleHost bareFields) in
  exists c,
    map_get (chunks s) (getChunkKey 0 0) = Some c /\
    imesh_count (grass c) = 0%Z /\
    0%nat = imesh_geometry (grass c).
Proof.
  apply (unloadChunk_spares_shared sampleHost).
  - apply reachable_loadChunk, reachable_constructed.
  - vm_compute. left. reflexivity.
  - vm_compute. left. reflexivity.
Defined.

(** ** Pollen *)

Lemma genParticles_spec (host : Host) :
  unit_stream (Math_random host) ->
  forall (n : nat) (s : Engine),
    List.length (run_value (genParticles host n) s) = n /\
    Forall particle_in_box (run_value (genParticles host n) s) /\
    random_calls (run_state (genParticles host n) s) = (random_calls s + 4 * n)%nat /\
    next_object (run_state (genParticles host n) s) = next_object s /\
    run_events (genParticles host n) s = [].
Proof.
  intros Hu. induction n as [| n IH]; intros s.
  - repeat split; [constructor | cbn; lia].
  - cbn [genParticles].
    rewrite !run_value_bind, !run_state_bind, !run_events_bind,
      !run_state_ret, !run_value_ret.
    rewrite !run_value_random, !random_calls_random.
    set (s4 := run_state (random host) (run_state (random host)
                 (run_state (random host) (run_state (random host) s)))).
    destruct (IH s4) as (Il & If & Ir & In_ & Ie).
    destruct (Hu (random_calls s)) as [A0 A1].
    destruct (Hu (S (random_calls s))) as [B0 B1].
    destruct (Hu (S (S (random_calls s)))) as [C0 C1].
    destruct (Hu (S (S (S (random_calls s))))) as [D0 D1].
    split; [| split; [| split; [| split]]].
    + cbn [List.length]. f_equal. exact Il.
    + constructor; [| exact If].
      unfold particle_in_box, boxSize. cbn [pOffset pScale vx vy vz].
      repeat split; lra.
    + rewrite Ir. unfold s4. rewrite !random_calls_random. lia.
    + rewrite In_. reflexivity.
    + rewrite Ie. reflexivity.
Qed.

Lemma run_value_new_object (s : Engine) : run_value new_object s = next_object s.
Proof. reflexivity. Qed.

Lemma next_object_new_object (s : Engine) :
  next_object (run_state new_object s) = S (next_object s).
Proof. reflexivity. Qed.

Lemma random_calls_new_object (s : Engine) :
  random_calls (run_state new_object s) = random_calls s.
Proof. reflexivity. Qed.

Lemma buildParticles_run (host : Host) (s : Engine) :
  unit_stream (Math_random host) ->
  let particles := run_value (genParticles host particleCount) (run_state new_object s) in
  run_value (buildParticles host) s
  = (S (next_object s), S (S (next_object s)), particles) /\
  List.length particles = particleCount /\
  Forall particle_in_box particles /\
  random_calls (run_state (buildParticles host) s)
  = (random_calls s + 4 * particleCount)%nat /\
  next_object (run_state (buildParticles host) s) = (next_object s + 4)%nat /\
  run_events (buildParticles host) s = [].
Proof.
  intros Hu particles.
  destruct (genParticles_spec host Hu particleCount (run_state new_object s))
    as (Hl & Hf & Hr & Hn & He).
  fold particles in Hl, Hf.
  unfold buildParticles.
  rewrite !run_value_bind, !run_state_bind, !run_events_bind,
    !run_state_ret, !run_value_ret.
  rewrite !run_value_new_object, !next_object_new_object, !random_calls_new_object.
  rewrite Hn, Hr, He, next_object_new_object, random_calls_new_object.
  fold particles.
  repeat split; try assumption; try reflexivity; lia.
Qed.

(** X30: [initParticles] disposes of the pollen mesh it replaces and builds
    2000 particles, each inside the box of 80 x 40 x 80 and scaled between
    0.5 and 1, with four random numbers per particle. *)
Theorem initParticles_particles (host : Host) (fx : Fixtures) (s : Engine) :
  unit_stream (Math_random host) ->
  let r := initParticles host fx s in
  let fx' := fst (fst (fst r)) in
  let particles := snd (fst (fst r)) in
  let s' := snd (fst r) in
  let evs := snd r in
  List.length particles = particleCount /\
  Forall particle_in_box particles /\
  random_calls s' = (random_calls s + 4 * particleCount)%nat /\
  pollenMesh fx' = Some (S (next_object s)) /\
  pollenMaterial fx' = Some (S (S (next_object s))) /\
  (forall o, In o (match pollenMesh fx with
                   | Some g => g :: opt_list (pollenMaterial fx)
                   | None => []
                   end) -> In (Engine_event (Dispose o)) evs) /\
  In Scene_add_pollenMesh evs.
Proof.
  intros Hu. destruct (buildParticles_run host s Hu) as (Ev & Hl & Hf & Hr & Hn & He).
  cbv zeta in Ev, Hl, Hf. unfold initParticles. rewrite Ev, He.
  cbn [fst snd pollenMesh pollenMaterial map].
  repeat split; try assumption; try reflexivity.
  - intros o Ho. apply in_or_app. left.
    destruct (pollenMesh fx) as [g |]; [| destruct Ho].
    right. destruct Ho as [<- | Ho]; [left; reflexivity | right].
    destruct (pollenMaterial fx) as [m |]; [| destruct Ho].
    destruct Ho as [<- | []]. left. reflexivity.
  - apply in_or_app. right. left. reflexivity.
Qed.

Lemma initParticles_particles_witness :
  let r := initParticles sampleHost sampleFixtures (constructed sampleHost bareFields) in
  List.length (snd (fst (fst r))) = particleCount /\
  Forall particle_in_box (snd (fst (fst r))) /\
  In (Engine_event (Dispose 104%nat)) (snd r).
Proof.
  destruct (initParticles_particles sampleHost sampleFixtures
              (constructed sampleHost bareFields) sampleHost_unit_stream)
    as (Hl & Hf & _ & _ & _ & Hd & _).
  split; [exact Hl | split; [exact Hf |]].
  apply Hd. left. reflexivity.
Defined.
